(** * SimpleLisp: the interpreter of [learning/lib/simple-lisp.ts]

    A shallow embedding of the [SimpleLisp] class: the tokenizer, the
    recursive-descent parser, the printer ([stringify]), the evaluator with
    its table of primitives, and the top-level [evaluate].

    The class is written in TypeScript, whose types are erased at run time, so
    the embedding follows the JavaScript the class runs as:

    - text is modelled as [string] over ASCII (whitespace is the ASCII part
      of the class [\s]; [toLowerCase] acts on [A-Z]);
    - numbers are IEEE 754 binary64 values ([spec_float] of the Standard
      Library, precision 53), with the host's [Number(text)] and
      [Number.prototype.toString] written out in module [JS];
    - arrays carry the identity of the object they are, because [===]
      compares arrays by identity;
    - environments are objects used as maps from names to values, kept in a
      heap and passed by address, because closures hold on to the environment
      object itself;
    - recursion that is not structural (the parser's index loop, calls of user
      functions) is driven by a fuel argument. *)

From Stdlib Require Import ZArith Floats.SpecFloat Strings.Ascii Strings.String.
From Stdlib Require Import Numbers.DecimalString Numbers.DecimalN Numbers.DecimalPos.
From Stdlib Require Import Numbers.DecimalFacts.
From stdpp Require Import gmap strings list.

Local Open Scope Z_scope.

(** ** Host text operations *)

Module JS.

(** The ASCII members of the regular-expression class [\s], which are also
    the characters [trim] removes. *)
Definition isWhitespace (c : ascii) : bool :=
  let n := nat_of_ascii c in
  ((9 <=? n) && (n <=? 13))%nat || (n =? 32)%nat.

(** [s.replace(/c/g, by)] for a one-character pattern. *)
Fixpoint replaceAll (c : ascii) (by_ : string) (s : string) : string :=
  match s with
  | EmptyString => EmptyString
  | String x rest =>
      if Ascii.eqb x c then by_ +:+ replaceAll c by_ rest
      else String x (replaceAll c by_ rest)
  end.

Fixpoint trimStart (s : string) : string :=
  match s with
  | String x rest => if isWhitespace x then trimStart rest else s
  | EmptyString => EmptyString
  end.

Fixpoint trimEnd (s : string) : string :=
  match s with
  | EmptyString => EmptyString
  | String x rest =>
      match trimEnd rest with
      | EmptyString => if isWhitespace x then EmptyString else String x EmptyString
      | kept => String x kept
      end
  end.

Definition trim (s : string) : string := trimEnd (trimStart s).

(** [s.split(/\s+/)]: the pieces between maximal runs of whitespace; a run at
    either end leaves an empty piece there, and the empty text gives one
    empty piece. [in_run] tells that the previous character was whitespace,
    [piece] is the piece read so far. *)
Fixpoint split_run (in_run : bool) (piece : string) (s : string) : list string :=
  match s with
  | EmptyString => [piece]
  | String x rest =>
      if isWhitespace x then
        if in_run then split_run true EmptyString rest
        else piece :: split_run true EmptyString rest
      else split_run false (piece +:+ String x EmptyString) rest
  end.

Definition splitWhitespace (s : string) : list string :=
  split_run false EmptyString s.

Definition lowerChar (c : ascii) : ascii :=
  let n := nat_of_ascii c in
  if ((65 <=? n) && (n <=? 90))%nat then ascii_of_nat (n + 32) else c.

Fixpoint toLowerCase (s : string) : string :=
  match s with
  | EmptyString => EmptyString
  | String x rest => String (lowerChar x) (toLowerCase rest)
  end.

(** [parts.join(sep)]. *)
Fixpoint join (sep : string) (parts : list string) : string :=
  match parts with
  | [] => EmptyString
  | [p] => p
  | p :: rest => p +:+ sep +:+ join sep rest
  end.

(** [s.startsWith(prefix)]. *)
Fixpoint startsWith (prefix s : string) : bool :=
  match prefix with
  | EmptyString => true
  | String a prefix' =>
      match s with
      | EmptyString => false
      | String b s' => Ascii.eqb a b && startsWith prefix' s'
      end
  end.

(** The text comparison of [<] on two strings: code units, left to right. *)
Fixpoint stringLess (a b : string) : bool :=
  match a, b with
  | _, EmptyString => false
  | EmptyString, String _ _ => true
  | String x a', String y b' =>
      if (nat_of_ascii x <? nat_of_ascii y)%nat then true
      else if (nat_of_ascii y <? nat_of_ascii x)%nat then false
      else stringLess a' b'
  end.


(** ** Host numbers

    A JavaScript number is an IEEE 754 binary64 value. Arithmetic and
    comparisons are those of [SpecFloat] at precision 53. *)

Definition number : Type := spec_float.

Definition prec : Z := 53.
Definition emax : Z := 1024.

Definition NaN : number := S754_nan.

Definition isNaN (x : number) : bool :=
  match x with S754_nan => true | _ => false end.

(** The double nearest to an integer. *)
Definition numberOfZ (z : Z) : number := binary_normalize prec emax z 0 false.

Definition add : number -> number -> number := SFadd prec emax.
Definition sub : number -> number -> number := SFsub prec emax.
Definition mul : number -> number -> number := SFmul prec emax.
Definition div : number -> number -> number := SFdiv prec emax.
Definition neg : number -> number := SFopp.

(** [x === y] on two numbers. *)
Definition numberEquals : number -> number -> bool := SFeqb.
(** [x < y] on two numbers; false when either is [NaN]. *)
Definition numberLess : number -> number -> bool := SFltb.

(** The double nearest to [m * 10^e] ([m >= 0]), with the sign [negative].
    Far outside the range of doubles the answer is known without computing
    the power: [m * 10^e >= 10^400] overflows, and
    [m * 10^e < 2^(log2 m + 1) * 10^e <= 10^-400] rounds to zero. *)
Definition roundDecimal (negative : bool) (m : Z) (e : Z) : number :=
  match m with
  | Zpos p =>
      if 400 <? e then S754_infinity negative
      else if e + Z.log2 m + 1 <? -400 then S754_zero negative
      else if 0 <=? e then
        binary_round prec emax negative (Z.to_pos (m * 10 ^ e)) 0
      else
        let '(q, e2, loc) :=
          SFdiv_core_binary prec emax m 0 (10 ^ (- e)) 0 in
        binary_round_aux prec emax negative q e2 loc
  | _ => S754_zero negative
  end.

(** *** [Number(text)]: the grammar [StringNumericLiteral] *)

Definition digitValue (base : Z) (c : ascii) : option Z :=
  let n := Z.of_nat (nat_of_ascii c) in
  let d :=
    if (48 <=? n) && (n <=? 57) then n - 48
    else if (97 <=? n) && (n <=? 102) then n - 87
    else if (65 <=? n) && (n <=? 70) then n - 55
    else 16 in
  if d <? base then Some d else None.

(** Reads the longest run of digits of [base] at the front of [s]: the value
    read on top of [acc], the number of digits, and the rest of the text. *)
Fixpoint readDigits (base : Z) (s : string) (acc : Z) (count : nat)
  : Z * nat * string :=
  match s with
  | String c rest =>
      match digitValue base c with
      | Some d => readDigits base rest (acc * base + d) (S count)
      | None => (acc, count, s)
      end
  | EmptyString => (acc, count, s)
  end.

Definition readSign (s : string) : bool * string :=
  match s with
  | String c rest =>
      if Ascii.eqb c "-" then (true, rest)
      else if Ascii.eqb c "+" then (false, rest)
      else (false, s)
  | EmptyString => (false, s)
  end.

(** What a numeric text denotes before rounding. *)
Inductive literal : Type :=
  | InfinityLiteral (negative : bool)
  | DecimalLiteral (negative : bool) (digits : Z) (exponent : Z)
  | NonDecimalLiteral (value : Z).

(** [0x], [0o] and [0b] literals: no sign, at least one digit. (Base 0 has
    no digit: any other beginning is refused.) *)
Definition readNonDecimal (s : string) : option literal :=
  match s with
  | String zero (String x rest) =>
      let base :=
        if negb (Ascii.eqb zero "0") then 0
        else if Ascii.eqb (lowerChar x) "x" then 16
        else if Ascii.eqb (lowerChar x) "o" then 8
        else if Ascii.eqb (lowerChar x) "b" then 2
        else 0 in
      match readDigits base rest 0 0 with
      | (v, S _, EmptyString) => Some (NonDecimalLiteral v)
      | _ => None
      end
  | _ => None
  end.

(** The exponent part, which must reach the end of the text. *)
Definition readExponent (s : string) : option Z :=
  match s with
  | EmptyString => Some 0
  | String c rest =>
      if Ascii.eqb (lowerChar c) "e" then
        let '(negative, rest1) := readSign rest in
        match readDigits 10 rest1 0 0 with
        | (v, S _, EmptyString) => Some (if negative then - v else v)
        | _ => None
        end
      else None
  end.

(** [StrDecimalLiteral]: an optional sign, then [Infinity] or digits with an
    optional fraction and an optional exponent. *)
Definition readDecimal (s : string) : option literal :=
  let '(negative, body) := readSign s in
  if String.eqb body "Infinity" then Some (InfinityLiteral negative)
  else
    let '(int_part, int_count, rest1) := readDigits 10 body 0 0 in
    let '(digits, frac_count, rest2) :=
      match rest1 with
      | String c rest =>
          if Ascii.eqb c "." then readDigits 10 rest int_part 0
          else (int_part, 0%nat, rest1)
      | EmptyString => (int_part, 0%nat, rest1)
      end in
    match (int_count + frac_count)%nat with
    | O => None
    | S _ =>
        match readExponent rest2 with
        | Some x => Some (DecimalLiteral negative digits (x - Z.of_nat frac_count))
        | None => None
        end
    end.

Definition readLiteral (s : string) : option literal :=
  match readNonDecimal s with
  | Some l => Some l
  | None => readDecimal s
  end.

Definition literalValue (l : literal) : number :=
  match l with
  | InfinityLiteral negative => S754_infinity negative
  | DecimalLiteral negative digits exponent => roundDecimal negative digits exponent
  | NonDecimalLiteral value => numberOfZ value
  end.

(** [Number(s)] on a string: surrounding whitespace is dropped, the empty
    text is [0], a text outside the grammar is [NaN]. *)
Definition stringToNumber (s : string) : number :=
  let t := trim s in
  match t with
  | EmptyString => S754_zero false
  | _ => match readLiteral t with
         | Some l => literalValue l
         | None => NaN
         end
  end.

(** *** [Number.prototype.toString]

    For a finite non-zero double [x] the host prints the shortest run of
    decimal digits [s] (with a decimal exponent) that reads back as [x], the
    closest to [x] when several do, and lays it out by the position [n] of
    the decimal point. *)

Definition decimalString (z : Z) : string :=
  NilEmpty.string_of_uint (N.to_uint (Z.to_N z)).

Fixpoint zeros (n : nat) : string :=
  match n with
  | O => EmptyString
  | S n' => String "0" (zeros n')
  end.

(** The least [j] from [j0] on with [den <= num * 10^j] ([num] is already
    scaled by [10^j0]). *)
Fixpoint scaleUp (fuel : nat) (num den : Z) (j0 : Z) : Z :=
  match fuel with
  | O => j0
  | S fuel' => if den <=? num then j0 else scaleUp fuel' (num * 10) den (j0 + 1)
  end.

(** The [n] with [10^(n-1) <= num/den < 10^n]. *)
Definition decimalPoint (num den : Z) : Z :=
  if den <=? num then Z.of_nat (String.length (decimalString (num / den)))
  else 1 - scaleUp 400 (num * 10) den 1.

(** [floor (num/den / 10^p)] and whether [hi = lo + 1] is at least as close
    to [num/den] as [lo] is (strictly closer, or as close with [lo] odd). *)
Definition scaledFloor (num den p : Z) : Z * bool :=
  let num' := if 0 <=? p then num else num * 10 ^ (- p) in
  let den' := if 0 <=? p then den * 10 ^ p else den in
  let lo := num' / den' in
  let below := num' - lo * den' in
  let above := (lo + 1) * den' - num' in
  (lo, (above <? below) || ((above =? below) && Z.odd lo)).

Definition sameNumber (x y : number) : bool :=
  match x, y with
  | S754_finite s1 m1 e1, S754_finite s2 m2 e2 =>
      Bool.eqb s1 s2 && Pos.eqb m1 m2 && Z.eqb e1 e2
  | _, _ => false
  end.

(** The digits for [x = num/den]: the first count [k = 1, 2, ...] of digits
    at which a [k]-digit decimal reads back as [x]. *)
Fixpoint shortestDigits (fuel : nat) (x : number) (num den n k : Z) : Z * Z :=
  let p := n - k in
  let '(lo, hi_closer) := scaledFloor num den p in
  let lo_ok := sameNumber (roundDecimal false lo p) x in
  let hi_ok := sameNumber (roundDecimal false (lo + 1) p) x in
  match fuel with
  | O => (lo, p)
  | S fuel' =>
      if lo_ok && hi_ok then (if hi_closer then (lo + 1, p) else (lo, p))
      else if lo_ok then (lo, p)
      else if hi_ok then (lo + 1, p)
      else shortestDigits fuel' x num den n (k + 1)
  end.

(** Drops the zeros at the end of [s], raising the exponent. *)
Fixpoint stripZeros (fuel : nat) (s p : Z) : Z * Z :=
  match fuel with
  | O => (s, p)
  | S fuel' =>
      if (0 <? s) && (s mod 10 =? 0) then stripZeros fuel' (s / 10) (p + 1)
      else (s, p)
  end.

Definition substringFrom (n : nat) (s : string) : string :=
  String.substring n (String.length s - n) s.

(** The layout of the digits [digits], the decimal point being after the
    first [n] of them. *)
Definition layout (digits : string) (n : Z) : string :=
  let k := Z.of_nat (String.length digits) in
  if (k <=? n) && (n <=? 21) then digits +:+ zeros (Z.to_nat (n - k))
  else if (0 <? n) && (n <=? 21) then
    String.substring 0 (Z.to_nat n) digits +:+ "." +:+ substringFrom (Z.to_nat n) digits
  else if (-6 <? n) && (n <=? 0) then
    "0." +:+ zeros (Z.to_nat (- n)) +:+ digits
  else
    let e := n - 1 in
    let sign := if e <? 0 then "-" else "+" in
    let mantissa :=
      if k =? 1 then digits
      else String.substring 0 1 digits +:+ "." +:+ substringFrom 1 digits in
    mantissa +:+ "e" +:+ sign +:+ decimalString (Z.abs e).

Definition toString (x : number) : string :=
  match x with
  | S754_nan => "NaN"
  | S754_zero _ => "0"
  | S754_infinity negative => if negative then "-Infinity" else "Infinity"
  | S754_finite negative m e =>
      let num := if 0 <=? e then Zpos m * 2 ^ e else Zpos m in
      let den := if 0 <=? e then 1 else 2 ^ (- e) in
      let n := decimalPoint num den in
      let '(s0, p0) := shortestDigits 17 (S754_finite false m e) num den n 1 in
      let '(s, p) := stripZeros 400 s0 p0 in
      let digits := decimalString s in
      (if negative then "-" else "") +:+
      layout digits (Z.of_nat (String.length digits) + p)
  end.

End JS.

Local Open Scope nat_scope.

(** ** Values

    [LispValue = number | string | boolean | null | LispValue[]]. A string is
    a symbol. The host's [undefined] is not part of the declared type but
    reaches its positions at run time ([car] of an empty list, [(quote)], a
    missing argument), so it is a value here. An array carries the identity
    [id] of the array object. *)

#[warnings="-register-all"]
Inductive LispValue : Type :=
  | LNumber (n : JS.number)
  | LString (s : string)
  | LBoolean (b : bool)
  | LNull
  | LUndefined
  | LArray (id : nat) (items : list LispValue).

(** [expr[i]]: reading past the end of an array gives [undefined]. *)
Definition item (items : list LispValue) (i : nat) : LispValue :=
  default LUndefined (items !! i).

Definition isArray (v : LispValue) : bool :=
  match v with LArray _ _ => true | _ => false end.

(** *** The host's conversions and operators on values *)

(** [String(v)], which is also how a value becomes a property key; an array
    prints its elements separated by commas, [null] and [undefined] elements
    as nothing. *)
Fixpoint toText (v : LispValue) : string :=
  match v with
  | LNumber n => JS.toString n
  | LString s => s
  | LBoolean b => if b then "true" else "false"
  | LNull => "null"
  | LUndefined => "undefined"
  | LArray _ items =>
      JS.join ","
        (List.map (fun x => match x with
                            | LNull | LUndefined => EmptyString
                            | _ => toText x
                            end) items)
  end.

(** The conversion to a number that the arithmetic operators apply. *)
Definition toNumber (v : LispValue) : JS.number :=
  match v with
  | LNumber n => n
  | LString s => JS.stringToNumber s
  | LBoolean b => JS.numberOfZ (if b then 1 else 0)
  | LNull => JS.numberOfZ 0
  | LUndefined => JS.NaN
  | LArray _ _ => JS.stringToNumber (toText v)
  end.

(** What the host takes for true in [c ? a : b] and [!x]: everything but
    [false], [0], [NaN], the empty text, [null] and [undefined]. *)
Definition truthy (v : LispValue) : bool :=
  match v with
  | LNumber (S754_zero _) | LNumber S754_nan => false
  | LNumber _ => true
  | LString s => negb (String.eqb s EmptyString)
  | LBoolean b => b
  | LNull | LUndefined => false
  | LArray _ _ => true
  end.

(** [a === b]: numbers by value, text by content, arrays by identity. *)
Definition strictEquals (a b : LispValue) : bool :=
  match a, b with
  | LNumber x, LNumber y => JS.numberEquals x y
  | LString x, LString y => String.eqb x y
  | LBoolean x, LBoolean y => Bool.eqb x y
  | LNull, LNull => true
  | LUndefined, LUndefined => true
  | LArray i _, LArray j _ => Nat.eqb i j
  | _, _ => false
  end.

(** Strings and arrays are the values whose primitive form is text. *)
Definition isTextual (v : LispValue) : bool :=
  match v with LString _ | LArray _ _ => true | _ => false end.

(** [a + b]: concatenation as soon as one side is textual. *)
Definition plus (a b : LispValue) : LispValue :=
  if isTextual a || isTextual b then LString (toText a +:+ toText b)
  else LNumber (JS.add (toNumber a) (toNumber b)).

(** [a < b] as the host decides it: [None] when a [NaN] is involved. *)
Definition lessThan (a b : LispValue) : option bool :=
  if isTextual a && isTextual b then Some (JS.stringLess (toText a) (toText b))
  else
    let x := toNumber a in
    let y := toNumber b in
    if JS.isNaN x || JS.isNaN y then None else Some (JS.numberLess x y).

(** ** Outcomes

    The class throws [new Error(message)]; the host throws a [TypeError] of
    its own when a property of [undefined] or [null] is read or a
    non-function is called. [NotModelled] marks the few host behaviours left
    out (see [getProperty]), [OutOfFuel] a computation cut short. *)

Inductive exn : Type :=
  | Error (message : string)
  | TypeError.

Inductive outcome (S A : Type) : Type :=
  | Return (a : A) (s : S)
  | Throw (e : exn) (s : S)
  | NotModelled
  | OutOfFuel.

Arguments Return {S A} a s.
Arguments Throw {S A} e s.
Arguments NotModelled {S A}.
Arguments OutOfFuel {S A}.

Definition bind {S A B : Type} (m : outcome S A) (k : A -> S -> outcome S B)
  : outcome S B :=
  match m with
  | Return a s => k a s
  | Throw e s => Throw e s
  | NotModelled => NotModelled
  | OutOfFuel => OutOfFuel
  end.

(** ** Printer *)

Fixpoint stringify (value : LispValue) : string :=
  match value with
  | LNull => "NIL"
  | LBoolean true => "T"
  | LBoolean false => "NIL"
  | LNumber n => JS.toString n
  | LString s => s
  | LArray _ items => "(" +:+ JS.join " " (List.map stringify items) +:+ ")"
  | LUndefined => "undefined"
  end.

(** ** Tokenizer *)

Definition tokenize (input : string) : list string :=
  List.filter (fun token => 0 <? String.length token)
    (JS.splitWhitespace
       (JS.trim
          (JS.replaceAll "'" " ' "
             (JS.replaceAll ")" " ) "
                (JS.replaceAll "(" " ( " input))))).

(** ** Parser

    The state threaded through the parser is the identity of the next array
    to be created. *)

Definition tokenIs (tokens : list string) (i : nat) (text : string) : bool :=
  match tokens !! i with
  | Some token => String.eqb token text
  | None => false
  end.

(** The [while] loop of the list branch, followed by its end test. [parseOne]
    is [parseExpression] on the same tokens. *)
Fixpoint parseItems (parseOne : nat -> nat -> outcome nat (LispValue * nat))
    (fuel : nat) (tokens : list string) (items : list LispValue) (i : nat)
    (next : nat) : outcome nat (list LispValue * nat) :=
  match fuel with
  | O => OutOfFuel
  | S fuel' =>
      if (i <? length tokens) && negb (tokenIs tokens i ")") then
        match parseOne i next with
        | Return (expr, nextIndex) next' =>
            parseItems parseOne fuel' tokens (items ++ [expr]) nextIndex next'
        | Throw e s => Throw e s
        | NotModelled => NotModelled
        | OutOfFuel => OutOfFuel
        end
      else if length tokens <=? i then
        Throw (Error "Unmatched opening parenthesis") next
      else Return (items, i + 1) next
  end.

Fixpoint parseExpression (fuel : nat) (tokens : list string) (index : nat)
    (next : nat) : outcome nat (LispValue * nat) :=
  match fuel with
  | O => OutOfFuel
  | S fuel' =>
      if tokenIs tokens index "(" then
        match parseItems (parseExpression fuel' tokens) fuel' tokens []
                (index + 1) (S next) with
        | Return (items, i) next' => Return (LArray next items, i) next'
        | Throw e s => Throw e s
        | NotModelled => NotModelled
        | OutOfFuel => OutOfFuel
        end
      else if tokenIs tokens index ")" then
        Throw (Error "Unexpected closing parenthesis") next
      else if tokenIs tokens index "'" then
        match parseExpression fuel' tokens (index + 1) next with
        | Return (expr, nextIndex) next' =>
            Return (LArray next' [LString "quote"; expr], nextIndex) (S next')
        | other => other
        end
      else
        match tokens !! index with
        | Some token =>
            if negb (JS.isNaN (JS.stringToNumber token)) then
              Return (LNumber (JS.stringToNumber token), index + 1) next
            else Return (LString (JS.toLowerCase token), index + 1) next
        | None =>
            (* [Number(undefined)] is [NaN], and [undefined.toLowerCase()]
               is the host's TypeError *)
            Throw TypeError next
        end
  end.

(** The loop of [parse]. *)
Fixpoint parseAll (fuel : nat) (tokens : list string) (result : list LispValue)
    (i : nat) (next : nat) : outcome nat (list LispValue) :=
  match fuel with
  | O => OutOfFuel
  | S fuel' =>
      if i <? length tokens then
        match parseExpression (S (length tokens)) tokens i next with
        | Return (expr, nextIndex) next' =>
            parseAll fuel' tokens (result ++ [expr]) nextIndex next'
        | Throw e s => Throw e s
        | NotModelled => NotModelled
        | OutOfFuel => OutOfFuel
        end
      else Return result next
  end.

(** [parse(input)]. Every call of [parseExpression] moves the index forward,
    so a fuel above the number of tokens is never used up
    ([parse_never_out_of_fuel]). *)
Definition parse (input : string) (next : nat) : outcome nat (list LispValue) :=
  let tokens := tokenize input in
  parseAll (S (length tokens)) tokens [] 0 next.

(** ** Environments and the interpreter state *)

(** The entries of the table of [createGlobalEnvironment]. *)
Inductive Primitive : Type :=
  | Plus | Minus | Times | Divide
  | Equal | Less | Greater | LessEqual | GreaterEqual
  | MakeList | Cons | Car | Cdr | Length | Append
  | Atom | IsNull | Numberp | Symbolp
  | And | Or | Not
  | Print.

(** [LispFunction]: a primitive, or the closure that [defun] stores, which
    holds the parameters and the body it was given and the address of the
    environment object it was created in. [ObjectConstructor] is the host
    function every object inherits under the name [constructor]. *)
Inductive LispFunction : Type :=
  | Builtin (p : Primitive)
  | Closure (params : LispValue) (body : list LispValue) (env : nat)
  | ObjectConstructor.

(** [LispEnvValue = LispValue | LispFunction]. *)
Inductive LispEnvValue : Type :=
  | Data (v : LispValue)
  | Callable (f : LispFunction).

(** [LispEnvironment]: the own properties of an environment object. *)
Abbreviation LispEnvironment := (gmap string LispEnvValue).

(** [env[key]]. A name the object does not have is looked up in the host's
    [Object.prototype]: of the names a lower-case symbol can spell, that
    finds [constructor] (a function) and [__proto__] (an accessor); any other
    name gives [undefined]. Reading or writing [__proto__] is left out of the
    model: [None]. *)
Definition getProperty (env : LispEnvironment) (key : string)
  : option LispEnvValue :=
  if String.eqb key "__proto__" then None
  else
    match env !! key with
    | Some x => Some x
    | None =>
        if String.eqb key "constructor" then Some (Callable ObjectConstructor)
        else Some (Data LUndefined)
    end.

(** [env[key] = x]. *)
Definition setProperty (env : LispEnvironment) (key : string) (x : LispEnvValue)
  : option LispEnvironment :=
  if String.eqb key "__proto__" then None else Some (<[key := x]> env).

(** The fields of the class: [env] is the environment object at address
    [globalEnv] of [heap], which holds every environment object created so
    far; [output] is the buffer of printed lines; [nextArray] is the identity
    the next array will get. *)
Record SimpleLisp : Type := {
  heap : list LispEnvironment;
  output : list string;
  nextArray : nat
}.

Definition globalEnv : nat := 0.

Definition withHeap (st : SimpleLisp) (h : list LispEnvironment) : SimpleLisp :=
  {| heap := h; output := output st; nextArray := nextArray st |}.

Definition withOutput (st : SimpleLisp) (o : list string) : SimpleLisp :=
  {| heap := heap st; output := o; nextArray := nextArray st |}.

(** A new array with the given elements. *)
Definition newArray (items : list LispValue) (st : SimpleLisp)
  : outcome SimpleLisp LispValue :=
  Return (LArray (nextArray st) items)
    {| heap := heap st; output := output st; nextArray := S (nextArray st) |}.

Definition createGlobalEnvironment : LispEnvironment :=
  list_to_map
    [ ("+", Callable (Builtin Plus));
      ("-", Callable (Builtin Minus));
      ("*", Callable (Builtin Times));
      ("/", Callable (Builtin Divide));
      ("=", Callable (Builtin Equal));
      ("<", Callable (Builtin Less));
      (">", Callable (Builtin Greater));
      ("<=", Callable (Builtin LessEqual));
      (">=", Callable (Builtin GreaterEqual));
      ("list", Callable (Builtin MakeList));
      ("cons", Callable (Builtin Cons));
      ("car", Callable (Builtin Car));
      ("cdr", Callable (Builtin Cdr));
      ("length", Callable (Builtin Length));
      ("append", Callable (Builtin Append));
      ("atom", Callable (Builtin Atom));
      ("null", Callable (Builtin IsNull));
      ("numberp", Callable (Builtin Numberp));
      ("symbolp", Callable (Builtin Symbolp));
      ("and", Callable (Builtin And));
      ("or", Callable (Builtin Or));
      ("not", Callable (Builtin Not));
      ("print", Callable (Builtin Print));
      ("t", Data (LBoolean true));
      ("nil", Data LNull) ].

(** The constructor of the class. *)
Definition newSimpleLisp : SimpleLisp :=
  {| heap := [createGlobalEnvironment]; output := []; nextArray := 0 |}.

(** ** Primitives *)

(** [x !== false && x !== null], the test of [and] and [or]. *)
Definition lispTrue (x : LispValue) : bool :=
  negb (strictEquals x (LBoolean false)) && negb (strictEquals x LNull).

(** The elements [...list] spreads: those of an array, the characters of a
    text; nothing else can be iterated. *)
Fixpoint characters (s : string) : list LispValue :=
  match s with
  | EmptyString => []
  | String c rest => LString (String c EmptyString) :: characters rest
  end.

Definition spread (v : LispValue) : option (list LispValue) :=
  match v with
  | LArray _ items => Some items
  | LString s => Some (characters s)
  | _ => None
  end.

Fixpoint appendAll (acc : list LispValue) (lists : list LispValue)
  : option (list LispValue) :=
  match lists with
  | [] => Some acc
  | l :: rest =>
      match spread l with
      | Some items => appendAll (acc ++ items) rest
      | None => None
      end
  end.

Definition numeric (op : JS.number -> JS.number -> JS.number)
    (a b : LispValue) : LispValue :=
  LNumber (op (toNumber a) (toNumber b)).

(** The functions of the table, applied to the argument values. A parameter
    without an argument is [undefined]; [reduce] without a start value throws
    on no arguments and returns a single argument as it is. Arrays that no
    value refers to afterwards (the intermediate results of [append]) are
    given no identity. *)
Definition applyPrimitive (p : Primitive) (args : list LispValue)
    (st : SimpleLisp) : outcome SimpleLisp LispValue :=
  let a := item args 0 in
  let b := item args 1 in
  match p with
  | Plus => Return (fold_left plus args (LNumber (JS.numberOfZ 0))) st
  | Minus =>
      match args with
      | [] => Throw TypeError st
      | [x] => Return (LNumber (JS.neg (toNumber x))) st
      | x :: rest => Return (fold_left (numeric JS.sub) rest x) st
      end
  | Times => Return (fold_left (numeric JS.mul) args (LNumber (JS.numberOfZ 1))) st
  | Divide =>
      match args with
      | [] => Throw TypeError st
      | x :: rest => Return (fold_left (numeric JS.div) rest x) st
      end
  | Equal => Return (LBoolean (strictEquals a b)) st
  | Less => Return (LBoolean (bool_decide (lessThan a b = Some true))) st
  | Greater => Return (LBoolean (bool_decide (lessThan b a = Some true))) st
  | LessEqual => Return (LBoolean (bool_decide (lessThan b a = Some false))) st
  | GreaterEqual => Return (LBoolean (bool_decide (lessThan a b = Some false))) st
  | MakeList => newArray args st
  | Cons =>
      newArray (a :: match b with LArray _ items => items | _ => [b] end) st
  | Car =>
      match a with
      | LArray _ items => Return (item items 0) st
      | LString (String c _) => Return (LString (String c EmptyString)) st
      | LString EmptyString | LNumber _ | LBoolean _ => Return LUndefined st
      | LNull | LUndefined => Throw TypeError st
      end
  | Cdr =>
      match a with
      | LArray _ items => newArray (drop 1 items) st
      | LString s => Return (LString (JS.substringFrom 1 s)) st
      | _ => Throw TypeError st
      end
  | Length =>
      match a with
      | LArray _ items => Return (LNumber (JS.numberOfZ (Z.of_nat (length items)))) st
      | _ => Return (LNumber (JS.numberOfZ 0)) st
      end
  | Append =>
      match appendAll [] args with
      | Some items => newArray items st
      | None => Throw TypeError st
      end
  | Atom => Return (LBoolean (negb (isArray a))) st
  | IsNull =>
      Return (LBoolean (strictEquals a LNull
                        || match a with LArray _ [] => true | _ => false end)) st
  | Numberp => Return (LBoolean match a with LNumber _ => true | _ => false end) st
  | Symbolp => Return (LBoolean match a with LString _ => true | _ => false end) st
  | And => Return (LBoolean (forallb lispTrue args)) st
  | Or => Return (LBoolean (existsb lispTrue args)) st
  | Not => Return (LBoolean (negb (truthy a))) st
  | Print =>
      Return LNull
        (withOutput st (output st ++ [JS.join " " (List.map stringify args)]))
  end.

(** ** Evaluator *)

Section Evaluation.

(** [this.evaluateExpression], as the code below calls it. *)
Variable evaluateExpression :
  LispValue -> nat -> SimpleLisp -> outcome SimpleLisp LispValue.

(** [exprs.map(arg => this.evaluateExpression(arg, env))]. *)
Fixpoint evaluateEach (exprs : list LispValue) (env : nat) (st : SimpleLisp)
  : outcome SimpleLisp (list LispValue) :=
  match exprs with
  | [] => Return [] st
  | expr :: rest =>
      bind (evaluateExpression expr env st) (fun v st1 =>
      bind (evaluateEach rest env st1) (fun vs st2 =>
      Return (v :: vs) st2))
  end.

(** [for (const form of forms) result = this.evaluateExpression(form, env)],
    [result] being the value before the loop. *)
Fixpoint evaluateSequence (forms : list LispValue) (env : nat)
    (result : LispValue) (st : SimpleLisp) : outcome SimpleLisp LispValue :=
  match forms with
  | [] => Return result st
  | form :: rest =>
      bind (evaluateExpression form env st) (fun v st1 =>
      evaluateSequence rest env v st1)
  end.

(** [params.forEach((param, i) => { localEnv[param] = args[i]; })] from
    index [i] on. *)
Fixpoint bindParameters (params : list LispValue) (i : nat)
    (args : list LispValue) (localEnv : LispEnvironment)
  : option LispEnvironment :=
  match params with
  | [] => Some localEnv
  | param :: rest =>
      match setProperty localEnv (toText param) (Data (item args i)) with
      | Some localEnv' => bindParameters rest (S i) args localEnv'
      | None => None
      end
  end.

(** [fn(...args)]. The closure of [defun] copies the environment object it
    holds, as that object is when the call is made, into a new object
    [localEnv], binds the parameters there and evaluates the body in it. *)
Definition callFunction (fn : LispFunction) (args : list LispValue)
    (st : SimpleLisp) : outcome SimpleLisp LispValue :=
  match fn with
  | Builtin p => applyPrimitive p args st
  | ObjectConstructor => NotModelled
  | Closure params body env =>
      match heap st !! env with
      | None => NotModelled
      | Some captured =>
          let localEnv := length (heap st) in
          match params with
          | LArray _ names =>
              match bindParameters names 0 args captured with
              | Some bound =>
                  evaluateSequence body localEnv LNull
                    (withHeap st (heap st ++ [bound]))
              | None => NotModelled
              end
          | _ =>
              (* [params.forEach] on something that is not an array *)
              Throw TypeError (withHeap st (heap st ++ [captured]))
          end
      end
  end.

(** The body of [evaluateExpression]. *)
Definition evaluateExpressionBody (expr : LispValue) (env : nat)
    (st : SimpleLisp) : outcome SimpleLisp LispValue :=
  match expr with
  | LNumber _ => Return expr st
  | LNull | LBoolean _ => Return expr st
  | LString name =>
      match heap st !! env with
      | None => NotModelled
      | Some e =>
          match getProperty e name with
          | None => NotModelled
          | Some (Data LUndefined) =>
              Throw (Error ("Undefined symbol: " +:+ name)) st
          | Some (Callable _) =>
              Throw (Error ("Cannot use function " +:+ name +:+
                            " as value (missing parentheses?)")) st
          | Some (Data value) => Return value st
          end
      end
  | LArray _ [] => Return LNull st
  | LArray _ ((first :: _) as items) =>
      if strictEquals first (LString "quote") then Return (item items 1) st
      else if strictEquals first (LString "if") then
        bind (evaluateExpression (item items 1) env st)
          (fun condition st1 =>
             if truthy condition
             then evaluateExpression (item items 2) env st1
             else evaluateExpression (item items 3) env st1)
      else if strictEquals first (LString "defun") then
        let name := item items 1 in
        let params := item items 2 in
        let body := drop 3 items in
        match heap st !! env with
        | None => NotModelled
        | Some e =>
            match setProperty e (toText name)
                    (Callable (Closure params body env)) with
            | Some e' => Return name (withHeap st (<[env := e']> (heap st)))
            | None => NotModelled
            end
        end
      else
        let resolved : outcome SimpleLisp LispEnvValue :=
          match first with
          | LString name =>
              match heap st !! env with
              | None => NotModelled
              | Some e =>
                  match getProperty e name with
                  | Some fn => Return fn st
                  | None => NotModelled
                  end
              end
          | _ =>
              bind (evaluateExpression first env st)
                (fun v st1 => Return (Data v) st1)
          end in
        bind resolved (fun fn st1 =>
          match fn with
          | Data _ =>
              Throw (Error ("Not a function: " +:+ stringify first)) st1
          | Callable f =>
              bind (evaluateEach (drop 1 items) env st1)
                (fun args st2 => callFunction f args st2)
          end)
  | LUndefined => Throw (Error ("Cannot evaluate: " +:+ stringify expr)) st
  end.

End Evaluation.

(** [evaluateExpression(expr, env)], the depth of its recursion bounded by
    [fuel]. The host bounds it as well, by the size of its call stack; that
    bound is not modelled. *)
Fixpoint evaluateExpression (fuel : nat) (expr : LispValue) (env : nat)
    (st : SimpleLisp) : outcome SimpleLisp LispValue :=
  match fuel with
  | O => OutOfFuel
  | S fuel' => evaluateExpressionBody (evaluateExpression fuel') expr env st
  end.

(** ** Top level *)

Definition newline : string := String (ascii_of_nat 10) EmptyString.

(** [evaluate(code)]: the pair of [result] and [output]. [fuel] bounds the
    depth of evaluation. *)
Definition evaluate (fuel : nat) (code : string) (st : SimpleLisp)
  : outcome SimpleLisp (string * string) :=
  let st0 := withOutput st [] in
  match parse code (nextArray st0) with
  | Return expressions next =>
      let st1 := {| heap := heap st0; output := output st0; nextArray := next |} in
      bind (evaluateSequence (evaluateExpression fuel) expressions globalEnv LNull st1)
        (fun lastResult st2 =>
           let result := stringify lastResult in
           let out :=
             if 0 <? length (output st2)
             then JS.join newline (output st2) +:+ newline +:+ result
             else result in
           Return (result, out) st2)
  | Throw e next =>
      Throw e {| heap := heap st0; output := output st0; nextArray := next |}
  | NotModelled => NotModelled
  | OutOfFuel => OutOfFuel
  end.

(** ** The error kinds of the specification *)

(** The class has no error types of its own: it throws [Error] objects that
    differ by their message. The specification names the kinds below;
    [errorKind] gives the kind a thrown error falls under by its message. No
    message of the class stands for [DanglingQuote], and a [TypeError] of
    the host is none of the kinds. *)
Inductive ErrorKind : Type :=
  | UnmatchedParenthesis
  | UnexpectedParenthesis
  | DanglingQuote
  | UnboundSymbol
  | CallableUsedAsValue
  | NotAFunction
  | Uninterpretable.

Definition errorKind (e : exn) : option ErrorKind :=
  match e with
  | TypeError => None
  | Error message =>
      if String.eqb message "Unmatched opening parenthesis" then Some UnmatchedParenthesis
      else if String.eqb message "Unexpected closing parenthesis" then Some UnexpectedParenthesis
      else if JS.startsWith "Undefined symbol: " message then Some UnboundSymbol
      else if JS.startsWith "Cannot use function " message then Some CallableUsedAsValue
      else if JS.startsWith "Not a function: " message then Some NotAFunction
      else if JS.startsWith "Cannot evaluate: " message then Some Uninterpretable
      else None
  end.

(** ** Notions the claims are stated with *)

(** Structural equality of values, as the specification words it: equal
    numbers, equal symbols, equal booleans, both nil, or lists of pairwise
    structurally equal elements. *)
Fixpoint structurallyEqual (a b : LispValue) {struct a} : bool :=
  match a, b with
  | LNumber x, LNumber y => JS.numberEquals x y
  | LString x, LString y => String.eqb x y
  | LBoolean x, LBoolean y => Bool.eqb x y
  | LNull, LNull => true
  | LUndefined, LUndefined => true
  | LArray _ xs, LArray _ ys =>
      (fix pairwise (xs ys : list LispValue) {struct xs} : bool :=
         match xs, ys with
         | [], [] => true
         | x :: xs', y :: ys' => structurallyEqual x y && pairwise xs' ys'
         | _, _ => false
         end) xs ys
  | _, _ => false
  end.

(** A decimal numeric literal, as the specification words the tokens that
    are numbers: an optional sign, decimal digits with an optional fraction
    and an optional exponent. *)
Definition decimalNumericLiteral (token : string) : bool :=
  match JS.readDecimal token with
  | Some (JS.DecimalLiteral _ _ _) => true
  | _ => false
  end.

(** The texts [Number] reads as a number: the empty text once trimmed, or a
    text of the grammar [StringNumericLiteral] (decimal, [Infinity], or a
    [0x], [0o], [0b] literal). *)
Definition numericText (token : string) : bool :=
  match JS.trim token with
  | EmptyString => true
  | t => bool_decide (is_Some (JS.readLiteral t))
  end.

(** A delimiter token of the parser. *)
Definition isDelimiter (token : string) : bool :=
  String.eqb token "(" || String.eqb token ")" || String.eqb token "'".

(** A text made of whitespace only (the empty text included). *)
Fixpoint allWhitespace (s : string) : bool :=
  match s with
  | EmptyString => true
  | String c rest => JS.isWhitespace c && allWhitespace rest
  end.

(** What a computation returned, the state left aside. *)
Definition answer {S A : Type} (r : outcome S A) : option A :=
  match r with
  | Return a _ => Some a
  | _ => None
  end.


(** The error a computation threw. *)
Definition thrown {S A : Type} (r : outcome S A) : option exn :=
  match r with
  | Throw e _ => Some e
  | _ => None
  end.

(** When [a === b] holds, said without [===]: the same number (no [NaN] is
    the same as anything, and the two zeros are the same), the same text,
    the same boolean, both [null], both [undefined], or one and the same
    array object. *)
Definition identical (a b : LispValue) : Prop :=
  match a, b with
  | LNumber x, LNumber y => SFcompare x y = Some Eq
  | LString x, LString y => x = y
  | LBoolean x, LBoolean y => x = y
  | LNull, LNull => True
  | LUndefined, LUndefined => True
  | LArray i _, LArray j _ => i = j
  | _, _ => False
  end.

(** The names [quote], [if] and [defun], which the evaluator takes for
    special forms when they head a list. *)
Definition isSpecialForm (name : string) : bool :=
  String.eqb name "quote" || String.eqb name "if" || String.eqb name "defun".

(** The number of lists left open after the tokens [ts], [d] being open
    before them; [None] when a [)] comes while no list is open. *)
Fixpoint depthAfter (ts : list string) (d : nat) : option nat :=
  match ts with
  | [] => Some d
  | t :: rest =>
      if String.eqb t "(" then depthAfter rest (S d)
      else if String.eqb t ")" then
        match d with
        | O => None
        | S d' => depthAfter rest d'
        end
      else depthAfter rest d
  end.

(** Every quote marker is followed by a token, and not by [)]. *)
Fixpoint quotesFollowed (ts : list string) : bool :=
  match ts with
  | [] => true
  | t :: rest =>
      (if String.eqb t "'" then
         match rest with
         | [] => false
         | u :: _ => negb (String.eqb u ")")
         end
       else true) && quotesFollowed rest
  end.

(** The text of an atom token: not empty, and free of whitespace and of the
    three delimiter characters. *)
Definition isDelimiterChar (c : ascii) : bool :=
  Ascii.eqb c "(" || Ascii.eqb c ")" || Ascii.eqb c "'".

Fixpoint plainText (s : string) : bool :=
  match s with
  | EmptyString => true
  | String c rest =>
      negb (JS.isWhitespace c) && negb (isDelimiterChar c) && plainText rest
  end.

Definition atomText (s : string) : bool :=
  negb (String.eqb s EmptyString) && plainText s.

(** The symbols the parser makes: an atom text that [Number] does not read
    and that is in lower case. *)
Definition symbolText (s : string) : bool :=
  atomText s && JS.isNaN (JS.stringToNumber s) && String.eqb (JS.toLowerCase s) s.

(** The numbers whose printed text the host reads back as the same number:
    [Number(n.toString()) === n]. *)
Definition readsBack (n : JS.number) : bool :=
  JS.numberEquals (JS.stringToNumber (JS.toString n)) n.

(** The values of the round trip: numbers that read back, symbols of the
    parser, and lists of such values, nested at will. *)
Fixpoint roundTrips (v : LispValue) : bool :=
  match v with
  | LNumber n => readsBack n
  | LString s => symbolText s
  | LArray _ items => forallb roundTrips items
  | _ => false
  end.


(** The maximal runs without whitespace in [s], [piece] being the run read
    so far. *)
Fixpoint wordsFrom (piece : string) (s : string) : list string :=
  match s with
  | EmptyString =>
      match piece with EmptyString => [] | _ => [piece] end
  | String c rest =>
      if JS.isWhitespace c then
        match piece with EmptyString => [] | _ => [piece] end
        ++ wordsFrom EmptyString rest
      else wordsFrom (piece +:+ String c EmptyString) rest
  end.

(** The three replacements of [tokenize]. *)
Definition pad (s : string) : string :=
  JS.replaceAll "'" " ' " (JS.replaceAll ")" " ) " (JS.replaceAll "(" " ( " s)).

(** ** Notions the proofs are stated with *)

(** What a parsing step may do from index [i]: fail with an error, or return
    an index further on and within the tokens. *)
Definition advances {A : Type} (tokens : list string) (i : nat)
    (r : outcome nat (A * nat)) : Prop :=
  match r with
  | Return (_, j) _ => i < j <= length tokens
  | Throw _ _ => True
  | NotModelled | OutOfFuel => False
  end.

Definition unmatched : exn := Error "Unmatched opening parenthesis".

(** What parsing one expression from index [i] does to the depth: it returns
    at an index where the depth is what it was, or it throws [unmatched]
    and the tokens from [i] on leave at least one list open. *)
Definition expressionScan (tokens : list string) (i : nat)
    (r : outcome nat (LispValue * nat)) : Prop :=
  match r with
  | Return (_, j) _ =>
      i < j <= length tokens /\
      forall d, depthAfter (drop i tokens) d = depthAfter (drop j tokens) d
  | Throw e _ =>
      e = unmatched /\
      forall d, exists k, depthAfter (drop i tokens) d = Some (d + S k)
  | NotModelled | OutOfFuel => False
  end.

(** The same for the items of a list, up to and with its closing [)]. *)
Definition itemsScan (tokens : list string) (i : nat)
    (r : outcome nat (list LispValue * nat)) : Prop :=
  match r with
  | Return (_, j) _ =>
      i < j <= length tokens /\
      forall d, depthAfter (drop i tokens) (S d) = depthAfter (drop j tokens) d
  | Throw e _ =>
      e = unmatched /\
      forall d, exists k, depthAfter (drop i tokens) d = Some (d + k)
  | NotModelled | OutOfFuel => False
  end.

(** The one run [piece], when it is not empty. *)
Definition single (piece : string) : list string :=
  match piece with EmptyString => [] | _ => [piece] end.


(** [r'] is [r], unless [r] was cut short for lack of fuel. *)
Definition completes {S A : Type} (r r' : outcome S A) : Prop :=
  r = OutOfFuel \/ r' = r.

(** The value of the decimal digits [d] read after the value [acc]. *)
Fixpoint uintValue (d : Decimal.uint) (acc : Z) : Z :=
  (match d with
  | Decimal.Nil => acc
  | Decimal.D0 l => uintValue l (acc * 10)
  | Decimal.D1 l => uintValue l (acc * 10 + 1)
  | Decimal.D2 l => uintValue l (acc * 10 + 2)
  | Decimal.D3 l => uintValue l (acc * 10 + 3)
  | Decimal.D4 l => uintValue l (acc * 10 + 4)
  | Decimal.D5 l => uintValue l (acc * 10 + 5)
  | Decimal.D6 l => uintValue l (acc * 10 + 6)
  | Decimal.D7 l => uintValue l (acc * 10 + 7)
  | Decimal.D8 l => uintValue l (acc * 10 + 8)
  | Decimal.D9 l => uintValue l (acc * 10 + 9)
  end)%Z.

(** ** Notions of the further properties *)


(** The tokens of [s] read in one pass from left to right, [piece] being the
    atom read so far: whitespace ends an atom, a delimiter character ends an
    atom and is a token. *)
Fixpoint scanTokens (piece : string) (s : string) : list string :=
  match s with
  | EmptyString => single piece
  | String c rest =>
      if JS.isWhitespace c then single piece ++ scanTokens EmptyString rest
      else if isDelimiterChar c then
        single piece ++ String c EmptyString :: scanTokens EmptyString rest
      else scanTokens (piece +:+ String c EmptyString) rest
  end.

(** What one pass over the tokens from left to right meets first: a [)]
    where no list is open or right after a quote marker ([StrayClose]); else
    a quote marker as the last token ([QuoteAtEnd]); else, at the end, a list
    still open ([OpenList]); else nothing ([WellFormed]). [d] is the number
    of lists open before the tokens [ts]. *)
Inductive Syntax : Type := WellFormed | OpenList | StrayClose | QuoteAtEnd.

Fixpoint syntaxAfter (ts : list string) (d : nat) : Syntax :=
  match ts with
  | [] => match d with O => WellFormed | S _ => OpenList end
  | t :: rest =>
      if String.eqb t "(" then syntaxAfter rest (S d)
      else if String.eqb t ")" then
        match d with
        | O => StrayClose
        | S d' => syntaxAfter rest d'
        end
      else if String.eqb t "'" then
        match rest with
        | [] => QuoteAtEnd
        | u :: _ => if String.eqb u ")" then StrayClose else syntaxAfter rest d
        end
      else syntaxAfter rest d
  end.

(** The error the parser throws for it. *)
Definition syntaxError (v : Syntax) : option exn :=
  match v with
  | WellFormed => None
  | OpenList => Some (Error "Unmatched opening parenthesis")
  | StrayClose => Some (Error "Unexpected closing parenthesis")
  | QuoteAtEnd => Some TypeError
  end.

(** What parsing one expression from index [i] does: it returns at an index
    from which the pass goes on as from [i], or it throws the error of what
    the pass meets from [i] on. *)
Definition expressionSyntax (tokens : list string) (i : nat)
    (r : outcome nat (LispValue * nat)) : Prop :=
  match r with
  | Return (_, j) _ =>
      i < j <= length tokens /\
      forall d, syntaxAfter (drop i tokens) d = syntaxAfter (drop j tokens) d
  | Throw e _ =>
      exists v, syntaxError v = Some e /\
                forall d, syntaxAfter (drop i tokens) d = v
  | NotModelled | OutOfFuel => False
  end.

(** The same for the items of a list, up to and with its closing [)]. *)
Definition itemsSyntax (tokens : list string) (i : nat)
    (r : outcome nat (list LispValue * nat)) : Prop :=
  match r with
  | Return (_, j) _ =>
      i < j <= length tokens /\
      forall d, syntaxAfter (drop i tokens) (S d) = syntaxAfter (drop j tokens) d
  | Throw e _ =>
      exists v, syntaxError v = Some e /\
                forall d, syntaxAfter (drop i tokens) (S d) = v
  | NotModelled | OutOfFuel => False
  end.

(** A parsing result with its index moved [k] tokens on. *)
Definition shiftIndex {A : Type} (k : nat) (r : outcome nat (A * nat))
  : outcome nat (A * nat) :=
  match r with
  | Return (a, j) n => Return (a, k + j) n
  | Throw e n => Throw e n
  | NotModelled => NotModelled
  | OutOfFuel => OutOfFuel
  end.

(** The values the parser makes: numbers other than [NaN], symbols in lower
    case that [Number] does not read, and lists of such values. *)
Fixpoint parserValue (v : LispValue) : bool :=
  match v with
  | LNumber n => negb (JS.isNaN n)
  | LString s => symbolText s
  | LArray _ items => forallb parserValue items
  | _ => false
  end.

(** What a computation run in the environment at address [env] may do to
    the interpreter ([env] is [None] for a computation that runs in no
    environment that exists yet): it leaves every other environment object
    that exists as it is, creates environment objects after them, and adds
    lines at the end of the output buffer. *)
Definition extends (env : option nat) (st st' : SimpleLisp) : Prop :=
  length (heap st) <= length (heap st') /\
  (forall a, a < length (heap st) -> env <> Some a ->
             heap st' !! a = heap st !! a) /\
  (exists lines, output st' = output st ++ lines).

Definition keeps {A : Type} (env : option nat) (st : SimpleLisp)
    (r : outcome SimpleLisp A) : Prop :=
  match r with
  | Return _ st' | Throw _ st' => extends env st st'
  | NotModelled | OutOfFuel => True
  end.

(** The values that the host takes for false and that are neither [false]
    nor [null]: zero, [NaN], the empty text and [undefined]. *)
Definition zeroLike (v : LispValue) : bool :=
  match v with
  | LNumber (S754_zero _) | LNumber S754_nan => true
  | LString EmptyString => true
  | LUndefined => true
  | _ => false
  end.

(** The primitives that answer by true or false. *)
Definition isPredicate (p : Primitive) : bool :=
  match p with
  | Equal | Less | Greater | LessEqual | GreaterEqual
  | Atom | IsNull | Numberp | Symbolp | And | Or | Not => true
  | _ => false
  end.

(** The decimal text of an integer: its digits, after a minus sign when it
    is negative. *)
Definition integerText (z : Z) : string :=
  (if (z <? 0)%Z then "-" else "") +:+ JS.decimalString (Z.abs z).

(** The numbers of a list of integers. *)
Definition integers (zs : list Z) : list LispValue :=
  List.map (fun z => LNumber (JS.numberOfZ z)) zs.

Definition sumOf (zs : list Z) : Z := fold_right Z.add 0%Z zs.

Definition productOf (zs : list Z) : Z := fold_right Z.mul 1%Z zs.

(** The sum of the absolute values: a bound of every partial sum and
    difference. *)
Definition totalSize (zs : list Z) : Z :=
  fold_right (fun z s => (Z.abs z + s)%Z) 0%Z zs.

(** The text of a call of [name] with integer arguments, as in
    [(+ 1 -2 3)]. *)
Definition callText (name : string) (zs : list Z) : string :=
  "(" +:+ JS.join " " (name :: List.map integerText zs) +:+ ")".

(** The order of the integers that a comparison primitive stands for. *)
Definition comparison (p : Primitive) (a b : Z) : bool :=
  match p with
  | Equal => (a =? b)%Z
  | Less => (a <? b)%Z
  | Greater => (b <? a)%Z
  | LessEqual => (a <=? b)%Z
  | GreaterEqual => (b <=? a)%Z
  | _ => false
  end.

(** The names of the comparison primitives in the table of the global
    environment. *)
Definition comparisons : list (string * Primitive) :=
  [("=", Equal); ("<", Less); (">", Greater); ("<=", LessEqual);
   (">=", GreaterEqual)].

(** What the parser makes of an atom token. *)
Definition atomValue (token : string) : LispValue :=
  if numericText token then LNumber (JS.stringToNumber token)
  else LString (JS.toLowerCase token).

(** The text of the quotient of an integer by zero. *)
Definition overZeroText (a : Z) : string :=
  if (a =? 0)%Z then "NaN" else if (a <? 0)%Z then "-Infinity" else "Infinity".

(** * Properties *)

(** ** Host numbers: reading never gives [NaN] on a numeric text *)

Module JSFacts.
Import JS.

Lemma shr_1_nonneg mrs : (0 <= shr_m mrs)%Z -> (0 <= shr_m (shr_1 mrs))%Z.
Proof.
  destruct mrs as [m r s]; simpl.
  destruct m as [|p|p]; simpl; try lia.
  destruct p; simpl; lia.
Qed.

Lemma iter_shr_1_nonneg p mrs :
  (0 <= shr_m mrs)%Z -> (0 <= shr_m (SpecFloat.iter_pos shr_1 p mrs))%Z.
Proof.
  revert mrs; induction p as [p IH|p IH|]; intros mrs H; simpl.
  - apply IH, IH, shr_1_nonneg, H.
  - apply IH, IH, H.
  - apply shr_1_nonneg, H.
Qed.

Lemma shr_fexp_nonneg m e l :
  (0 <= m)%Z -> (0 <= shr_m (fst (shr_fexp prec emax m e l)))%Z.
Proof.
  intros H. unfold shr_fexp, shr.
  assert (H0 : (0 <= shr_m (shr_record_of_loc m l))%Z).
  { destruct l as [|[]]; simpl; exact H. }
  destruct (_ - e)%Z; simpl; auto using iter_shr_1_nonneg.
Qed.

Lemma round_nearest_even_nonneg m l :
  (0 <= m)%Z -> (0 <= round_nearest_even m l)%Z.
Proof.
  intros H. destruct l as [|[]]; simpl; try lia.
  destruct (Z.even m); lia.
Qed.

Lemma binary_round_aux_not_nan s m e l :
  (0 <= m)%Z -> isNaN (binary_round_aux prec emax s m e l) = false.
Proof.
  intros H. unfold binary_round_aux.
  pose proof (shr_fexp_nonneg m e l H) as H1.
  destruct (shr_fexp prec emax m e l) as [mrs1 e1]; simpl in H1.
  pose proof (shr_fexp_nonneg _ e1 loc_Exact
                (round_nearest_even_nonneg _ (loc_of_shr_record mrs1) H1)) as H2.
  destruct (shr_fexp prec emax _ e1 loc_Exact) as [mrs2 e2]; simpl in H2.
  destruct (shr_m mrs2) as [|p|p]; [reflexivity| |lia].
  destruct (e2 <=? emax - prec)%Z; reflexivity.
Qed.

Lemma binary_round_not_nan s m e :
  isNaN (binary_round prec emax s m e) = false.
Proof.
  unfold binary_round.
  destruct (shl_align _ _ _) as [mz ez].
  apply binary_round_aux_not_nan; lia.
Qed.

Lemma numberOfZ_not_nan z : isNaN (numberOfZ z) = false.
Proof.
  unfold numberOfZ, binary_normalize.
  destruct z; [reflexivity | apply binary_round_not_nan ..].
Qed.

Lemma roundDecimal_not_nan s m e : isNaN (roundDecimal s m e) = false.
Proof.
  unfold roundDecimal. destruct m as [|p|p]; try reflexivity.
  destruct (400 <? e)%Z; [reflexivity|].
  destruct (_ <? -400)%Z; [reflexivity|].
  destruct (0 <=? e)%Z eqn:He; [apply binary_round_not_nan|].
  apply Z.leb_gt in He.
  unfold SFdiv_core_binary.
  set (m' := match _ with Z0 => Z.pos p | Zpos _ => _ | Zneg _ => 0%Z end).
  assert (Hm : (0 <= m')%Z).
  { subst m'. destruct (_ - _)%Z; try lia. apply Z.shiftl_nonneg. lia. }
  assert (Hd : (0 < 10 ^ (- e))%Z) by (apply Z.pow_pos_nonneg; lia).
  pose proof (Z.div_pos m' _ Hm Hd) as Hq.
  unfold Z.div in Hq.
  destruct (Z.div_eucl m' (10 ^ (- e))) as [q r]; simpl in Hq.
  apply binary_round_aux_not_nan, Hq.
Qed.

Lemma literalValue_not_nan l : isNaN (literalValue l) = false.
Proof.
  destruct l; simpl;
    [reflexivity | apply roundDecimal_not_nan | apply numberOfZ_not_nan].
Qed.

End JSFacts.

(** [Number(token)] is [NaN] exactly on the texts outside the grammar. *)
Lemma isNaN_stringToNumber token :
  JS.isNaN (JS.stringToNumber token) = negb (numericText token).
Proof.
  unfold JS.stringToNumber, numericText.
  destruct (JS.trim token) as [|c t]; [reflexivity|].
  destruct (JS.readLiteral (String c t)) as [l|].
  - rewrite JSFacts.literalValue_not_nan.
    symmetry. apply negb_false_iff, bool_decide_eq_true. eauto.
  - symmetry. apply negb_true_iff, bool_decide_eq_false.
    intros [x Hx]; discriminate.
Qed.

(** ** Parser: the fuel is enough, and the index moves forward *)


(** The equations of the three parsing functions. *)
Lemma parseItems_eq parseOne fuel tokens items i next :
  parseItems parseOne (S fuel) tokens items i next
  = if (i <? length tokens) && negb (tokenIs tokens i ")") then
      match parseOne i next with
      | Return (expr, nextIndex) next' =>
          parseItems parseOne fuel tokens (items ++ [expr]) nextIndex next'
      | Throw e s => Throw e s
      | NotModelled => NotModelled
      | OutOfFuel => OutOfFuel
      end
    else if length tokens <=? i then
      Throw (Error "Unmatched opening parenthesis") next
    else Return (items, i + 1) next.
Proof. reflexivity. Qed.

Lemma parseExpression_eq fuel tokens index next :
  parseExpression (S fuel) tokens index next
  = if tokenIs tokens index "(" then
      match parseItems (parseExpression fuel tokens) fuel tokens []
              (index + 1) (S next) with
      | Return (items, i) next' => Return (LArray next items, i) next'
      | Throw e s => Throw e s
      | NotModelled => NotModelled
      | OutOfFuel => OutOfFuel
      end
    else if tokenIs tokens index ")" then
      Throw (Error "Unexpected closing parenthesis") next
    else if tokenIs tokens index "'" then
      match parseExpression fuel tokens (index + 1) next with
      | Return (expr, nextIndex) next' =>
          Return (LArray next' [LString "quote"; expr], nextIndex) (S next')
      | other => other
      end
    else
      match tokens !! index with
      | Some token =>
          if negb (JS.isNaN (JS.stringToNumber token)) then
            Return (LNumber (JS.stringToNumber token), index + 1) next
          else Return (LString (JS.toLowerCase token), index + 1) next
      | None => Throw TypeError next
      end.
Proof. reflexivity. Qed.

Lemma parseAll_eq fuel tokens result i next :
  parseAll (S fuel) tokens result i next
  = if i <? length tokens then
      match parseExpression (S (length tokens)) tokens i next with
      | Return (expr, nextIndex) next' =>
          parseAll fuel tokens (result ++ [expr]) nextIndex next'
      | Throw e s => Throw e s
      | NotModelled => NotModelled
      | OutOfFuel => OutOfFuel
      end
    else Return result next.
Proof. reflexivity. Qed.

Lemma tokenIs_Some tokens i text :
  tokenIs tokens i text = true -> tokens !! i = Some text.
Proof.
  unfold tokenIs. destruct (tokens !! i) as [t|]; [|discriminate].
  intros H. apply String.eqb_eq in H. by subst.
Qed.

Lemma tokenIs_lt tokens i text :
  tokenIs tokens i text = true -> i < length tokens.
Proof.
  intros H. apply tokenIs_Some in H. by apply lookup_lt_Some in H.
Qed.

Lemma parseItems_advances parseOne fuel tokens items i next :
  (forall j n, i <= j -> advances tokens j (parseOne j n)) ->
  length tokens - i < fuel ->
  advances tokens i (parseItems parseOne fuel tokens items i next).
Proof.
  revert items i next.
  induction fuel as [|fuel IH]; intros items i next Hone Hfuel; [lia|].
  rewrite parseItems_eq.
  destruct (i <? length tokens) eqn:Hlt; simpl.
  - apply Nat.ltb_lt in Hlt.
    destruct (tokenIs tokens i ")") eqn:Hclose; simpl.
    + replace (length tokens <=? i) with false
        by (symmetry; apply Nat.leb_gt; lia).
      simpl. lia.
    + pose proof (Hone i next (Nat.le_refl i)) as Hstep.
      destruct (parseOne i next) as [[expr k] n'| | |]; simpl in Hstep; try done.
      assert (Hrec : advances tokens k
                (parseItems parseOne fuel tokens (items ++ [expr]) k n')).
      { apply IH; [|lia]. intros j n Hj. apply Hone. lia. }
      destruct (parseItems parseOne fuel tokens (items ++ [expr]) k n')
        as [[its j] n''| | |]; simpl in *; try done. lia.
  - apply Nat.ltb_ge in Hlt.
    replace (length tokens <=? i) with true
      by (symmetry; apply Nat.leb_le; lia).
    done.
Qed.

Lemma parseExpression_advances fuel tokens index next :
  length tokens - index < fuel ->
  advances tokens index (parseExpression fuel tokens index next).
Proof.
  revert index next.
  induction fuel as [|fuel IH]; intros index next Hfuel; [lia|].
  rewrite parseExpression_eq.
  destruct (tokenIs tokens index "(") eqn:Hopen.
  - pose proof (tokenIs_lt _ _ _ Hopen) as Hlt.
    assert (Hitems : advances tokens (index + 1)
              (parseItems (parseExpression fuel tokens) fuel tokens []
                 (index + 1) (S next))).
    { apply parseItems_advances; [|lia]. intros j n Hj. apply IH. lia. }
    destruct (parseItems _ fuel tokens [] (index + 1) (S next))
      as [[its j] n'| | |]; simpl in *; try done. lia.
  - destruct (tokenIs tokens index ")"); [done|].
    destruct (tokenIs tokens index "'") eqn:Hquote.
    + pose proof (tokenIs_lt _ _ _ Hquote) as Hlt.
      pose proof (IH (index + 1) next ltac:(lia)) as Hrec.
      destruct (parseExpression fuel tokens (index + 1) next)
        as [[expr j] n'| | |]; simpl in *; try done. lia.
    + destruct (tokens !! index) as [token|] eqn:Htok; [|done].
      apply lookup_lt_Some in Htok.
      destruct (negb _); simpl; lia.
Qed.

Lemma parseAll_total fuel tokens result i next :
  length tokens - i < fuel ->
  match parseAll fuel tokens result i next with
  | Return _ _ | Throw _ _ => True
  | NotModelled | OutOfFuel => False
  end.
Proof.
  revert result i next.
  induction fuel as [|fuel IH]; intros result i next Hfuel; [lia|].
  rewrite parseAll_eq. destruct (i <? length tokens) eqn:Hlt; [|done].
  apply Nat.ltb_lt in Hlt.
  pose proof (parseExpression_advances (S (length tokens)) tokens i next
                ltac:(lia)) as Hstep.
  destruct (parseExpression (S (length tokens)) tokens i next)
    as [[expr j] n'| | |]; simpl in Hstep; try done.
  apply IH. lia.
Qed.

(** [parse] always comes back: with a list of expressions or with an error. *)
Lemma parse_never_out_of_fuel input next :
  (exists expressions next', parse input next = Return expressions next') \/
  (exists e next', parse input next = Throw e next').
Proof.
  unfold parse.
  pose proof (parseAll_total (S (length (tokenize input))) (tokenize input)
                [] 0 next ltac:(lia)) as H.
  destruct (parseAll _ _ _ _ _) as [r n| e n | |]; try done; eauto.
Qed.

(** ** Atoms (claim C6) *)

(** An atom token is read by [Number]; what [Number] does not read is a
    symbol. *)
Lemma parseExpression_atom fuel tokens index next token :
  tokens !! index = Some token ->
  isDelimiter token = false ->
  parseExpression (S fuel) tokens index next
  = Return (if numericText token
            then LNumber (JS.stringToNumber token)
            else LString (JS.toLowerCase token), index + 1) next.
Proof.
  intros Htok Hdelim. unfold isDelimiter in Hdelim.
  apply orb_false_iff in Hdelim as [Hdelim Hq].
  apply orb_false_iff in Hdelim as [Ho Hc].
  rewrite parseExpression_eq. unfold tokenIs. rewrite Htok, Ho, Hc, Hq.
  rewrite isNaN_stringToNumber, negb_involutive.
  by destruct (numericText token).
Qed.

(** C6, as amended. For every token that is not [(], [)] or ['], the parser
    returns a Number exactly when [Number(token)] is not [NaN], that is when
    the whole token is a numeric text of the host: a decimal literal (with
    optional sign, fraction and exponent), [Infinity] with an optional sign,
    or a literal in base 16, 8 or 2 ([0x..], [0o..], [0b..]); otherwise it
    returns the Symbol that is the token in lower case. In both cases it goes
    on at the next token. *)
Theorem C6_atom_classification fuel tokens index next token :
  tokens !! index = Some token ->
  isDelimiter token = false ->
  parseExpression (S fuel) tokens index next
  = Return (if numericText token
            then LNumber (JS.stringToNumber token)
            else LString (JS.toLowerCase token), index + 1) next.
Proof.
  intros Htok Hdelim. unfold isDelimiter in Hdelim.
  apply orb_false_iff in Hdelim as [Hdelim Hq].
  apply orb_false_iff in Hdelim as [Ho Hc].
  rewrite parseExpression_eq. unfold tokenIs. rewrite Htok, Ho, Hc, Hq.
  rewrite isNaN_stringToNumber, negb_involutive.
  by destruct (numericText token).
Qed.

Lemma C6_atom_classification_witness :
  parseExpression 1 ["("; "3abc"; "12.5"; ")"] 1 0
  = Return (LString "3abc", 2) 0.
Proof.
  exact (C6_atom_classification 0 ["("; "3abc"; "12.5"; ")"] 1 0 "3abc"
           eq_refl eq_refl).
Defined.

(** C6 fails as stated: the token [0x1F] is no decimal literal, and the
    parser makes the Number 31 of it. *)
Lemma C6_hexadecimal_token_is_number :
  isDelimiter "0x1F" = false /\
  decimalNumericLiteral "0x1F" = false /\
  parseExpression 1 ["0x1F"] 0 0 = Return (LNumber (JS.numberOfZ 31), 1) 0.
Proof. repeat apply conj; vm_compute; reflexivity. Qed.

(** The partial match the claim mentions is indeed a symbol. *)
Example parse_3abc :
  parseExpression 1 ["3abc"] 0 0 = Return (LString "3abc", 1) 0.
Proof. vm_compute; reflexivity. Qed.

(** ** A quote with nothing after it (claim C7) *)

(** The quote branch calls [parseExpression] one past the last token, where
    [tokens[index]] is [undefined]: the host throws its TypeError. *)
Lemma parseExpression_dangling_quote fuel tokens index next :
  tokens !! index = Some "'" ->
  tokens !! (index + 1) = None ->
  parseExpression (S (S fuel)) tokens index next = Throw TypeError next.
Proof.
  intros Hq Hend.
  assert (H1 : tokenIs tokens index "(" = false)
    by (unfold tokenIs; rewrite Hq; reflexivity).
  assert (H2 : tokenIs tokens index ")" = false)
    by (unfold tokenIs; rewrite Hq; reflexivity).
  assert (H3 : tokenIs tokens index "'" = true)
    by (unfold tokenIs; rewrite Hq; reflexivity).
  rewrite parseExpression_eq, H1, H2, H3.
  rewrite parseExpression_eq.
  unfold tokenIs. rewrite Hend. reflexivity.
Qed.

(** C7, at the failing input. On the text ['] the class throws the host's
    TypeError, which is none of the error kinds, and not the kind
    [DanglingQuote] the claim asks for. *)
Theorem C7_dangling_quote_is_type_error fuel st :
  evaluate fuel "'" st = Throw TypeError (withOutput st []) /\
  errorKind TypeError <> Some DanglingQuote.
Proof.
  split; [|discriminate].
  unfold evaluate, parse.
  change (tokenize "'") with ["'"].
  simpl length. rewrite parseAll_eq.
  change (0 <? length ["'"]) with true. cbv iota.
  rewrite (parseExpression_dangling_quote 0 ["'"] 0 _ eq_refl eq_refl).
  reflexivity.
Qed.

(** ** Empty input (claim C10) *)

Lemma replaceAll_whitespace c by_ s :
  JS.isWhitespace c = false -> allWhitespace s = true ->
  JS.replaceAll c by_ s = s.
Proof.
  intros Hc. induction s as [|x s IH]; simpl; [reflexivity|].
  intros [Hx Hs]%andb_true_iff.
  destruct (Ascii.eqb_spec x c) as [->|_]; [congruence|].
  by rewrite IH.
Qed.

Lemma trimStart_whitespace s :
  allWhitespace s = true -> JS.trimStart s = EmptyString.
Proof.
  induction s as [|x s IH]; simpl; [reflexivity|].
  intros [Hx Hs]%andb_true_iff. rewrite Hx. auto.
Qed.

Lemma tokenize_whitespace code :
  allWhitespace code = true -> tokenize code = [].
Proof.
  intros H. unfold tokenize.
  rewrite (replaceAll_whitespace "(") by (reflexivity || assumption).
  rewrite (replaceAll_whitespace ")") by (reflexivity || assumption).
  rewrite (replaceAll_whitespace "'") by (reflexivity || assumption).
  unfold JS.trim. rewrite trimStart_whitespace by assumption.
  reflexivity.
Qed.

(** C10. For every source text that is empty or made of whitespace only,
    [evaluate] returns the result [NIL] and the output [NIL], throws nothing,
    and leaves the interpreter as it was but for the emptied output
    buffer. *)
Theorem C10_empty_input_is_nil fuel code st :
  allWhitespace code = true ->
  evaluate fuel code st = Return ("NIL", "NIL") (withOutput st []).
Proof.
  intros H. unfold evaluate, parse.
  rewrite (tokenize_whitespace code H). reflexivity.
Qed.

Lemma C10_empty_input_is_nil_witness :
  evaluate 0 "   " newSimpleLisp
  = Return ("NIL", "NIL") (withOutput newSimpleLisp []).
Proof.
  exact (C10_empty_input_is_nil 0 "   " newSimpleLisp eq_refl).
Defined.

(** ** The output text (claim C4) *)




(** ** The primitive [=] (claim C3) *)

(** C3 fails as stated: two lists with the same elements, each made by its
    own call of [list], are structurally equal and [=] tells them apart. *)
Lemma C3_equal_lists_are_told_apart :
  answer (evaluate 3 "(= (list 1 2) (list 1 2))" newSimpleLisp)
  = Some ("NIL", "NIL") /\
  structurallyEqual (LArray 0 [LNumber (JS.numberOfZ 1)])
                    (LArray 1 [LNumber (JS.numberOfZ 1)]) = true /\
  answer (applyPrimitive Equal [LArray 0 [LNumber (JS.numberOfZ 1)];
                                LArray 1 [LNumber (JS.numberOfZ 1)]]
            newSimpleLisp)
  = Some (LBoolean false).
Proof. repeat apply conj; vm_compute; reflexivity. Qed.

Lemma strictEquals_identical a b : strictEquals a b = true <-> identical a b.
Proof.
  destruct a, b; simpl; try (split; [discriminate | tauto]); try tauto.
  - unfold JS.numberEquals, SFeqb.
    destruct (SFcompare n n0) as [[]|]; split; congruence.
  - apply String.eqb_eq.
  - destruct b, b0; simpl; split; congruence.
  - apply Nat.eqb_eq.
Qed.

(** C3, as amended. The primitive [=] applied to two argument values returns
    true exactly when they are the same number (a [NaN] is never the same),
    the same symbol, the same boolean, both nil, both the undefined marker,
    or one and the same list object; two list objects with equal elements
    compare unequal, and a list object compares equal to itself. *)
Theorem C3_equal_is_identity :
  (forall a b rest st,
      applyPrimitive Equal (a :: b :: rest) st
      = Return (LBoolean (strictEquals a b)) st) /\
  (forall a b, strictEquals a b = true <-> identical a b) /\
  (forall i j xs ys,
      strictEquals (LArray i xs) (LArray j ys) = true <-> i = j).
Proof.
  split; [reflexivity|]. split; [apply strictEquals_identical|].
  intros i j xs ys. apply Nat.eqb_eq.
Qed.

(** ** Conditionals (claim C2) *)

(** How [(if C T F)] is evaluated: the condition first, then one of the two
    branches, chosen by the truth the host gives the condition's value. *)
Lemma evaluateExpression_if fuel id rest env st :
  evaluateExpression (S fuel) (LArray id (LString "if" :: rest)) env st
  = bind (evaluateExpression fuel (item (LString "if" :: rest) 1) env st)
      (fun condition st1 =>
         if truthy condition
         then evaluateExpression fuel (item (LString "if" :: rest) 2) env st1
         else evaluateExpression fuel (item (LString "if" :: rest) 3) env st1).
Proof. reflexivity. Qed.

(** C2, at the failing input. The condition [0] is neither false nor nil,
    and [if] takes the else branch on it, on any fuel that lets the
    evaluation end; the primitive [and] of the same class counts [0] as
    true; an empty list as condition does take the then branch. *)
Theorem C2_zero_takes_the_else_branch :
  (forall fuel,
      answer (evaluate (2 + fuel) "(if 0 'yes 'no)" newSimpleLisp)
      = Some ("no", "no")) /\
  (forall fuel,
      answer (evaluate (2 + fuel) "(and 0)" newSimpleLisp) = Some ("T", "T")) /\
  (forall fuel,
      answer (evaluate (2 + fuel) "(if '() 'yes 'no)" newSimpleLisp)
      = Some ("yes", "yes")).
Proof. repeat apply conj; intros fuel; vm_compute; reflexivity. Qed.

(** ** More fuel never changes an answer *)

Lemma completes_refl {S A : Type} (r : outcome S A) : completes r r.
Proof. by right. Qed.

Lemma completes_trans {S A : Type} (r1 r2 r3 : outcome S A) :
  completes r1 r2 -> completes r2 r3 -> completes r1 r3.
Proof.
  intros [->| ->]; [by left|]. intros [->| ->]; [by left | by right].
Qed.

Lemma completes_bind {S A B : Type} (m m' : outcome S A)
    (k k' : A -> S -> outcome S B) :
  completes m m' ->
  (forall a s, completes (k a s) (k' a s)) ->
  completes (bind m k) (bind m' k').
Proof.
  intros [->| ->] Hk; [by left|].
  destruct m as [a s| | |]; simpl; [apply Hk | by right ..].
Qed.

Section MoreFuel.

Variables ev ev' : LispValue -> nat -> SimpleLisp -> outcome SimpleLisp LispValue.
Hypothesis ev_completes : forall expr env st, completes (ev expr env st) (ev' expr env st).

Lemma evaluateEach_completes exprs env st :
  completes (evaluateEach ev exprs env st) (evaluateEach ev' exprs env st).
Proof.
  revert st. induction exprs as [|expr exprs IH]; intros st; simpl.
  - apply completes_refl.
  - apply completes_bind; [apply ev_completes|]. intros v st1.
    apply completes_bind; [apply IH|]. intros vs st2. apply completes_refl.
Qed.

Lemma evaluateSequence_completes forms env result st :
  completes (evaluateSequence ev forms env result st)
            (evaluateSequence ev' forms env result st).
Proof.
  revert result st. induction forms as [|form forms IH]; intros result st; simpl.
  - apply completes_refl.
  - apply completes_bind; [apply ev_completes|]. intros v st1. apply IH.
Qed.

Lemma callFunction_completes fn args st :
  completes (callFunction ev fn args st) (callFunction ev' fn args st).
Proof.
  destruct fn as [p|params body env|]; simpl; try apply completes_refl.
  destruct (heap st !! env) as [captured|]; [|apply completes_refl].
  destruct params; try apply completes_refl.
  destruct (bindParameters _ _ _ _); [|apply completes_refl].
  apply evaluateSequence_completes.
Qed.

Lemma evaluateExpressionBody_completes expr env st :
  completes (evaluateExpressionBody ev expr env st)
            (evaluateExpressionBody ev' expr env st).
Proof.
  destruct expr as [n|name|b| | |id items]; simpl; try apply completes_refl.
  destruct items as [|first items]; [apply completes_refl|].
  destruct (strictEquals first (LString "quote")); [apply completes_refl|].
  destruct (strictEquals first (LString "if")).
  { apply completes_bind; [apply ev_completes|]. intros c st1.
    destruct (truthy c); apply ev_completes. }
  destruct (strictEquals first (LString "defun")); [apply completes_refl|].
  apply completes_bind.
  - destruct first; try apply completes_refl;
      (apply completes_bind; [apply ev_completes|]; intros; apply completes_refl).
  - intros fn st1. destruct fn as [v|f]; [apply completes_refl|].
    apply completes_bind; [apply evaluateEach_completes|].
    intros args st2. apply callFunction_completes.
Qed.

End MoreFuel.

Lemma evaluateExpression_completes_S fuel expr env st :
  completes (evaluateExpression fuel expr env st)
            (evaluateExpression (S fuel) expr env st).
Proof.
  revert expr env st. induction fuel as [|fuel IH]; intros expr env st.
  - by left.
  - apply (evaluateExpressionBody_completes _ _ IH).
Qed.

Lemma evaluateExpression_completes fuel fuel' expr env st :
  fuel <= fuel' ->
  completes (evaluateExpression fuel expr env st)
            (evaluateExpression fuel' expr env st).
Proof.
  induction 1 as [|fuel' _ IH]; [apply completes_refl|].
  eapply completes_trans; [exact IH | apply evaluateExpression_completes_S].
Qed.

(** Once [evaluate] has come back with a result or an error, it comes back
    with the same on any larger fuel. *)
Lemma evaluate_more_fuel fuel fuel' code st :
  fuel <= fuel' ->
  evaluate fuel code st <> OutOfFuel ->
  evaluate fuel' code st = evaluate fuel code st.
Proof.
  intros Hle Hdone.
  assert (H : completes (evaluate fuel code st) (evaluate fuel' code st)).
  { unfold evaluate. destruct (parse code _) as [exprs next|e next| |];
      try apply completes_refl.
    apply completes_bind; [|intros; apply completes_refl].
    apply evaluateSequence_completes. intros expr env s.
    by apply evaluateExpression_completes. }
  by destruct H.
Qed.

(** ** Calls of user functions *)

(** The evaluation of a call [(name arg ...)]. *)
Lemma evaluateExpression_call fuel id name argExprs env st :
  isSpecialForm name = false ->
  evaluateExpression (S fuel) (LArray id (LString name :: argExprs)) env st
  = match heap st !! env with
    | None => NotModelled
    | Some e =>
        match getProperty e name with
        | None => NotModelled
        | Some (Data _) => Throw (Error ("Not a function: " +:+ name)) st
        | Some (Callable f) =>
            bind (evaluateEach (evaluateExpression fuel) argExprs env st)
              (fun args st2 => callFunction (evaluateExpression fuel) f args st2)
        end
    end.
Proof.
  unfold isSpecialForm. intros H.
  apply orb_false_iff in H as [H Hdefun].
  apply orb_false_iff in H as [Hquote Hif].
  cbn [evaluateExpression evaluateExpressionBody strictEquals].
  rewrite Hquote, Hif, Hdefun.
  destruct (heap st !! env) as [e|]; [|reflexivity].
  destruct (getProperty e name) as [[v|f]|]; reflexivity.
Qed.

(** The evaluation of a symbol. *)
Lemma evaluateExpression_symbol fuel name env st :
  evaluateExpression (S fuel) (LString name) env st
  = match heap st !! env with
    | None => NotModelled
    | Some e =>
        match getProperty e name with
        | None => NotModelled
        | Some (Data LUndefined) =>
            Throw (Error ("Undefined symbol: " +:+ name)) st
        | Some (Callable _) =>
            Throw (Error ("Cannot use function " +:+ name +:+
                          " as value (missing parentheses?)")) st
        | Some (Data value) => Return value st
        end
    end.
Proof. reflexivity. Qed.


Lemma setProperty_Some (e : LispEnvironment) key x :
  key <> "__proto__" -> setProperty e key x = Some (<[key := x]> e).
Proof.
  intros H. unfold setProperty.
  by destruct (String.eqb_spec key "__proto__").
Qed.


Lemma getProperty_own (e : LispEnvironment) key x :
  key <> "__proto__" -> e !! key = Some x -> getProperty e key = Some x.
Proof.
  intros Hp He. unfold getProperty. rewrite He.
  by destruct (String.eqb_spec key "__proto__").
Qed.

(** The evaluation of [(defun name params body ...)]. *)
Lemma evaluateExpression_defun fuel id name params body env st (e : LispEnvironment) :
  heap st !! env = Some e ->
  name <> "__proto__" ->
  evaluateExpression (S fuel)
    (LArray id (LString "defun" :: LString name :: params :: body)) env st
  = Return (LString name)
      (withHeap st
         (<[env := <[name := Callable (Closure params body env)]> e]> (heap st))).
Proof.
  intros He Hp. cbn [evaluateExpression evaluateExpressionBody].
  change (strictEquals (LString "defun") (LString "quote")) with false.
  change (strictEquals (LString "defun") (LString "if")) with false.
  change (strictEquals (LString "defun") (LString "defun")) with true.
  cbv iota. rewrite He. simpl toText.
  by rewrite setProperty_Some.
Qed.







(** ** Missing arguments (claim C9) *)




(** The same on a program: [y] has no argument in the call [(f 1)]. *)
Example missing_argument_program :
  thrown (evaluate 3 "(defun f (x y) y) (f 1)" newSimpleLisp)
  = Some (Error "Undefined symbol: y") /\
  thrown (evaluate 3 "(defun f (x) z) (f 1)" newSimpleLisp)
  = Some (Error "Undefined symbol: z").
Proof. split; vm_compute; reflexivity. Qed.

(** ** Closures and their environment (claim C1) *)


(** A function sees what was defined after it: whatever [g] was when [f]
    was defined, the call [(f)] runs the [g] of the time of the call. *)
Lemma later_definition_is_called fuel st (e : LispEnvironment) f g v
    i1 i2 i3 i4 i5 i6 i7 :
  heap st !! globalEnv = Some e ->
  isSpecialForm f = false -> isSpecialForm g = false ->
  f <> "__proto__" -> g <> "__proto__" -> f <> g ->
  answer
    (evaluateSequence (evaluateExpression (3 + fuel))
       [ LArray i1 [LString "defun"; LString f; LArray i2 [];
                    LArray i3 [LString g]];
         LArray i4 [LString "defun"; LString g; LArray i5 [];
                    LArray i6 [LString "quote"; v]];
         LArray i7 [LString f] ]
       globalEnv LNull st)
  = Some v.
Proof.
  intros He Hf Hg Hfp Hgp Hfg.
  pose proof (lookup_lt_Some _ _ _ He) as Hlen.
  set (F := Callable (Closure (LArray i2 []) [LArray i3 [LString g]] globalEnv)).
  set (G := Callable (Closure (LArray i5 []) [LArray i6 [LString "quote"; v]] globalEnv)).
  set (e2 := <[g := G]> (<[f := F]> e)).
  cbn [evaluateSequence Nat.add].
  rewrite (evaluateExpression_defun _ _ _ _ _ _ _ e He Hfp). cbn [bind].
  rewrite (evaluateExpression_defun _ _ _ _ _ _ _ (<[f := F]> e)); [|..|done].
  2:{ simpl. by rewrite list_lookup_insert_eq. }
  cbn [bind]. simpl heap. rewrite list_insert_insert_eq. fold G e2.
  set (st2 := withHeap _ _).
  assert (H2 : heap st2 !! globalEnv = Some e2).
  { subst st2. simpl. by rewrite list_lookup_insert_eq. }
  rewrite (evaluateExpression_call _ _ _ _ _ _ Hf), H2.
  rewrite (getProperty_own e2 f F Hfp).
  2:{ subst e2. rewrite lookup_insert_ne by done. by rewrite lookup_insert_eq. }
  subst F. cbn [evaluateEach bind callFunction]. rewrite H2.
  cbn [bindParameters evaluateSequence].
  rewrite (evaluateExpression_call _ _ _ _ _ _ Hg).
  assert (H3 : heap (withHeap st2 (heap st2 ++ [e2])) !! length (heap st2) = Some e2).
  { simpl. by rewrite lookup_app_r, Nat.sub_diag. }
  rewrite H3.
  rewrite (getProperty_own e2 g G Hgp) by (subst e2; by rewrite lookup_insert_eq).
  subst G. cbn [evaluateEach bind callFunction].
  assert (H4 : heap (withHeap st2 (heap st2 ++ [e2])) !! globalEnv = Some e2).
  { simpl. by apply lookup_app_l_Some. }
  rewrite H4. reflexivity.
Qed.



(** ** A list that is never closed (claim C8) *)




Lemma depthAfter_open tokens i d :
  tokens !! i = Some "(" ->
  depthAfter (drop i tokens) d = depthAfter (drop (S i) tokens) (S d).
Proof. intros H. by rewrite (drop_S _ _ _ H). Qed.

Lemma depthAfter_close tokens i d :
  tokens !! i = Some ")" ->
  depthAfter (drop i tokens) (S d) = depthAfter (drop (S i) tokens) d.
Proof. intros H. by rewrite (drop_S _ _ _ H). Qed.

Lemma depthAfter_other tokens i t d :
  tokens !! i = Some t ->
  String.eqb t "(" = false -> String.eqb t ")" = false ->
  depthAfter (drop i tokens) d = depthAfter (drop (S i) tokens) d.
Proof. intros H Ho Hc. rewrite (drop_S _ _ _ H). simpl. by rewrite Ho, Hc. Qed.

Lemma tokenIs_false tokens i t text :
  tokens !! i = Some t -> tokenIs tokens i text = String.eqb t text.
Proof. intros H. unfold tokenIs. by rewrite H. Qed.

Lemma quotesFollowed_lookup tokens i :
  quotesFollowed tokens = true ->
  tokens !! i = Some "'" ->
  exists u, tokens !! (S i) = Some u /\ String.eqb u ")" = false.
Proof.
  revert i. induction tokens as [|t tokens IH]; intros i; simpl; [done|].
  intros [Ht Hrest]%andb_true_iff Hi.
  destruct i as [|i]; simpl in *.
  - injection Hi as ->. simpl in Ht.
    destruct tokens as [|u tokens]; [done|].
    exists u. split; [done|]. by apply negb_true_iff.
  - by apply IH.
Qed.

Lemma parseItems_scan parseOne fuel tokens items i next :
  (forall j n t, i <= j -> tokens !! j = Some t -> String.eqb t ")" = false ->
                 expressionScan tokens j (parseOne j n)) ->
  length tokens - i < fuel ->
  itemsScan tokens i (parseItems parseOne fuel tokens items i next).
Proof.
  revert items i next.
  induction fuel as [|fuel IH]; intros items i next Hone Hfuel; [lia|].
  rewrite parseItems_eq.
  destruct (i <? length tokens) eqn:Hlt; simpl.
  - apply Nat.ltb_lt in Hlt.
    destruct (lookup_lt_is_Some_2 tokens i Hlt) as [t Ht].
    rewrite (tokenIs_false _ _ _ _ Ht).
    destruct (String.eqb t ")") eqn:Hclose; simpl.
    + apply String.eqb_eq in Hclose. subst t.
      replace (length tokens <=? i) with false
        by (symmetry; apply Nat.leb_gt; lia).
      simpl. split; [lia|]. intros d.
      rewrite Nat.add_1_r. by apply depthAfter_close.
    + pose proof (Hone i next t (Nat.le_refl i) Ht Hclose) as Hstep.
      destruct (parseOne i next) as [[expr k] n'|e n'| |];
        simpl in Hstep; try done.
      * destruct Hstep as [Hk Hdepth].
        assert (Hrec : itemsScan tokens k
                  (parseItems parseOne fuel tokens (items ++ [expr]) k n')).
        { apply IH; [|lia]. intros j n u Hj. apply Hone. lia. }
        destruct (parseItems parseOne fuel tokens (items ++ [expr]) k n')
          as [[its j] n''|e n''| |]; simpl in *; try done.
        -- destruct Hrec as [Hj Hd]. split; [lia|].
           intros d. by rewrite Hdepth, Hd.
        -- destruct Hrec as [-> Hd]. split; [done|].
           intros d. rewrite Hdepth. apply Hd.
      * destruct Hstep as [-> Hd]. split; [done|].
        intros d. destruct (Hd d) as [k Hk]. exists (S k). by rewrite Hk.
  - apply Nat.ltb_ge in Hlt.
    replace (length tokens <=? i) with true
      by (symmetry; apply Nat.leb_le; lia).
    simpl. split; [done|]. intros d. exists 0.
    rewrite drop_ge by lia. simpl. f_equal. lia.
Qed.

Lemma parseExpression_scan fuel tokens index next t :
  quotesFollowed tokens = true ->
  length tokens - index < fuel ->
  tokens !! index = Some t -> String.eqb t ")" = false ->
  expressionScan tokens index (parseExpression fuel tokens index next).
Proof.
  intros Hq. revert index next t.
  induction fuel as [|fuel IH]; intros index next t Hfuel Ht Hclose; [lia|].
  pose proof (lookup_lt_Some _ _ _ Ht) as Hlt.
  rewrite parseExpression_eq, !(tokenIs_false _ _ _ _ Ht), Hclose.
  destruct (String.eqb t "(") eqn:Hopen.
  - apply String.eqb_eq in Hopen. subst t.
    assert (Hitems : itemsScan tokens (index + 1)
              (parseItems (parseExpression fuel tokens) fuel tokens []
                 (index + 1) (S next))).
    { apply parseItems_scan; [|lia].
      intros j n u Hj Hu Hc. apply (IH j n u); [lia|done..]. }
    rewrite Nat.add_1_r in *.
    destruct (parseItems _ fuel tokens [] (S index) (S next))
      as [[its j] n'|e n'| |]; simpl in *; try done.
    + destruct Hitems as [Hj Hd]. split; [lia|].
      intros d. by rewrite (depthAfter_open _ _ _ Ht), Hd.
    + destruct Hitems as [-> Hd]. split; [done|].
      intros d. destruct (Hd (S d)) as [k Hk]. exists k.
      rewrite (depthAfter_open _ _ _ Ht), Hk. f_equal. lia.
  - destruct (String.eqb t "'") eqn:Hquote.
    + apply String.eqb_eq in Hquote. subst t.
      destruct (quotesFollowed_lookup _ _ Hq Ht) as (u & Hu & Hc).
      rewrite Nat.add_1_r.
      pose proof (lookup_lt_Some _ _ _ Hu) as Hlt'.
      pose proof (IH (S index) next u ltac:(lia) Hu Hc) as Hrec.
      assert (Hskip : forall d, depthAfter (drop index tokens) d
                                = depthAfter (drop (S index) tokens) d).
      { intros d. by apply (depthAfter_other _ _ "'"). }
      destruct (parseExpression fuel tokens (S index) next)
        as [[expr j] n'|e n'| |]; simpl in *; try done.
      * destruct Hrec as [Hj Hd]. split; [lia|].
        intros d. by rewrite Hskip, Hd.
      * destruct Hrec as [-> Hd]. split; [done|].
        intros d. rewrite Hskip. apply Hd.
    + rewrite Ht.
      assert (Hskip : forall d, depthAfter (drop index tokens) d
                                = depthAfter (drop (index + 1) tokens) d).
      { intros d. rewrite Nat.add_1_r. by apply (depthAfter_other _ _ t). }
      destruct (negb _); simpl; (split; [lia | done]).
Qed.

Lemma parseAll_unmatched fuel tokens result i next d :
  quotesFollowed tokens = true ->
  length tokens - i < fuel ->
  depthAfter (drop i tokens) 0 = Some (S d) ->
  exists next', parseAll fuel tokens result i next = Throw unmatched next'.
Proof.
  intros Hq. revert result i next.
  induction fuel as [|fuel IH]; intros result i next Hfuel Hdepth; [lia|].
  rewrite parseAll_eq.
  destruct (i <? length tokens) eqn:Hlt.
  - apply Nat.ltb_lt in Hlt.
    destruct (lookup_lt_is_Some_2 tokens i Hlt) as [t Ht].
    assert (Hclose : String.eqb t ")" = false).
    { destruct (String.eqb_spec t ")") as [->|]; [|done].
      rewrite (drop_S _ _ _ Ht) in Hdepth. discriminate. }
    pose proof (parseExpression_scan (S (length tokens)) tokens i next t
                  Hq ltac:(lia) Ht Hclose) as Hstep.
    destruct (parseExpression (S (length tokens)) tokens i next)
      as [[expr j] n'|e n'| |]; simpl in Hstep; try done.
    + destruct Hstep as [Hj Hd]. apply IH; [lia|]. by rewrite <- Hd.
    + destruct Hstep as [-> _]. eauto.
  - apply Nat.ltb_ge in Hlt. rewrite drop_ge in Hdepth by lia. discriminate.
Qed.

(** C8 fails as stated: in both texts a list is opened and never closed;
    the first throws for the [)] that comes where no list is open, the
    second throws the host's TypeError for the quote at the end. *)
Lemma C8_other_errors_come_first :
  depthAfter (drop 1 (tokenize ") (")) 0 = Some 1 /\
  thrown (evaluate 0 ") (" newSimpleLisp)
  = Some (Error "Unexpected closing parenthesis") /\
  depthAfter (tokenize "('") 0 = Some 1 /\
  thrown (evaluate 0 "('" newSimpleLisp) = Some TypeError.
Proof. repeat apply conj; vm_compute; reflexivity. Qed.

(** C8, as amended. For every input whose tokens leave a list open at the
    end (such as [(+ 1 2]), in which no [)] comes while no list is open, and
    in which every quote marker is followed by a token other than [)],
    [evaluate] throws the error [Unmatched opening parenthesis], of the kind
    [UnmatchedParenthesis], and returns no result; the interpreter is left
    with an empty output buffer and its environments untouched. *)
Theorem C8_unclosed_list_is_unmatched fuel code st d :
  quotesFollowed (tokenize code) = true ->
  depthAfter (tokenize code) 0 = Some (S d) ->
  exists st',
    evaluate fuel code st = Throw (Error "Unmatched opening parenthesis") st' /\
    errorKind (Error "Unmatched opening parenthesis") = Some UnmatchedParenthesis /\
    answer (evaluate fuel code st) = None /\
    heap st' = heap st /\ output st' = [].
Proof.
  intros Hq Hdepth. unfold evaluate, parse.
  destruct (parseAll_unmatched (S (length (tokenize code))) (tokenize code)
              [] 0 (nextArray (withOutput st [])) d Hq ltac:(lia) Hdepth)
    as [next' ->].
  eexists. repeat split.
Qed.

Lemma C8_unclosed_list_is_unmatched_witness :
  exists st',
    evaluate 5 "(+ 1 2" newSimpleLisp
    = Throw (Error "Unmatched opening parenthesis") st' /\
    errorKind (Error "Unmatched opening parenthesis") = Some UnmatchedParenthesis /\
    answer (evaluate 5 "(+ 1 2" newSimpleLisp) = None /\
    heap st' = heap newSimpleLisp /\ output st' = [].
Proof.
  apply (C8_unclosed_list_is_unmatched 5 "(+ 1 2" newSimpleLisp 0);
    vm_compute; reflexivity.
Defined.

(** ** Round trip through the printer and the parser (claim C5) *)

(** *** Text *)

Lemma append_cons c a b : String c a +:+ b = String c (a +:+ b).
Proof. reflexivity. Qed.

Lemma append_empty_l a : EmptyString +:+ a = a.
Proof. reflexivity. Qed.

Lemma append_empty_r a : a +:+ EmptyString = a.
Proof. induction a as [|c a IH]; [done|]. by rewrite append_cons, IH. Qed.

Lemma append_assoc a b c : (a +:+ b) +:+ c = a +:+ b +:+ c.
Proof. induction a as [|x a IH]; [done|]. by rewrite !append_cons, IH. Qed.


Lemma wordsFrom_cons piece c rest :
  wordsFrom piece (String c rest)
  = if JS.isWhitespace c then single piece ++ wordsFrom EmptyString rest
    else wordsFrom (piece +:+ String c EmptyString) rest.
Proof. reflexivity. Qed.

Lemma split_run_words in_run piece s :
  (in_run = true -> piece = EmptyString) ->
  List.filter (fun token => 0 <? String.length token) (JS.split_run in_run piece s)
  = wordsFrom piece s.
Proof.
  revert in_run piece. induction s as [|c s IH]; intros in_run piece Hrun.
  - simpl. by destruct piece.
  - rewrite wordsFrom_cons. simpl JS.split_run.
    destruct (JS.isWhitespace c).
    + destruct in_run.
      * rewrite (Hrun eq_refl). by rewrite IH.
      * simpl List.filter. rewrite IH by done. by destruct piece.
    + by apply IH.
Qed.

Lemma wordsFrom_whitespace piece ws :
  allWhitespace ws = true -> wordsFrom piece ws = single piece.
Proof.
  revert piece. induction ws as [|c ws IH]; intros piece; [done|].
  simpl allWhitespace. intros [Hc Hws]%andb_true_iff.
  rewrite wordsFrom_cons, Hc, IH by done. apply app_nil_r.
Qed.

Lemma wordsFrom_after_whitespace ws s :
  allWhitespace ws = true ->
  wordsFrom EmptyString (ws +:+ s) = wordsFrom EmptyString s.
Proof.
  induction ws as [|c ws IH]; [done|].
  simpl allWhitespace. intros [Hc Hws]%andb_true_iff.
  rewrite append_cons, wordsFrom_cons, Hc. by apply IH.
Qed.

Lemma wordsFrom_before_whitespace piece s ws :
  allWhitespace ws = true ->
  wordsFrom piece (s +:+ ws) = wordsFrom piece s.
Proof.
  intros Hws. revert piece. induction s as [|c s IH]; intros piece.
  - rewrite append_empty_l. by rewrite wordsFrom_whitespace.
  - rewrite append_cons, !wordsFrom_cons. destruct (JS.isWhitespace c); by rewrite IH.
Qed.

(** A whitespace character ends the run before it. *)
Lemma wordsFrom_split piece a w b :
  JS.isWhitespace w = true ->
  wordsFrom piece (a +:+ String w b)
  = wordsFrom piece a ++ wordsFrom EmptyString b.
Proof.
  intros Hw. revert piece. induction a as [|c a IH]; intros piece.
  - rewrite append_empty_l, wordsFrom_cons, Hw. by destruct piece.
  - rewrite append_cons, !wordsFrom_cons. destruct (JS.isWhitespace c).
    + by rewrite IH, (assoc_L (++)).
    + by rewrite IH.
Qed.

Lemma plainText_cons c s :
  plainText (String c s)
  = negb (JS.isWhitespace c) && negb (isDelimiterChar c) && plainText s.
Proof. reflexivity. Qed.

Lemma wordsFrom_plain piece a :
  plainText a = true ->
  wordsFrom piece a = single (piece +:+ a).
Proof.
  revert piece. induction a as [|c a IH]; intros piece.
  - by rewrite append_empty_r.
  - rewrite plainText_cons.
    intros [[Hc _]%andb_true_iff Ha]%andb_true_iff.
    apply negb_true_iff in Hc.
    rewrite wordsFrom_cons, Hc, IH by done.
    by rewrite append_assoc.
Qed.

Lemma wordsFrom_atom a : atomText a = true -> wordsFrom EmptyString a = [a].
Proof.
  unfold atomText. intros [Hne Ha]%andb_true_iff.
  rewrite wordsFrom_plain by done. rewrite append_empty_l.
  by destruct a.
Qed.

Lemma trimStart_split s :
  exists ws, allWhitespace ws = true /\ s = ws +:+ JS.trimStart s.
Proof.
  induction s as [|c s (ws & Hws & IH)]; [by exists EmptyString|].
  simpl. destruct (JS.isWhitespace c) eqn:Hc.
  - exists (String c ws). split; [simpl; by rewrite Hc|].
    by rewrite append_cons, <- IH.
  - by exists EmptyString.
Qed.

Lemma trimEnd_split s :
  exists ws, allWhitespace ws = true /\ s = JS.trimEnd s +:+ ws.
Proof.
  induction s as [|c s (ws & Hws & IH)]; [by exists EmptyString|].
  simpl. destruct (JS.trimEnd s) as [|k kept] eqn:Hk.
  - rewrite append_empty_l in IH. subst s.
    destruct (JS.isWhitespace c) eqn:Hc.
    + exists (String c ws). split; [simpl; by rewrite Hc | done].
    + by exists ws.
  - exists ws. split; [done|]. by rewrite append_cons, <- IH.
Qed.

Lemma wordsFrom_trim s :
  wordsFrom EmptyString (JS.trim s) = wordsFrom EmptyString s.
Proof.
  unfold JS.trim.
  destruct (trimStart_split s) as (ws1 & Hws1 & H1).
  destruct (trimEnd_split (JS.trimStart s)) as (ws2 & Hws2 & H2).
  rewrite H1 at 2. rewrite wordsFrom_after_whitespace by done.
  rewrite H2 at 2. by rewrite wordsFrom_before_whitespace.
Qed.

(** [tokenize] gives the runs without whitespace of the padded text. *)
Lemma tokenize_words input : tokenize input = wordsFrom EmptyString (pad input).
Proof.
  unfold tokenize, JS.splitWhitespace.
  rewrite split_run_words by done. apply wordsFrom_trim.
Qed.

Lemma replaceAll_app c by_ a b :
  JS.replaceAll c by_ (a +:+ b) = JS.replaceAll c by_ a +:+ JS.replaceAll c by_ b.
Proof.
  induction a as [|x a IH]; [done|].
  rewrite append_cons. simpl. destruct (Ascii.eqb x c).
  - by rewrite IH, append_assoc.
  - by rewrite IH.
Qed.

Lemma pad_app a b : pad (a +:+ b) = pad a +:+ pad b.
Proof. unfold pad. by rewrite !replaceAll_app. Qed.

Lemma replaceAll_absent c by_ s :
  (forall x, isDelimiterChar x = false -> Ascii.eqb x c = false) ->
  plainText s = true -> JS.replaceAll c by_ s = s.
Proof.
  intros Hc. induction s as [|x s IH]; [done|].
  rewrite plainText_cons.
  intros [[_ Hx]%andb_true_iff Hs]%andb_true_iff.
  apply negb_true_iff in Hx. simpl. rewrite (Hc x Hx). by rewrite IH.
Qed.

Lemma pad_plain s : plainText s = true -> pad s = s.
Proof.
  intros H. unfold pad.
  rewrite (replaceAll_absent "(") ; [|intros x Hx|done].
  2:{ unfold isDelimiterChar in Hx.
      by apply orb_false_iff in Hx as [[? ?]%orb_false_iff ?]. }
  rewrite (replaceAll_absent ")") ; [|intros x Hx|done].
  2:{ unfold isDelimiterChar in Hx.
      by apply orb_false_iff in Hx as [[? ?]%orb_false_iff ?]. }
  rewrite (replaceAll_absent "'") ; [done|intros x Hx|done].
  unfold isDelimiterChar in Hx.
  by apply orb_false_iff in Hx as [[? ?]%orb_false_iff ?].
Qed.

Lemma join_cons sep a b rest :
  JS.join sep (a :: b :: rest) = a +:+ sep +:+ JS.join sep (b :: rest).
Proof. reflexivity. Qed.

Lemma pad_join parts :
  pad (JS.join " " parts) = JS.join " " (List.map pad parts).
Proof.
  induction parts as [|a [|b rest] IH]; [done..|].
  rewrite join_cons, !pad_app, IH. reflexivity.
Qed.

Lemma wordsFrom_join parts :
  wordsFrom EmptyString (JS.join " " parts)
  = concat (List.map (wordsFrom EmptyString) parts).
Proof.
  induction parts as [|a [|b rest] IH]; [done| |].
  - simpl. by rewrite app_nil_r.
  - rewrite join_cons.
    change (" " +:+ JS.join " " (b :: rest))
      with (String " " (JS.join " " (b :: rest))).
    rewrite wordsFrom_split by done. by rewrite IH.
Qed.

(** *** The text of a number is an atom text *)

Lemma plainText_append a b :
  plainText (a +:+ b) = plainText a && plainText b.
Proof.
  induction a as [|c a IH]; [done|].
  rewrite append_cons, !plainText_cons, IH. by rewrite andb_assoc.
Qed.


Lemma plainText_zeros n : plainText (JS.zeros n) = true.
Proof. induction n as [|n IH]; [done|]. simpl. exact IH. Qed.

Lemma plainText_string_of_uint d :
  plainText (NilEmpty.string_of_uint d) = true.
Proof. induction d; simpl; done. Qed.

Lemma plainText_decimalString z : plainText (JS.decimalString z) = true.
Proof. apply plainText_string_of_uint. Qed.

Lemma decimalString_not_empty z : JS.decimalString z <> EmptyString.
Proof.
  unfold JS.decimalString.
  destruct (Z.to_N z) as [|p]; [done|]. simpl.
  pose proof (Unsigned.to_uint_nonnil p) as H.
  destruct (Pos.to_uint p); done.
Qed.


Lemma append_not_empty_r a b : b <> EmptyString -> a +:+ b <> EmptyString.
Proof. destruct a; [done|]. by rewrite append_cons. Qed.



Lemma atomText_intro s :
  s <> EmptyString -> plainText s = true -> atomText s = true.
Proof.
  intros Hne Hs. unfold atomText. rewrite Hs.
  by destruct (String.eqb_spec s EmptyString).
Qed.


(** *** Values *)

(** Induction on values, the elements of an array included. *)
Lemma LispValue_nested_ind (P : LispValue -> Prop) :
  (forall n, P (LNumber n)) ->
  (forall s, P (LString s)) ->
  (forall b, P (LBoolean b)) ->
  P LNull ->
  P LUndefined ->
  (forall id items, Forall P items -> P (LArray id items)) ->
  forall v, P v.
Proof.
  intros Hn Hs Hb Hnull Hu Ha. fix IH 1.
  intros [n|s|b| | |id items];
    [apply Hn | apply Hs | apply Hb | exact Hnull | exact Hu |].
  apply Ha. induction items as [|x items IHitems]; constructor;
    [apply IH | exact IHitems].
Qed.

Lemma atomText_plain s : atomText s = true -> plainText s = true.
Proof. unfold atomText. by intros [_ H]%andb_true_iff. Qed.

Lemma atomText_not_delimiter s : atomText s = true -> isDelimiter s = false.
Proof.
  intros H. unfold isDelimiter.
  destruct (String.eqb_spec s "(") as [->|_]; [done|].
  destruct (String.eqb_spec s ")") as [->|_]; [done|].
  destruct (String.eqb_spec s "'") as [->|_]; done.
Qed.

Lemma atomText_not_close s : atomText s = true -> String.eqb s ")" = false.
Proof.
  intros H. by destruct (String.eqb_spec s ")") as [->|_].
Qed.


(** *** The symbols of the parser *)

Ltac each_character c :=
  destruct c as [[] [] [] [] [] [] [] []]; reflexivity.

Lemma isWhitespace_lowerChar c :
  JS.isWhitespace (JS.lowerChar c) = JS.isWhitespace c.
Proof. each_character c. Qed.

Lemma isDelimiterChar_lowerChar c :
  isDelimiterChar (JS.lowerChar c) = isDelimiterChar c.
Proof. each_character c. Qed.

Lemma lowerChar_lowerChar c : JS.lowerChar (JS.lowerChar c) = JS.lowerChar c.
Proof. each_character c. Qed.

Lemma digitValue_lowerChar base c :
  JS.digitValue base (JS.lowerChar c) = JS.digitValue base c.
Proof. each_character c. Qed.

Lemma lowerChar_minus c : Ascii.eqb (JS.lowerChar c) "-" = Ascii.eqb c "-".
Proof. each_character c. Qed.

Lemma lowerChar_plus c : Ascii.eqb (JS.lowerChar c) "+" = Ascii.eqb c "+".
Proof. each_character c. Qed.

Lemma lowerChar_dot c : Ascii.eqb (JS.lowerChar c) "." = Ascii.eqb c ".".
Proof. each_character c. Qed.

Lemma lowerChar_zero c : Ascii.eqb (JS.lowerChar c) "0" = Ascii.eqb c "0".
Proof. each_character c. Qed.

Lemma lowerChar_capital_i c : Ascii.eqb (JS.lowerChar c) "I" = false.
Proof. each_character c. Qed.

Lemma toLowerCase_cons c s :
  JS.toLowerCase (String c s) = String (JS.lowerChar c) (JS.toLowerCase s).
Proof. reflexivity. Qed.

Lemma toLowerCase_toLowerCase s :
  JS.toLowerCase (JS.toLowerCase s) = JS.toLowerCase s.
Proof.
  induction s as [|c s IH]; [done|].
  by rewrite !toLowerCase_cons, lowerChar_lowerChar, IH.
Qed.

Lemma plainText_toLowerCase s : plainText (JS.toLowerCase s) = plainText s.
Proof.
  induction s as [|c s IH]; [done|].
  by rewrite toLowerCase_cons, !plainText_cons, isWhitespace_lowerChar,
    isDelimiterChar_lowerChar, IH.
Qed.

Lemma atomText_toLowerCase s : atomText (JS.toLowerCase s) = atomText s.
Proof.
  unfold atomText. rewrite plainText_toLowerCase. by destruct s.
Qed.

Lemma toLowerCase_empty s : JS.toLowerCase s = EmptyString -> s = EmptyString.
Proof. by destruct s. Qed.

Lemma readDigits_toLowerCase base s acc count :
  JS.readDigits base (JS.toLowerCase s) acc count
  = let '(v, k, rest) := JS.readDigits base s acc count in
    (v, k, JS.toLowerCase rest).
Proof.
  revert acc count. induction s as [|c s IH]; intros acc count; [done|].
  rewrite toLowerCase_cons. simpl. rewrite digitValue_lowerChar.
  destruct (JS.digitValue base c) as [d|]; [apply IH | done].
Qed.

Lemma readSign_toLowerCase s :
  JS.readSign (JS.toLowerCase s)
  = (fst (JS.readSign s), JS.toLowerCase (snd (JS.readSign s))).
Proof.
  destruct s as [|c s]; [done|].
  rewrite toLowerCase_cons. simpl. rewrite lowerChar_minus, lowerChar_plus.
  destruct (Ascii.eqb c "-"); [done|]. by destruct (Ascii.eqb c "+").
Qed.

(** What remains after the digits, when told to be empty. *)
Lemma whole_digits_toLowerCase base s :
  match JS.readDigits base (JS.toLowerCase s) 0 0 with
  | (v, S k, EmptyString) => JS.readDigits base s 0 0 = (v, S k, EmptyString)
  | _ => True
  end.
Proof.
  rewrite readDigits_toLowerCase.
  destruct (JS.readDigits base s 0 0) as [[v k] rest].
  destruct k as [|k]; [done|].
  destruct (JS.toLowerCase rest) eqn:Hrest; [|done].
  by rewrite (toLowerCase_empty _ Hrest).
Qed.

Lemma readExponent_toLowerCase s x :
  JS.readExponent (JS.toLowerCase s) = Some x -> JS.readExponent s = Some x.
Proof.
  destruct s as [|c s]; [done|].
  rewrite toLowerCase_cons. simpl. rewrite lowerChar_lowerChar.
  destruct (Ascii.eqb (JS.lowerChar c) "e"); [|done].
  rewrite readSign_toLowerCase.
  destruct (JS.readSign s) as [negative rest]. simpl fst. simpl snd.
  pose proof (whole_digits_toLowerCase 10 rest) as H.
  destruct (JS.readDigits 10 (JS.toLowerCase rest) 0 0) as [[v k] r].
  destruct k as [|k]; [done|]. destruct r; [|done]. by rewrite H.
Qed.

Lemma readNonDecimal_toLowerCase s l :
  JS.readNonDecimal (JS.toLowerCase s) = Some l -> JS.readNonDecimal s = Some l.
Proof.
  destruct s as [|zero [|x s]]; [done..|].
  rewrite !toLowerCase_cons. unfold JS.readNonDecimal.
  rewrite lowerChar_zero, lowerChar_lowerChar.
  set (base := if negb _ then _ else _).
  pose proof (whole_digits_toLowerCase base s) as H.
  destruct (JS.readDigits base (JS.toLowerCase s) 0 0) as [[v k] r].
  destruct k as [|k]; [done|]. destruct r; [|done]. by rewrite H.
Qed.

Lemma toLowerCase_not_Infinity s :
  String.eqb (JS.toLowerCase s) "Infinity" = false.
Proof.
  destruct s as [|c s]; [done|].
  rewrite toLowerCase_cons. simpl. by rewrite lowerChar_capital_i.
Qed.

Lemma readDecimal_toLowerCase s :
  is_Some (JS.readDecimal (JS.toLowerCase s)) -> is_Some (JS.readDecimal s).
Proof.
  unfold JS.readDecimal. rewrite readSign_toLowerCase.
  destruct (JS.readSign s) as [negative body]. simpl fst. simpl snd.
  rewrite toLowerCase_not_Infinity.
  destruct (String.eqb body "Infinity"); [by eauto|].
  rewrite readDigits_toLowerCase.
  destruct (JS.readDigits 10 body 0 0) as [[int_part int_count] rest1].
  destruct rest1 as [|c rest]; simpl JS.toLowerCase.
  - simpl. destruct (int_count + 0); [|by eauto]. done.
  - cbv beta iota. rewrite lowerChar_dot. destruct (Ascii.eqb c ".").
    + rewrite readDigits_toLowerCase.
      destruct (JS.readDigits 10 rest int_part 0) as [[digits frac_count] rest2].
      destruct (int_count + frac_count); [done|].
      destruct (JS.readExponent (JS.toLowerCase rest2)) as [x|] eqn:Hx;
        [|by intros [? ?]].
      by rewrite (readExponent_toLowerCase _ _ Hx); eauto.
    + destruct (int_count + 0); [done|].
      change (String (JS.lowerChar c) (JS.toLowerCase rest))
        with (JS.toLowerCase (String c rest)).
      destruct (JS.readExponent (JS.toLowerCase (String c rest))) as [x|] eqn:Hx;
        [|by intros [? ?]].
      by rewrite (readExponent_toLowerCase _ _ Hx); eauto.
Qed.

Lemma readLiteral_toLowerCase s :
  is_Some (JS.readLiteral (JS.toLowerCase s)) -> is_Some (JS.readLiteral s).
Proof.
  unfold JS.readLiteral.
  destruct (JS.readNonDecimal (JS.toLowerCase s)) as [l|] eqn:Hl.
  - rewrite (readNonDecimal_toLowerCase _ _ Hl). eauto.
  - intros H. apply readDecimal_toLowerCase in H.
    destruct (JS.readNonDecimal s); eauto.
Qed.

Lemma trimStart_plain s : plainText s = true -> JS.trimStart s = s.
Proof.
  destruct s as [|c s]; [done|]. rewrite plainText_cons.
  intros [[Hc _]%andb_true_iff _]%andb_true_iff.
  apply negb_true_iff in Hc. simpl. by rewrite Hc.
Qed.

Lemma trimEnd_plain s : plainText s = true -> JS.trimEnd s = s.
Proof.
  induction s as [|c s IH]; [done|]. rewrite plainText_cons.
  intros [[Hc _]%andb_true_iff Hs]%andb_true_iff.
  apply negb_true_iff in Hc. simpl. rewrite (IH Hs), Hc. by destruct s.
Qed.

Lemma trim_plain s : plainText s = true -> JS.trim s = s.
Proof.
  intros H. unfold JS.trim. by rewrite trimStart_plain, trimEnd_plain.
Qed.

(** What [Number] does not read, it does not read in lower case either. *)
Lemma numericText_toLowerCase token :
  atomText token = true ->
  numericText token = false -> numericText (JS.toLowerCase token) = false.
Proof.
  intros Ha Hn. unfold numericText in *.
  pose proof (atomText_plain _ Ha) as Hp.
  rewrite trim_plain in Hn by done.
  rewrite trim_plain by (by rewrite plainText_toLowerCase).
  destruct token as [|c t]; [done|].
  rewrite toLowerCase_cons, <- toLowerCase_cons.
  apply bool_decide_eq_false. apply bool_decide_eq_false in Hn.
  intros H. by apply Hn, readLiteral_toLowerCase.
Qed.

(** Every symbol the parser makes from an atom token is a symbol of the
    round trip. *)
Lemma parser_symbol_is_symbolText token :
  atomText token = true -> numericText token = false ->
  symbolText (JS.toLowerCase token) = true.
Proof.
  intros Ha Hn. unfold symbolText.
  rewrite atomText_toLowerCase, Ha, isNaN_stringToNumber,
    (numericText_toLowerCase _ Ha Hn), toLowerCase_toLowerCase.
  simpl. apply String.eqb_refl.
Qed.

(** *** Printing, then parsing *)







(** *** The integers below [2^53] read back

    The double of such an integer is the integer itself; the digits the host
    prints for it are found within the digits of its integer part, and are
    read as the same integer. *)

Module JSIntegers.
Import JS.
Local Open Scope Z_scope.

Lemma digits2_pos_size p : digits2_pos p = Pos.size p.
Proof. induction p; simpl; congruence. Qed.

Lemma digits2_pos_log2 p : Zpos (digits2_pos p) = Z.log2 (Zpos p) + 1.
Proof.
  rewrite digits2_pos_size. destruct p; simpl; try lia.
Qed.

Lemma digits2_pos_bound p k :
  0 <= k -> Zpos p < 2 ^ k -> Zpos (digits2_pos p) <= k.
Proof.
  intros Hk Hp. rewrite digits2_pos_log2.
  apply Z.log2_lt_pow2 in Hp; lia.
Qed.

Lemma iter_xO_value p d : Zpos (Pos.iter xO p d) = Zpos p * 2 ^ Zpos d.
Proof.
  induction d as [|d IH] using Pos.peano_ind.
  - simpl. lia.
  - rewrite Pos.iter_succ, Pos2Z.inj_xO, IH, Pos2Z.inj_succ, Z.pow_succ_r by lia.
    lia.
Qed.

Lemma iter_xO_digits p d :
  Zpos (digits2_pos (Pos.iter xO p d)) = Zpos (digits2_pos p) + Zpos d.
Proof.
  induction d as [|d IH] using Pos.peano_ind.
  - simpl. lia.
  - rewrite Pos.iter_succ. simpl digits2_pos. rewrite Pos2Z.inj_succ, IH. lia.
Qed.

(** A canonical mantissa is left as it is by the rounding. *)
Lemma binary_round_aux_exact s m e :
  Zpos (digits2_pos m) = 53 -> -1074 <= e <= 971 ->
  binary_round_aux prec emax s (Zpos m) e loc_Exact = S754_finite s m e.
Proof.
  intros Hd He. unfold binary_round_aux, shr_fexp. simpl Zdigits2.
  rewrite Hd.
  assert (Hf : fexp prec emax (53 + e) - e = 0).
  { unfold fexp, SpecFloat.emin, prec, emax. lia. }
  rewrite Hf. simpl. rewrite Hd, Hf. simpl.
  replace (e <=? emax - prec) with true; [done|].
  symmetry. apply Z.leb_le. unfold emax, prec. lia.
Qed.

(** The double of a positive integer below [2^53]: the integer itself,
    shifted to 53 bits. *)
Lemma binary_round_integer p :
  Zpos p < 2 ^ 53 ->
  exists m e, (forall s, binary_round prec emax s p 0 = S754_finite s m e) /\
              -52 <= e <= 0 /\ Zpos m = Zpos p * 2 ^ (- e).
Proof.
  intros Hp. pose proof (digits2_pos_bound p 53 ltac:(lia) Hp) as Hd.
  unfold binary_round, shl_align.
  assert (Hf : fexp prec emax (Zpos (digits2_pos p) + 0) = Zpos (digits2_pos p) - 53).
  { unfold fexp, SpecFloat.emin, prec, emax. lia. }
  rewrite Hf, Z.sub_0_r.
  destruct (Zpos (digits2_pos p) - 53) as [|q|q] eqn:Hq; try lia.
  - exists p, 0. split; [|split; [lia|simpl; lia]].
    intros s. apply binary_round_aux_exact; lia.
  - exists (Pos.iter xO p q), (Zneg q). split; [|split; [lia|]].
    + intros s. apply binary_round_aux_exact; [|lia]. rewrite iter_xO_digits. lia.
    + rewrite iter_xO_value. reflexivity.
Qed.

Lemma of_uint_acc_value d acc :
  Zpos (Pos.of_uint_acc d acc) = uintValue d (Zpos acc).
Proof.
  revert acc. induction d as [|d IH|d IH|d IH|d IH|d IH|d IH|d IH|d IH|d IH|d IH];
    intros acc; simpl; [done|rewrite IH; f_equal; lia..].
Qed.

Lemma of_uint_value d : Z.of_N (Pos.of_uint d) = uintValue d 0.
Proof.
  induction d as [|d IH|d IH|d IH|d IH|d IH|d IH|d IH|d IH|d IH|d IH];
    simpl; [done|exact IH|apply of_uint_acc_value..].
Qed.

Lemma to_uint_value z : 0 <= z -> uintValue (N.to_uint (Z.to_N z)) 0 = z.
Proof.
  intros Hz. rewrite <- of_uint_value.
  change (Pos.of_uint ?d) with (N.of_uint d).
  rewrite DecimalN.Unsigned.of_to. by apply Z2N.id.
Qed.

Lemma length_string_of_uint d :
  String.length (NilEmpty.string_of_uint d) = Decimal.nb_digits d.
Proof. induction d; simpl; congruence. Qed.

Lemma readDigits_uint d t acc count :
  readDigits 10 (NilEmpty.string_of_uint d +:+ t) acc count
  = readDigits 10 t (uintValue d acc) (count + Decimal.nb_digits d).
Proof.
  revert acc count.
  induction d as [|d IH|d IH|d IH|d IH|d IH|d IH|d IH|d IH|d IH|d IH];
    intros acc count; simpl NilEmpty.string_of_uint;
    [by rewrite append_empty_l, Nat.add_0_r|..];
    rewrite append_cons; simpl readDigits; rewrite IH; simpl;
    rewrite ?Z.add_0_r; f_equal; lia.
Qed.

Lemma readDigits_zeros p acc count :
  readDigits 10 (zeros p) acc count = (acc * 10 ^ Z.of_nat p, (count + p)%nat, EmptyString).
Proof.
  revert acc count. induction p as [|p IH]; intros acc count.
  - simpl. rewrite Z.mul_1_r, Nat.add_0_r. reflexivity.
  - cbn [zeros readDigits]. change (digitValue 10 "0") with (Some 0).
    cbv iota beta. rewrite IH, Nat2Z.inj_succ, Z.pow_succ_r by lia.
    replace ((acc * 10 + 0) * 10 ^ Z.of_nat p)
      with (acc * (10 * 10 ^ Z.of_nat p)) by lia.
    by replace (S count + p)%nat with (count + S p)%nat by lia.
Qed.

Lemma uintValue_lower d acc :
  0 <= acc -> acc * 10 ^ Z.of_nat (Decimal.nb_digits d) <= uintValue d acc.
Proof.
  revert acc. induction d as [|d IH|d IH|d IH|d IH|d IH|d IH|d IH|d IH|d IH|d IH];
    intros acc Hacc; cbn [uintValue Decimal.nb_digits];
    [simpl; lia|rewrite Nat2Z.inj_succ, Z.pow_succ_r by lia..].
  all: match goal with
       | |- _ <= uintValue ?d ?a =>
           etrans; [|apply (IH a); lia];
           pose proof (Z.pow_nonneg 10 (Z.of_nat (Decimal.nb_digits d)) ltac:(lia)); nia
       end.
Qed.

(** A positive integer is at least the power of ten of its last digit. *)
Lemma decimalString_lower z :
  0 < z -> 10 ^ (Z.of_nat (String.length (decimalString z)) - 1) <= z.
Proof.
  intros Hz. unfold decimalString. rewrite length_string_of_uint.
  pose proof (to_uint_value z ltac:(lia)) as Hv.
  destruct (Z.to_N z) as [|p] eqn:Hp; [lia|]. simpl N.to_uint in *.
  pose proof (DecimalPos.Unsigned.to_of (Pos.to_uint p)) as Hn.
  rewrite DecimalPos.Unsigned.of_to in Hn. simpl in Hn.
  pose proof (Unsigned.to_uint_nonzero p) as Hnz.
  assert (Hhead : Decimal.nzhead (Pos.to_uint p) = Pos.to_uint p).
  { rewrite Hn at 2. symmetry. apply unorm_nzhead. intros Hnil.
    apply Hnz. rewrite Hn. by apply unorm_0. }
  destruct (Pos.to_uint p) as [|d|d|d|d|d|d|d|d|d|d] eqn:Hd;
    [done|by apply nzhead_nonzero in Hhead|..];
    cbn [uintValue Decimal.nb_digits] in *; rewrite Nat2Z.inj_succ;
    replace (Z.succ (Z.of_nat (Decimal.nb_digits d)) - 1) with (Z.of_nat (Decimal.nb_digits d)) by lia.
  all: match type of Hv with
       | uintValue ?d ?a = _ =>
           pose proof (uintValue_lower d a ltac:(lia));
           pose proof (Z.pow_nonneg 10 (Z.of_nat (Decimal.nb_digits d)) ltac:(lia)); nia
       end.
Qed.

(** The first character of the decimal text of a positive integer is not
    [0]. *)
Lemma decimalString_head z :
  0 < z ->
  exists c rest, decimalString z = String c rest /\
    Ascii.eqb c "0" = false /\ Ascii.eqb c "-" = false /\
    Ascii.eqb c "+" = false /\ Ascii.eqb c "I" = false.
Proof.
  intros Hz. unfold decimalString.
  destruct (Z.to_N z) as [|p] eqn:Hp; [lia|]. simpl N.to_uint in *.
  pose proof (DecimalPos.Unsigned.to_of (Pos.to_uint p)) as Hn.
  rewrite DecimalPos.Unsigned.of_to in Hn. simpl in Hn.
  pose proof (Unsigned.to_uint_nonzero p) as Hnz.
  assert (Hhead : Decimal.nzhead (Pos.to_uint p) = Pos.to_uint p).
  { rewrite Hn at 2. symmetry. apply unorm_nzhead. intros Hnil.
    apply Hnz. rewrite Hn. by apply unorm_0. }
  destruct (Pos.to_uint p) as [|d|d|d|d|d|d|d|d|d|d] eqn:Hd;
    [done|by apply nzhead_nonzero in Hhead|..]; simpl; eauto 10.
Qed.

Lemma sameNumber_eq x y : sameNumber x y = true -> x = y.
Proof.
  destruct x as [| | |s1 m1 e1], y as [| | |s2 m2 e2]; simpl; try done.
  intros [[H1 H2]%andb_true_iff H3]%andb_true_iff.
  apply Bool.eqb_prop in H1. apply Pos.eqb_eq in H2. apply Z.eqb_eq in H3.
  congruence.
Qed.

Lemma sameNumber_refl s m e :
  sameNumber (S754_finite s m e) (S754_finite s m e) = true.
Proof. simpl. by rewrite Bool.eqb_reflx, Pos.eqb_refl, Z.eqb_refl. Qed.

Lemma sameNumber_positive m e x :
  sameNumber (roundDecimal false m e) x = true -> 0 < m.
Proof. destruct m; simpl; [done|lia|done]. Qed.

Lemma roundDecimal_integer negative m e :
  0 < m -> 0 <= e <= 400 ->
  roundDecimal negative m e
  = binary_round prec emax negative (Z.to_pos (m * 10 ^ e)) 0.
Proof.
  intros Hm He. destruct m as [|p|p]; [lia| |lia]. unfold roundDecimal.
  pose proof (Z.log2_nonneg (Zpos p)).
  replace (400 <? e) with false by lia.
  replace (e + Z.log2 (Zpos p) + 1 <? -400) with false by lia.
  by replace (0 <=? e) with true by lia.
Qed.

Lemma shortestDigits_eq fuel x num den n k :
  shortestDigits (S fuel) x num den n k
  = let p := n - k in
    let '(lo, hi_closer) := scaledFloor num den p in
    let lo_ok := sameNumber (roundDecimal false lo p) x in
    let hi_ok := sameNumber (roundDecimal false (lo + 1) p) x in
    if lo_ok && hi_ok then (if hi_closer then (lo + 1, p) else (lo, p))
    else if lo_ok then (lo, p)
    else if hi_ok then (lo + 1, p)
    else shortestDigits fuel x num den n (k + 1).
Proof. reflexivity. Qed.

(** When the [n] digits of the integer part read back as [x], the search
    stops at [n] digits or fewer, on digits that read back as [x]. *)
Lemma shortestDigits_found x num den n fuel k :
  1 <= k <= n -> (Z.to_nat (n - k) < fuel)%nat ->
  sameNumber (roundDecimal false (num / den) 0) x = true ->
  let r := shortestDigits fuel x num den n k in
  sameNumber (roundDecimal false r.1 r.2) x = true /\
  0 <= r.2 <= n - 1 /\
  r.1 <= num / (den * 10 ^ r.2) + 1.
Proof.
  revert k. induction fuel as [|fuel IH]; intros k Hk Hfuel Hn; [lia|].
  cbv zeta. rewrite shortestDigits_eq. cbv zeta. unfold scaledFloor.
  replace (0 <=? n - k) with true by lia.
  set (lo := num / (den * 10 ^ (n - k))).
  destruct (sameNumber (roundDecimal false lo (n - k)) x) eqn:Hlo;
    destruct (sameNumber (roundDecimal false (lo + 1) (n - k)) x) eqn:Hhi;
    cbn [andb].
  - match goal with |- context [if ?c then _ else _] => destruct c end;
      cbn [fst snd]; (split; [done|split; [lia|subst lo; lia]]).
  - cbn [fst snd]. split; [done|split; [lia|subst lo; lia]].
  - cbn [fst snd]. split; [done|split; [lia|subst lo; lia]].
  - assert (k <> n) as Hne.
    { intros ->. subst lo. rewrite Z.sub_diag in Hlo.
      change (10 ^ 0) with 1 in Hlo. rewrite Z.mul_1_r in Hlo. congruence. }
    apply (IH (k + 1)); [lia|lia|done].
Qed.

Lemma stripZeros_spec fuel s p :
  0 < s -> 0 <= p ->
  let r := stripZeros fuel s p in
  r.1 * 10 ^ r.2 = s * 10 ^ p /\ p <= r.2 /\ 0 < r.1.
Proof.
  revert s p. induction fuel as [|fuel IH]; intros s p Hs Hp; [done|].
  cbv zeta. cbn [stripZeros].
  destruct ((0 <? s) && (s mod 10 =? 0)) eqn:Htest; [|done].
  apply andb_true_iff in Htest as [_ Hmod%Z.eqb_eq].
  pose proof (Z.div_mod s 10 ltac:(lia)) as Hdiv. rewrite Hmod in Hdiv.
  destruct (IH (s / 10) (p + 1) ltac:(lia) ltac:(lia)) as (Hval & Hle & Hpos).
  split; [|split; [lia|done]].
  rewrite Hval, Z.pow_add_r by lia. change (10 ^ 1) with 10. lia.
Qed.

Lemma digitValue_none c : digitValue 0 c = None.
Proof.
  unfold digitValue.
  repeat match goal with
         | |- context [if ?c then _ else _] => destruct c eqn:?
         end; try done; lia.
Qed.

Lemma readNonDecimal_decimal c rest :
  Ascii.eqb c "0" = false -> readNonDecimal (String c rest) = None.
Proof.
  intros Hc. destruct rest as [|x rest]; [done|].
  unfold readNonDecimal. rewrite Hc. cbn [negb].
  destruct rest as [|y rest]; [done|].
  cbn [readDigits]. by rewrite digitValue_none.
Qed.

Lemma binary_round_opp m e :
  binary_round prec emax true m e = SFopp (binary_round prec emax false m e).
Proof.
  unfold binary_round. destruct (shl_align _ _ _) as [mz ez].
  unfold binary_round_aux.
  destruct (shr_fexp _ _ _ _ _) as [mrs e'].
  destruct (shr_fexp _ _ _ _ _) as [mrs' e''].
  destruct (shr_m mrs') as [|q|q]; [done| |done].
  by destruct (e'' <=? emax - prec).
Qed.

Lemma stringToNumber_literal t l :
  plainText t = true -> t <> EmptyString -> readLiteral t = Some l ->
  stringToNumber t = literalValue l.
Proof.
  intros Hplain Hne Hread. unfold stringToNumber. rewrite trim_plain by done.
  destruct t; [done|]. by rewrite Hread.
Qed.

(** The text of the integer [s * 10^q] is read as that integer. *)
Lemma stringToNumber_integer (negative : bool) s q :
  0 < s ->
  stringToNumber ((if negative then "-" else "") +:+ decimalString s +:+ zeros q)
  = binary_round prec emax negative (Z.to_pos (s * 10 ^ Z.of_nat q)) 0.
Proof.
  intros Hs.
  destruct (decimalString_head s Hs) as (c & rest & Htext & Hc0 & Hcm & Hcp & HcI).
  assert (Hread : readDigits 10 (decimalString s +:+ zeros q) 0 0
                  = (s * 10 ^ Z.of_nat q,
                     (String.length (decimalString s) + q)%nat, EmptyString)).
  { unfold decimalString. rewrite readDigits_uint, readDigits_zeros.
    rewrite to_uint_value by lia. by rewrite length_string_of_uint. }
  assert (Hlit : readLiteral ((if negative then "-" else "")
                              +:+ decimalString s +:+ zeros q)
                 = Some (DecimalLiteral negative (s * 10 ^ Z.of_nat q) 0)).
  { unfold readLiteral.
    assert (Hnon : readNonDecimal ((if negative then "-" else "")
                                   +:+ decimalString s +:+ zeros q) = None).
    { destruct negative.
      - rewrite append_cons. by apply readNonDecimal_decimal.
      - rewrite append_empty_l, Htext, append_cons.
        by apply readNonDecimal_decimal. }
    rewrite Hnon. unfold readDecimal.
    assert (Hsign : readSign ((if negative then "-" else "")
                              +:+ decimalString s +:+ zeros q)
                    = (negative, decimalString s +:+ zeros q)).
    { destruct negative.
      - rewrite append_cons, append_empty_l. reflexivity.
      - rewrite append_empty_l, Htext, append_cons. unfold readSign.
        by rewrite Hcm, Hcp. }
    rewrite Hsign.
    assert (Hinf : String.eqb (decimalString s +:+ zeros q) "Infinity" = false).
    { rewrite Htext, append_cons. cbn [String.eqb]. by rewrite HcI. }
    rewrite Hinf, Hread, Htext. cbn [String.length Nat.add]. reflexivity. }
  erewrite stringToNumber_literal; [|..|exact Hlit].
  2:{ rewrite !plainText_append, plainText_decimalString, plainText_zeros.
      by destruct negative. }
  2:{ destruct negative; [by rewrite append_cons|].
      by rewrite append_empty_l, Htext, append_cons. }
  cbn [literalValue].
  assert (0 < 10 ^ Z.of_nat q) by (apply Z.pow_pos_nonneg; lia).
  rewrite roundDecimal_integer by nia.
  change (10 ^ 0) with 1. by rewrite Z.mul_1_r.
Qed.

(** The text of a double that is an integer below [2^53]: the digits of an
    integer and zeros, which read back as the double. *)
Lemma toString_integer (negative : bool) m e z :
  0 < z < 2 ^ 53 -> -52 <= e <= 0 -> Zpos m = z * 2 ^ (- e) ->
  binary_round prec emax false (Z.to_pos z) 0 = S754_finite false m e ->
  exists s q,
    toString (S754_finite negative m e)
    = (if negative then "-" else "") +:+ decimalString s +:+ zeros q /\
    0 < s /\
    binary_round prec emax false (Z.to_pos (s * 10 ^ Z.of_nat q)) 0
    = S754_finite false m e.
Proof.
  intros Hz He Hm Hround. unfold toString.
  set (num := if 0 <=? e then Zpos m * 2 ^ e else Zpos m).
  set (den := if 0 <=? e then 1 else 2 ^ (- e)).
  assert (Hnum : num = z * den /\ 0 < den).
  { subst num den. destruct (Z.leb_spec 0 e).
    - replace e with 0 in * by lia. simpl in Hm. lia.
    - split; [done|]. apply Z.pow_pos_nonneg; lia. }
  destruct Hnum as [Hnum Hden].
  assert (Hquot : num / den = z) by (rewrite Hnum; apply Z.div_mul; lia).
  assert (Hpoint : decimalPoint num den = Z.of_nat (String.length (decimalString z))).
  { unfold decimalPoint. rewrite Hquot.
    by replace (den <=? num) with true by (symmetry; apply Z.leb_le; nia). }
  rewrite Hpoint. set (n := Z.of_nat (String.length (decimalString z))).
  pose proof (decimalString_lower z ltac:(lia)) as Hlow. fold n in Hlow.
  assert (Hn : 1 <= n <= 16).
  { split.
    - subst n. pose proof (decimalString_not_empty z).
      destruct (decimalString z); [done|]. simpl String.length. lia.
    - assert (10 ^ (n - 1) < 10 ^ 16) as Hlt by (change (10 ^ 16) with 10000000000000000; change (2 ^ 53) with 9007199254740992 in Hz; lia).
      apply Z.pow_lt_mono_r_iff in Hlt; lia. }
  pose proof (shortestDigits_found (S754_finite false m e) num den n 17 1
                ltac:(lia) ltac:(lia)) as Hfound.
  rewrite Hquot, roundDecimal_integer in Hfound by lia.
  change (10 ^ 0) with 1 in Hfound. rewrite Z.mul_1_r, Hround in Hfound.
  specialize (Hfound (sameNumber_refl _ _ _)). cbv zeta in Hfound.
  destruct (shortestDigits 17 (S754_finite false m e) num den n 1) as [s0 p0].
  cbn [fst snd] in Hfound. destruct Hfound as (Hsame & Hp0 & Hs0).
  pose proof (sameNumber_positive _ _ _ Hsame) as Hs0pos.
  pose proof (stripZeros_spec 400 s0 p0 Hs0pos ltac:(lia)) as Hstrip.
  cbv zeta in Hstrip. destruct (stripZeros 400 s0 p0) as [s p].
  cbn [fst snd] in Hstrip. destruct Hstrip as (Hval & Hp & Hspos).
  (* the magnitude of the digits *)
  assert (Hp0pos : 0 < 10 ^ p0) by (apply Z.pow_pos_nonneg; lia).
  assert (Hbound : s0 * 10 ^ p0 < 10 ^ 17).
  { assert (num / (den * 10 ^ p0) = z / 10 ^ p0) as Hq.
    { rewrite Hnum, (Z.mul_comm z den). apply Z.div_mul_cancel_l; lia. }
    rewrite Hq in Hs0.
    pose proof (Z.mul_div_le z (10 ^ p0) Hp0pos).
    assert (10 ^ p0 <= 10 ^ (n - 1)) by (apply Z.pow_le_mono_r; lia).
    change (10 ^ 17) with 100000000000000000.
    change (2 ^ 53) with 9007199254740992 in Hz. nia. }
  set (k := Z.of_nat (String.length (decimalString s))).
  pose proof (decimalString_lower s Hspos) as Hslow. fold k in Hslow.
  assert (Hk : 1 <= k).
  { subst k. pose proof (decimalString_not_empty s).
    destruct (decimalString s); [done|]. simpl String.length. lia. }
  assert (Hkp : k + p <= 17).
  { assert (10 ^ (k - 1 + p) < 10 ^ 17) as Hlt.
    { rewrite Z.pow_add_r by lia.
      assert (0 < 10 ^ p) by (apply Z.pow_pos_nonneg; lia). nia. }
    apply Z.pow_lt_mono_r_iff in Hlt; lia. }
  exists s, (Z.to_nat p). split; [|split; [done|]].
  - f_equal. unfold layout. fold k.
    replace ((k <=? k + p) && (k + p <=? 21)) with true
      by (symmetry; apply andb_true_iff; split; apply Z.leb_le; lia).
    by replace (k + p - k) with p by lia.
  - rewrite Z2Nat.id, Hval by lia.
    rewrite <- roundDecimal_integer by lia.
    by apply sameNumber_eq.
Qed.

Lemma numberEquals_finite s m e :
  numberEquals (S754_finite s m e) (S754_finite s m e) = true.
Proof.
  unfold numberEquals, SFeqb, SFcompare. rewrite Z.compare_refl.
  destruct s; by rewrite ?Pos.compare_cont_refl.
Qed.

(** Every integer that a double holds exactly below [2^53] reads back. *)
Lemma safe_integers_read_back z :
  Z.abs z < 2 ^ 53 -> readsBack (numberOfZ z) = true.
Proof.
  intros Hz. destruct z as [|p|p]; [done|..].
  - destruct (binary_round_integer p Hz) as (m & e & Hround & He & Hm).
    unfold readsBack, numberOfZ, binary_normalize. rewrite Hround.
    destruct (toString_integer false m e (Zpos p)) as (s & q & -> & Hs & Hback);
      [lia|done|done|apply Hround|].
    rewrite (stringToNumber_integer false), Hback by done.
    apply numberEquals_finite.
  - destruct (binary_round_integer p Hz) as (m & e & Hround & He & Hm).
    unfold readsBack, numberOfZ, binary_normalize. rewrite Hround.
    destruct (toString_integer true m e (Zpos p)) as (s & q & -> & Hs & Hback);
      [lia|done|done|apply Hround|].
    rewrite (stringToNumber_integer true), binary_round_opp, Hback by done.
    apply numberEquals_finite.
Qed.

End JSIntegers.

(** A list of integers below [2^53] is a value of the round trip. *)
Lemma roundTrips_integers id (zs : list Z) :
  Forall (fun z => (Z.abs z < 2 ^ 53)%Z) zs ->
  roundTrips (LArray id (List.map (fun z => LNumber (JS.numberOfZ z)) zs)) = true.
Proof.
  intros Hzs. simpl. induction Hzs as [|z zs Hz _ IH]; [done|].
  simpl. by rewrite (JSIntegers.safe_integers_read_back z Hz), IH.
Qed.

(** The integers from -1000 to 1000 read back, and so do the same over 64;
    [NaN] does not. *)
Example small_numbers_read_back :
  forallb (fun i => readsBack (JS.numberOfZ (Z.of_nat i - 1000)))
    (seq 0 2001) = true /\
  forallb (fun i => readsBack (JS.div (JS.numberOfZ (Z.of_nat i - 1000))
                                 (JS.numberOfZ 64)))
    (seq 0 2001) = true /\
  readsBack JS.NaN = false.
Proof. repeat apply conj; vm_compute; reflexivity. Qed.




(** * Further properties *)

(** ** The tokenizer *)

Lemma pad_character c :
  pad (String c EmptyString)
  = if isDelimiterChar c then String " " (String c " ") else String c EmptyString.
Proof. each_character c. Qed.

Lemma isDelimiterChar_not_whitespace c :
  isDelimiterChar c = true -> JS.isWhitespace c = false.
Proof. destruct c as [[] [] [] [] [] [] [] []]; done. Qed.

Lemma scanTokens_cons piece c rest :
  scanTokens piece (String c rest)
  = if JS.isWhitespace c then single piece ++ scanTokens EmptyString rest
    else if isDelimiterChar c then
      single piece ++ String c EmptyString :: scanTokens EmptyString rest
    else scanTokens (piece +:+ String c EmptyString) rest.
Proof. reflexivity. Qed.

Lemma wordsFrom_space piece s :
  wordsFrom piece (String " " s) = single piece ++ wordsFrom EmptyString s.
Proof. reflexivity. Qed.

Lemma wordsFrom_pad piece s : wordsFrom piece (pad s) = scanTokens piece s.
Proof.
  revert piece. induction s as [|c s IH]; intros piece; [done|].
  rewrite scanTokens_cons.
  change (String c s) with (String c EmptyString +:+ s).
  rewrite pad_app, pad_character.
  destruct (isDelimiterChar c) eqn:Hd.
  - rewrite (isDelimiterChar_not_whitespace c Hd).
    rewrite !append_cons, append_empty_l, wordsFrom_space. f_equal.
    rewrite wordsFrom_cons, (isDelimiterChar_not_whitespace c Hd), append_empty_l.
    by rewrite wordsFrom_space, IH.
  - rewrite append_cons, append_empty_l, wordsFrom_cons.
    destruct (JS.isWhitespace c); by rewrite IH.
Qed.

Lemma tokenize_scanTokens input : tokenize input = scanTokens EmptyString input.
Proof. by rewrite tokenize_words, wordsFrom_pad. Qed.

Lemma plainText_snoc piece c :
  plainText piece = true -> JS.isWhitespace c = false -> isDelimiterChar c = false ->
  plainText (piece +:+ String c EmptyString) = true.
Proof.
  intros Hp Hw Hd. rewrite plainText_append, Hp. simpl. by rewrite Hw, Hd.
Qed.

Lemma delimiter_character c :
  isDelimiterChar c = true -> isDelimiter (String c EmptyString) = true.
Proof. destruct c as [[] [] [] [] [] [] [] []]; done. Qed.

Lemma single_atom piece :
  plainText piece = true ->
  Forall (fun t => isDelimiter t || atomText t = true) (single piece).
Proof.
  intros Hp. destruct piece as [|c piece]; [constructor|].
  constructor; [|constructor].
  apply orb_true_iff. right. by apply atomText_intro.
Qed.

Lemma scanTokens_shape piece s :
  plainText piece = true ->
  Forall (fun t => isDelimiter t || atomText t = true) (scanTokens piece s).
Proof.
  revert piece. induction s as [|c s IH]; intros piece Hp; cbn [scanTokens].
  - by apply single_atom.
  - destruct (JS.isWhitespace c) eqn:Hw.
    { apply Forall_app. split; [by apply single_atom|by apply IH]. }
    destruct (isDelimiterChar c) eqn:Hd.
    + apply Forall_app. split; [by apply single_atom|].
      constructor; [|by apply IH].
      by rewrite (delimiter_character c Hd).
    + apply IH. by apply plainText_snoc.
Qed.

(** X1. Every token [tokenize] gives is one of the three delimiters [(], [)]
    and ['], or an atom text: not empty, without whitespace and without a
    delimiter character. *)
Theorem tokenize_token_shape input :
  Forall (fun t => isDelimiter t || atomText t = true) (tokenize input).
Proof.
  rewrite tokenize_scanTokens. by apply scanTokens_shape.
Qed.







Lemma tokenize_atom t : atomText t = true -> tokenize t = [t].
Proof.
  intros H. rewrite tokenize_words, pad_plain by by apply atomText_plain.
  by apply wordsFrom_atom.
Qed.

Lemma tokenize_join parts :
  tokenize (JS.join " " parts) = concat (List.map tokenize parts).
Proof.
  rewrite tokenize_words, pad_join, wordsFrom_join, List.map_map.
  f_equal. apply List.map_ext. intros a. by rewrite tokenize_words.
Qed.



Lemma tokenize_at_whitespace a c b :
  JS.isWhitespace c = true ->
  tokenize (a +:+ String c b) = tokenize a ++ tokenize b.
Proof.
  intros Hw. rewrite !tokenize_words, pad_app.
  change (String c b) with (String c EmptyString +:+ b).
  rewrite pad_app, pad_character.
  replace (isDelimiterChar c) with false
    by (destruct (isDelimiterChar c) eqn:Hd; [|done];
        by rewrite (isDelimiterChar_not_whitespace c Hd) in Hw).
  rewrite append_cons, append_empty_l. by apply wordsFrom_split.
Qed.

Lemma tokenize_at_delimiter a c b :
  isDelimiterChar c = true ->
  tokenize (a +:+ String c b) = tokenize a ++ String c EmptyString :: tokenize b.
Proof.
  intros Hd. rewrite !tokenize_words, pad_app.
  change (String c b) with (String c EmptyString +:+ b).
  rewrite pad_app, pad_character, Hd, !append_cons, append_empty_l.
  rewrite wordsFrom_split by done. f_equal.
  rewrite wordsFrom_cons, (isDelimiterChar_not_whitespace c Hd), append_empty_l.
  by rewrite wordsFrom_space.
Qed.

(** X4. Whitespace and the delimiter characters are token boundaries: the
    tokens of a text are those of the part before such a character, the
    delimiter itself if it is one, and those of the part after it. *)
Theorem tokenize_boundary a c b :
  (JS.isWhitespace c = true ->
   tokenize (a +:+ String c b) = tokenize a ++ tokenize b) /\
  (isDelimiterChar c = true ->
   tokenize (a +:+ String c b) = tokenize a ++ String c EmptyString :: tokenize b).
Proof.
  split.
  - apply tokenize_at_whitespace.
  - apply tokenize_at_delimiter.
Qed.

Lemma tokenize_boundary_witness :
  tokenize ("(f x" +:+ String ")" "(g)") = tokenize "(f x" ++ ")" :: tokenize "(g)".
Proof.
  apply (proj2 (tokenize_boundary "(f x" ")" "(g)")). reflexivity.
Defined.

(** ** The parser and the syntax of the input *)

Lemma syntaxAfter_open tokens i d :
  tokens !! i = Some "(" ->
  syntaxAfter (drop i tokens) d = syntaxAfter (drop (S i) tokens) (S d).
Proof. intros H. by rewrite (drop_S _ _ _ H). Qed.

Lemma syntaxAfter_close tokens i d :
  tokens !! i = Some ")" ->
  syntaxAfter (drop i tokens) (S d) = syntaxAfter (drop (S i) tokens) d.
Proof. intros H. by rewrite (drop_S _ _ _ H). Qed.

Lemma syntaxAfter_atom tokens i t d :
  tokens !! i = Some t -> isDelimiter t = false ->
  syntaxAfter (drop i tokens) d = syntaxAfter (drop (S i) tokens) d.
Proof.
  intros H Hd. rewrite (drop_S _ _ _ H). unfold isDelimiter in Hd.
  apply orb_false_iff in Hd as [[Ho Hc]%orb_false_iff Hq].
  simpl. by rewrite Ho, Hc, Hq.
Qed.

Lemma syntaxAfter_quote tokens i u d :
  tokens !! i = Some "'" -> tokens !! (S i) = Some u ->
  syntaxAfter (drop i tokens) d
  = if String.eqb u ")" then StrayClose else syntaxAfter (drop (S i) tokens) d.
Proof.
  intros H Hu. rewrite (drop_S _ _ _ H), (drop_S _ _ _ Hu). reflexivity.
Qed.

Lemma syntaxAfter_quote_end tokens i d :
  tokens !! i = Some "'" -> tokens !! (S i) = None ->
  syntaxAfter (drop i tokens) d = QuoteAtEnd.
Proof.
  intros H Hu. rewrite (drop_S _ _ _ H).
  apply lookup_ge_None in Hu. by rewrite drop_ge.
Qed.

Lemma parseItems_syntax parseOne fuel tokens items i next :
  (forall j n t, i <= j -> tokens !! j = Some t -> String.eqb t ")" = false ->
                 expressionSyntax tokens j (parseOne j n)) ->
  length tokens - i < fuel ->
  itemsSyntax tokens i (parseItems parseOne fuel tokens items i next).
Proof.
  revert items i next.
  induction fuel as [|fuel IH]; intros items i next Hone Hfuel; [lia|].
  rewrite parseItems_eq.
  destruct (i <? length tokens) eqn:Hlt; simpl.
  - apply Nat.ltb_lt in Hlt.
    destruct (lookup_lt_is_Some_2 tokens i Hlt) as [t Ht].
    rewrite (tokenIs_false _ _ _ _ Ht).
    destruct (String.eqb t ")") eqn:Hclose; simpl.
    + apply String.eqb_eq in Hclose. subst t.
      replace (length tokens <=? i) with false
        by (symmetry; apply Nat.leb_gt; lia).
      simpl. split; [lia|]. intros d.
      rewrite Nat.add_1_r. by apply syntaxAfter_close.
    + pose proof (Hone i next t (Nat.le_refl i) Ht Hclose) as Hstep.
      destruct (parseOne i next) as [[expr k] n'|e n'| |];
        simpl in Hstep; try done.
      * destruct Hstep as [Hk Hsame].
        assert (Hrec : itemsSyntax tokens k
                  (parseItems parseOne fuel tokens (items ++ [expr]) k n')).
        { apply IH; [|lia]. intros j n u Hj. apply Hone. lia. }
        destruct (parseItems parseOne fuel tokens (items ++ [expr]) k n')
          as [[its j] n''|e n''| |]; simpl in *; try done.
        -- destruct Hrec as [Hj Hd]. split; [lia|].
           intros d. by rewrite Hsame, Hd.
        -- destruct Hrec as (v & Hv & Hd). exists v. split; [done|].
           intros d. by rewrite Hsame, Hd.
      * destruct Hstep as (v & Hv & Hd). exists v. split; [done|].
        intros d. apply Hd.
  - apply Nat.ltb_ge in Hlt.
    replace (length tokens <=? i) with true
      by (symmetry; apply Nat.leb_le; lia).
    simpl. exists OpenList. split; [done|]. intros d.
    by rewrite drop_ge by lia.
Qed.

Lemma parseExpression_syntax fuel tokens index next t :
  length tokens - index < fuel ->
  tokens !! index = Some t -> String.eqb t ")" = false ->
  expressionSyntax tokens index (parseExpression fuel tokens index next).
Proof.
  revert index next t.
  induction fuel as [|fuel IH]; intros index next t Hfuel Ht Hclose; [lia|].
  pose proof (lookup_lt_Some _ _ _ Ht) as Hlt.
  rewrite parseExpression_eq, !(tokenIs_false _ _ _ _ Ht), Hclose.
  destruct (String.eqb t "(") eqn:Hopen.
  - apply String.eqb_eq in Hopen. subst t.
    assert (Hitems : itemsSyntax tokens (index + 1)
              (parseItems (parseExpression fuel tokens) fuel tokens []
                 (index + 1) (S next))).
    { apply parseItems_syntax; [|lia].
      intros j n u Hj Hu Hc. apply (IH j n u); [lia|done..]. }
    rewrite Nat.add_1_r in *.
    destruct (parseItems _ fuel tokens [] (S index) (S next))
      as [[its j] n'|e n'| |]; simpl in *; try done.
    + destruct Hitems as [Hj Hd]. split; [lia|].
      intros d. by rewrite (syntaxAfter_open _ _ _ Ht), Hd.
    + destruct Hitems as (v & Hv & Hd). exists v. split; [done|].
      intros d. by rewrite (syntaxAfter_open _ _ _ Ht), Hd.
  - destruct (String.eqb t "'") eqn:Hquote.
    + apply String.eqb_eq in Hquote. subst t. rewrite Nat.add_1_r.
      destruct (tokens !! S index) as [u|] eqn:Hu.
      * pose proof (lookup_lt_Some _ _ _ Hu) as Hlt'.
        destruct (String.eqb u ")") eqn:Hc.
        -- (* the quote is followed by [)] *)
           destruct fuel as [|fuel]; [lia|].
           rewrite parseExpression_eq, !(tokenIs_false _ _ _ _ Hu), Hc.
           replace (String.eqb u "(") with false
             by (apply String.eqb_eq in Hc; by subst u).
           simpl. exists StrayClose. split; [done|]. intros d.
           by rewrite (syntaxAfter_quote _ _ u _ Ht Hu), Hc.
        -- pose proof (IH (S index) next u ltac:(lia) Hu Hc) as Hrec.
           assert (Hskip : forall d, syntaxAfter (drop index tokens) d
                                     = syntaxAfter (drop (S index) tokens) d).
           { intros d. by rewrite (syntaxAfter_quote _ _ u _ Ht Hu), Hc. }
           destruct (parseExpression fuel tokens (S index) next)
             as [[expr j] n'|e n'| |]; simpl in *; try done.
           ++ destruct Hrec as [Hj Hd]. split; [lia|].
              intros d. by rewrite Hskip, Hd.
           ++ destruct Hrec as (v & Hv & Hd). exists v. split; [done|].
              intros d. by rewrite Hskip, Hd.
      * (* the quote is the last token *)
        destruct fuel as [|fuel]; [lia|].
        rewrite parseExpression_eq. unfold tokenIs. rewrite Hu.
        simpl. exists QuoteAtEnd. split; [done|]. intros d.
        by apply syntaxAfter_quote_end.
    + rewrite Ht.
      assert (Hskip : forall d, syntaxAfter (drop index tokens) d
                                = syntaxAfter (drop (index + 1) tokens) d).
      { intros d. rewrite Nat.add_1_r. apply (syntaxAfter_atom _ _ t); [done|].
        unfold isDelimiter. by rewrite Hopen, Hclose, Hquote. }
      destruct (negb _); simpl; (split; [lia | done]).
Qed.

Lemma parseAll_syntax fuel tokens result i next :
  length tokens - i < fuel ->
  match parseAll fuel tokens result i next with
  | Return _ _ => syntaxAfter (drop i tokens) 0 = WellFormed
  | Throw e _ => syntaxError (syntaxAfter (drop i tokens) 0) = Some e
  | NotModelled | OutOfFuel => False
  end.
Proof.
  revert result i next.
  induction fuel as [|fuel IH]; intros result i next Hfuel; [lia|].
  rewrite parseAll_eq.
  destruct (i <? length tokens) eqn:Hlt.
  - apply Nat.ltb_lt in Hlt.
    destruct (lookup_lt_is_Some_2 tokens i Hlt) as [t Ht].
    destruct (String.eqb t ")") eqn:Hclose.
    + apply String.eqb_eq in Hclose. subst t.
      rewrite parseExpression_eq, !(tokenIs_false _ _ _ _ Ht). simpl.
      by rewrite (drop_S _ _ _ Ht).
    + pose proof (parseExpression_syntax (S (length tokens)) tokens i next t
                    ltac:(lia) Ht Hclose) as Hstep.
      destruct (parseExpression (S (length tokens)) tokens i next)
        as [[expr j] n'|e n'| |]; simpl in Hstep; try done.
      * destruct Hstep as [Hj Hd].
        pose proof (IH (result ++ [expr]) j n' ltac:(lia)) as Hrec.
        by rewrite Hd.
      * destruct Hstep as (v & Hv & Hd). by rewrite Hd.
  - apply Nat.ltb_ge in Hlt. by rewrite drop_ge by lia.
Qed.

Lemma syntaxAfter_WellFormed ts d :
  syntaxAfter ts d = WellFormed <->
  depthAfter ts d = Some 0 /\ quotesFollowed ts = true.
Proof.
  revert d. induction ts as [|t rest IH]; intros d.
  - destruct d; simpl; [done|]. split; [done|]. by intros [? _].
  - cbn [syntaxAfter depthAfter quotesFollowed].
    destruct (String.eqb t "(") eqn:Ho.
    { apply String.eqb_eq in Ho. subst t. simpl. apply IH. }
    destruct (String.eqb t ")") eqn:Hc.
    { apply String.eqb_eq in Hc. subst t. simpl.
      destruct d as [|d]; [|apply IH]. split; [done|]. by intros [? _]. }
    destruct (String.eqb t "'") eqn:Hq.
    { destruct rest as [|u rest].
      - split; [done|]. by intros [_ ?].
      - destruct (String.eqb u ")"); simpl (negb _).
        + split; [done|]. by intros [_ ?].
        + rewrite andb_true_l. apply IH. }
    rewrite andb_true_l. apply IH.
Qed.

(** X5. [parse] returns the expressions of an input exactly when its
    parentheses balance ([)] never comes while no list is open, and no list
    is left open at the end) and every quote marker is followed by a token
    other than [)]; in every other case it throws. *)
Theorem parse_returns_iff code next :
  (exists expressions next', parse code next = Return expressions next') <->
  depthAfter (tokenize code) 0 = Some 0 /\ quotesFollowed (tokenize code) = true.
Proof.
  rewrite <- syntaxAfter_WellFormed. unfold parse.
  pose proof (parseAll_syntax (S (length (tokenize code))) (tokenize code)
                [] 0 next ltac:(lia)) as Hsyntax.
  rewrite drop_0 in Hsyntax.
  destruct (parseAll _ _ _ _ _) as [es n'|e n'| |]; try done.
  - split; [done|]. eauto.
  - split.
    + by intros (es & n'' & ?).
    + intros Hw. rewrite Hw in Hsyntax. done.
Qed.

Lemma parse_returns_iff_witness :
  exists expressions next', parse "(a '(b))" 0 = Return expressions next'.
Proof.
  apply (proj2 (parse_returns_iff "(a '(b))" 0)). split; reflexivity.
Defined.

(** X6. A syntax error stops [evaluate] before anything is evaluated.
    When, reading the tokens from left to right, a [)] comes where no list is
    open or right after a quote marker, [evaluate] throws [Unexpected closing
    parenthesis]; otherwise, when the last token is a quote marker, it throws
    the host's TypeError; otherwise, when a list is left open, it throws
    [Unmatched opening parenthesis]. In each case the environments are
    untouched and the output buffer is empty, whatever complete expressions
    come before the error. *)
Theorem evaluate_syntax_error fuel code st e :
  syntaxError (syntaxAfter (tokenize code) 0) = Some e ->
  exists st',
    evaluate fuel code st = Throw e st' /\
    heap st' = heap st /\ output st' = [].
Proof.
  intros He. unfold evaluate, parse.
  pose proof (parseAll_syntax (S (length (tokenize code))) (tokenize code)
                [] 0 (nextArray (withOutput st [])) ltac:(lia)) as Hsyntax.
  rewrite drop_0 in Hsyntax.
  destruct (parseAll _ _ _ _ _) as [es n'|e' n'| |]; try done.
  - rewrite Hsyntax in He. done.
  - rewrite He in Hsyntax. injection Hsyntax as <-. by eexists.
Qed.

Lemma evaluate_syntax_error_witness :
  exists st',
    evaluate 5 "(print 1) (car ')" newSimpleLisp
    = Throw (Error "Unexpected closing parenthesis") st' /\
    heap st' = heap newSimpleLisp /\ output st' = [].
Proof.
  apply (evaluate_syntax_error 5 "(print 1) (car ')" newSimpleLisp).
  vm_compute. reflexivity.
Defined.

(** ** The parser on texts put together *)

Lemma parseItems_completes parseOne parseOne' fuel fuel' tokens items i next :
  (forall j n, completes (parseOne j n) (parseOne' j n)) ->
  fuel <= fuel' ->
  completes (parseItems parseOne fuel tokens items i next)
            (parseItems parseOne' fuel' tokens items i next).
Proof.
  intros Hone. revert fuel' items i next.
  induction fuel as [|fuel IH]; intros fuel' items i next Hfuel; [by left|].
  destruct fuel' as [|fuel']; [lia|].
  rewrite !parseItems_eq.
  destruct ((i <? length tokens) && negb (tokenIs tokens i ")")); [|by right].
  destruct (Hone i next) as [Hout| ->]; [rewrite Hout; by left|].
  destruct (parseOne i next) as [[expr k] n'| | |]; try by right.
  apply IH. lia.
Qed.

Lemma parseExpression_completes fuel fuel' tokens index next :
  fuel <= fuel' ->
  completes (parseExpression fuel tokens index next)
            (parseExpression fuel' tokens index next).
Proof.
  revert fuel' index next.
  induction fuel as [|fuel IH]; intros fuel' index next Hfuel; [by left|].
  destruct fuel' as [|fuel']; [lia|].
  rewrite !parseExpression_eq.
  destruct (tokenIs tokens index "(").
  - destruct (parseItems_completes (parseExpression fuel tokens)
                (parseExpression fuel' tokens) fuel fuel' tokens []
                (index + 1) (S next)) as [Hout| ->].
    + intros j n. apply IH. lia.
    + lia.
    + rewrite Hout. by left.
    + by right.
  - destruct (tokenIs tokens index ")"); [by right|].
    destruct (tokenIs tokens index "'"); [|by right].
    destruct (IH fuel' (index + 1) next ltac:(lia)) as [Hout| ->].
    + rewrite Hout. by left.
    + by right.
Qed.

Lemma parseExpression_more_fuel fuel fuel' tokens index next :
  length tokens - index < fuel -> fuel <= fuel' ->
  parseExpression fuel' tokens index next = parseExpression fuel tokens index next.
Proof.
  intros Hfuel Hle.
  destruct (parseExpression_completes fuel fuel' tokens index next Hle)
    as [Hout|]; [|done].
  pose proof (parseExpression_advances fuel tokens index next Hfuel) as Hadv.
  by rewrite Hout in Hadv.
Qed.

Lemma parseExpression_Return_more_fuel fuel fuel' tokens index next r next' :
  parseExpression fuel tokens index next = Return r next' -> fuel <= fuel' ->
  parseExpression fuel' tokens index next = Return r next'.
Proof.
  intros Hr Hle.
  destruct (parseExpression_completes fuel fuel' tokens index next Hle)
    as [Hout| ->]; [congruence|done].
Qed.

Lemma parseAll_more_fuel fuel fuel' tokens result i next :
  length tokens - i < fuel -> fuel <= fuel' ->
  parseAll fuel' tokens result i next = parseAll fuel tokens result i next.
Proof.
  revert fuel' result i next.
  induction fuel as [|fuel IH]; intros fuel' result i next Hfuel Hle; [lia|].
  destruct fuel' as [|fuel']; [lia|].
  rewrite !parseAll_eq.
  destruct (i <? length tokens) eqn:Hlt; [|done].
  apply Nat.ltb_lt in Hlt.
  pose proof (parseExpression_advances (S (length tokens)) tokens i next
                ltac:(lia)) as Hstep.
  destruct (parseExpression (S (length tokens)) tokens i next)
    as [[expr j] n'| | |]; simpl in Hstep; try done.
  apply IH; lia.
Qed.

(** *** tokens before and after *)

Lemma tokenIs_shift pre tokens i text :
  tokenIs (pre ++ tokens) (length pre + i) text = tokenIs tokens i text.
Proof.
  unfold tokenIs. rewrite lookup_app_r by lia.
  by replace (length pre + i - length pre) with i by lia.
Qed.

Lemma lookup_shift (pre tokens : list string) i :
  (pre ++ tokens) !! (length pre + i) = tokens !! i.
Proof.
  rewrite lookup_app_r by lia.
  by replace (length pre + i - length pre) with i by lia.
Qed.

Lemma parseItems_shift parseOne parseOne' fuel pre tokens items i next :
  (forall j n, parseOne' (length pre + j) n
               = shiftIndex (length pre) (parseOne j n)) ->
  parseItems parseOne' fuel (pre ++ tokens) items (length pre + i) next
  = shiftIndex (length pre) (parseItems parseOne fuel tokens items i next).
Proof.
  intros Hone. revert items i next.
  induction fuel as [|fuel IH]; intros items i next; [done|].
  rewrite !parseItems_eq, tokenIs_shift, length_app.
  replace (length pre + i <? length pre + length tokens) with (i <? length tokens)
    by (destruct (Nat.ltb_spec i (length tokens));
        symmetry; [apply Nat.ltb_lt|apply Nat.ltb_ge]; lia).
  replace (length pre + length tokens <=? length pre + i) with (length tokens <=? i)
    by (destruct (Nat.leb_spec (length tokens) i);
        symmetry; [apply Nat.leb_le|apply Nat.leb_gt]; lia).
  destruct ((i <? length tokens) && negb (tokenIs tokens i ")")).
  - rewrite Hone.
    destruct (parseOne i next) as [[expr k] n'| | |]; simpl; [apply IH|done..].
  - destruct (length tokens <=? i); simpl; [done|].
    by rewrite Nat.add_assoc.
Qed.

Lemma parseExpression_shift fuel pre tokens index next :
  parseExpression fuel (pre ++ tokens) (length pre + index) next
  = shiftIndex (length pre) (parseExpression fuel tokens index next).
Proof.
  revert index next. induction fuel as [|fuel IH]; intros index next; [done|].
  rewrite !parseExpression_eq, !tokenIs_shift, lookup_shift.
  rewrite <- !Nat.add_assoc.
  destruct (tokenIs tokens index "(").
  - rewrite (parseItems_shift (parseExpression fuel tokens)) by apply IH.
    by destruct (parseItems _ fuel tokens [] (index + 1) (S next))
      as [[its j] n'| | |].
  - destruct (tokenIs tokens index ")"); [done|].
    destruct (tokenIs tokens index "'").
    + rewrite IH.
      by destruct (parseExpression fuel tokens (index + 1) next)
        as [[expr j] n'| | |].
    + destruct (tokens !! index); [|done]. by destruct (negb _).
Qed.

Lemma tokenIs_extend tokens post i text :
  i < length tokens ->
  tokenIs (tokens ++ post) i text = tokenIs tokens i text.
Proof. intros Hi. unfold tokenIs. by rewrite lookup_app_l. Qed.

Lemma parseItems_extend parseOne parseOne' fuel tokens post items i next r next' :
  (forall j n x n', parseOne j n = Return x n' -> parseOne' j n = Return x n') ->
  parseItems parseOne fuel tokens items i next = Return r next' ->
  parseItems parseOne' fuel (tokens ++ post) items i next = Return r next'.
Proof.
  intros Hone. revert items i next.
  induction fuel as [|fuel IH]; intros items i next; [done|].
  rewrite !parseItems_eq, length_app.
  destruct (i <? length tokens) eqn:Hlt.
  - apply Nat.ltb_lt in Hlt. rewrite (tokenIs_extend _ _ _ _ Hlt).
    replace (i <? length tokens + length post) with true
      by (symmetry; apply Nat.ltb_lt; lia).
    replace (length tokens + length post <=? i) with false
      by (symmetry; apply Nat.leb_gt; lia).
    replace (length tokens <=? i) with false
      by (symmetry; apply Nat.leb_gt; lia).
    destruct (negb (tokenIs tokens i ")")); simpl; [|done].
    destruct (parseOne i next) as [[expr k] n'| | |] eqn:Hstep; try done.
    rewrite (Hone _ _ _ _ Hstep). apply IH.
  - apply Nat.ltb_ge in Hlt. simpl.
    replace (length tokens <=? i) with true
      by (symmetry; apply Nat.leb_le; lia).
    done.
Qed.

Lemma parseExpression_extend fuel tokens post index next r next' :
  parseExpression fuel tokens index next = Return r next' ->
  parseExpression fuel (tokens ++ post) index next = Return r next'.
Proof.
  revert index next r next'.
  induction fuel as [|fuel IH]; intros index next r next'; [done|].
  rewrite !parseExpression_eq.
  destruct (Nat.lt_ge_cases index (length tokens)) as [Hlt|Hge].
  - rewrite !(tokenIs_extend _ _ _ _ Hlt), lookup_app_l by done.
    destruct (tokenIs tokens index "(").
    + destruct (parseItems _ fuel tokens [] (index + 1) (S next))
        as [[its j] n'| | |] eqn:Hitems; try done.
      rewrite (parseItems_extend (parseExpression fuel tokens)
                 (parseExpression fuel (tokens ++ post)) _ _ _ _ _ _ _ _
                 ltac:(intros ? ? ? ?; apply IH) Hitems).
      done.
    + destruct (tokenIs tokens index ")"); [done|].
      destruct (tokenIs tokens index "'"); [|done].
      destruct (parseExpression fuel tokens (index + 1) next)
        as [[expr j] n'| | |] eqn:Hrec; try done.
      by rewrite (IH _ _ _ _ Hrec).
  - unfold tokenIs. rewrite (lookup_ge_None_2 tokens index) by lia. done.
Qed.

(** *** the loop of [parse] *)

Lemma parseAll_append ta tb fuel result i next ra n1 :
  parseAll fuel ta result i next = Return ra n1 ->
  i <= length ta ->
  forall fuel', length (ta ++ tb) - i < fuel' ->
    parseAll fuel' (ta ++ tb) result i next
    = parseAll fuel' (ta ++ tb) ra (length ta) n1.
Proof.
  revert result i next.
  induction fuel as [|fuel IH]; intros result i next; [done|].
  rewrite parseAll_eq. intros Hrun Hi fuel' Hfuel'.
  destruct (i <? length ta) eqn:Hlt.
  - apply Nat.ltb_lt in Hlt.
    pose proof (parseExpression_advances (S (length ta)) ta i next ltac:(lia))
      as Hadv.
    destruct (parseExpression (S (length ta)) ta i next)
      as [[expr j] n'| | |] eqn:Hstep; try done.
    simpl in Hadv.
    destruct fuel' as [|fuel']; [lia|].
    rewrite (parseAll_eq fuel' (ta ++ tb) result).
    replace (i <? length (ta ++ tb)) with true
      by (symmetry; apply Nat.ltb_lt; rewrite length_app; lia).
    rewrite (parseExpression_Return_more_fuel (S (length ta)) _ _ _ _ _ _
               (parseExpression_extend _ _ tb _ _ _ _ Hstep))
      by (rewrite length_app; lia).
    rewrite (IH _ _ _ Hrun (proj2 Hadv) fuel')
      by (rewrite length_app in *; lia).
    symmetry. apply parseAll_more_fuel; [|lia].
    rewrite length_app in *. lia.
  - apply Nat.ltb_ge in Hlt. injection Hrun as <- <-.
    by replace i with (length ta) by lia.
Qed.

Lemma parseAll_shift pre tokens fuel acc result i next :
  parseAll fuel (pre ++ tokens) (acc ++ result) (length pre + i) next
  = bind (parseAll fuel tokens result i next)
      (fun expressions next' => Return (acc ++ expressions) next').
Proof.
  revert result i next.
  induction fuel as [|fuel IH]; intros result i next; [done|].
  rewrite !parseAll_eq, length_app.
  replace (length pre + i <? length pre + length tokens) with (i <? length tokens)
    by (destruct (Nat.ltb_spec i (length tokens));
        symmetry; [apply Nat.ltb_lt|apply Nat.ltb_ge]; lia).
  destruct (i <? length tokens) eqn:Hlt; [|done].
  apply Nat.ltb_lt in Hlt.
  rewrite <- length_app, parseExpression_shift.
  rewrite (parseExpression_more_fuel (S (length tokens)))
    by (rewrite ?length_app; lia).
  destruct (parseExpression (S (length tokens)) tokens i next)
    as [[expr j] n'| | |]; simpl; try done.
  rewrite <- (assoc_L (++)). apply IH.
Qed.

(** X7. The expressions of two texts put one after the other, when the
    first parses: those of the first followed by those of the second, read
    with the array identities left after the first; when the second does not
    parse, its error. *)
Theorem parse_append a b next ra n1 :
  parse a next = Return ra n1 ->
  parse (a +:+ " " +:+ b) next
  = bind (parse b n1) (fun rb n2 => Return (ra ++ rb) n2).
Proof.
  unfold parse. intros Ha.
  assert (Htokens : tokenize (a +:+ " " +:+ b) = tokenize a ++ tokenize b).
  { rewrite !tokenize_words, pad_app. change (pad (" " +:+ b)) with (String " " (pad b)).
    by apply wordsFrom_split. }
  rewrite Htokens.
  rewrite (parseAll_append _ (tokenize b) _ _ _ _ _ _ Ha) by lia.
  pose proof (parseAll_shift (tokenize a) (tokenize b)
                (S (length (tokenize a ++ tokenize b))) ra [] 0 n1) as Hshift.
  rewrite app_nil_r, Nat.add_0_r in Hshift. rewrite Hshift.
  by rewrite (parseAll_more_fuel (S (length (tokenize b))))
    by (rewrite ?length_app; lia).
Qed.

Lemma parse_append_witness :
  parse ("(a)" +:+ " " +:+ "b '(") 0
  = bind (parse "b '(" 1) (fun rb n2 => Return ([LArray 0 [LString "a"]] ++ rb) n2).
Proof.
  apply (parse_append "(a)" "b '(" 0 [LArray 0 [LString "a"]] 1).
  vm_compute. reflexivity.
Defined.

(** ** The quote marker, and what the parser makes *)

Lemma parseAll_length fuel tokens result i next expressions next' :
  parseAll fuel tokens result i next = Return expressions next' ->
  length result <= length expressions.
Proof.
  revert result i next.
  induction fuel as [|fuel IH]; intros result i next; [done|].
  rewrite parseAll_eq. destruct (i <? length tokens).
  - destruct (parseExpression _ tokens i next) as [[expr j] n'| | |]; try done.
    intros H%IH. rewrite length_app in H. simpl in H. lia.
  - by intros [= <- <-].
Qed.

(** The one expression of a text that has one. *)
Lemma parse_single code next e next' :
  parse code next = Return [e] next' ->
  parseExpression (S (length (tokenize code))) (tokenize code) 0 next
  = Return (e, length (tokenize code)) next'.
Proof.
  unfold parse. rewrite parseAll_eq.
  destruct (0 <? length (tokenize code)) eqn:Hlt; [|done].
  pose proof (parseExpression_advances (S (length (tokenize code)))
                (tokenize code) 0 next ltac:(lia)) as Hadv.
  destruct (parseExpression _ (tokenize code) 0 next)
    as [[expr j] n'| | |]; try done.
  simpl in Hadv. destruct (length (tokenize code)) as [|k] eqn:Hk; [lia|].
  rewrite parseAll_eq, Hk.
  destruct (j <? S k) eqn:Hj.
  - destruct (parseExpression _ (tokenize code) j n') as [[expr' j'] n''| | |];
      try done.
    intros H%parseAll_length. simpl in H. lia.
  - apply Nat.ltb_ge in Hj. intros [= <- <-]. do 2 f_equal. lia.
Qed.

(** X8. The quote marker reads as the list it abbreviates: for a text with
    one expression, the marker before it and [(quote ...)] around it both
    give one list of two elements, the symbol [quote] and that
    expression. *)
Theorem quote_abbreviates :
  (forall code next e next',
      parse code next = Return [e] next' ->
      parse ("'" +:+ code) next
      = Return [LArray next' [LString "quote"; e]] (S next')) /\
  (forall code next e next',
      parse code (S next) = Return [e] next' ->
      parse ("(quote " +:+ code +:+ ")") next
      = Return [LArray next [LString "quote"; e]] next').
Proof.
  split; intros code next e next' Hparse.
  - pose proof (parse_single _ _ _ _ Hparse) as Hone.
    assert (Htokens : tokenize ("'" +:+ code) = "'" :: tokenize code).
    { by apply (tokenize_at_delimiter EmptyString "'" code). }
    unfold parse. rewrite Htokens. set (tokens := tokenize code) in *.
    rewrite parseAll_eq. cbn [length]. rewrite parseExpression_eq.
    cbn [tokenIs lookup list_lookup String.eqb Ascii.eqb Bool.eqb].
    pose proof (parseExpression_shift (S (length tokens)) ["'"] tokens 0 next)
      as Hshift.
    cbn [app length Nat.add] in Hshift. cbn [Nat.add].
    rewrite Hshift, Hone. cbn [shiftIndex Nat.ltb Nat.leb].
    rewrite parseAll_eq. by rewrite Nat.ltb_irrefl.
  - pose proof (parse_single _ _ _ _ Hparse) as Hone.
    assert (Htokens : tokenize ("(quote " +:+ code +:+ ")")
                      = ["("; "quote"] ++ tokenize code ++ [")"]).
    { change ("(quote " +:+ code +:+ ")") with ("(quote" +:+ String " " (code +:+ ")")).
      rewrite (tokenize_at_whitespace "(quote" " " (code +:+ ")") eq_refl).
      rewrite (tokenize_at_delimiter code ")" EmptyString eq_refl).
      reflexivity. }
    unfold parse. rewrite Htokens. set (tokens := tokenize code) in *.
    set (all := ["("; "quote"] ++ tokens ++ [")"]).
    assert (Hlen : length all = length tokens + 3).
    { subst all. rewrite !length_app. simpl. lia. }
    rewrite parseAll_eq, Hlen.
    replace (0 <? length tokens + 3) with true by (symmetry; apply Nat.ltb_lt; lia).
    replace (S (length tokens + 3)) with (S (S (S (S (length tokens))))) by lia.
    rewrite parseExpression_eq.
    change (tokenIs all 0 "(") with true. cbv iota.
    (* the symbol [quote] *)
    rewrite parseItems_eq, Hlen.
    replace (0 + 1 <? length tokens + 3) with true
      by (symmetry; apply Nat.ltb_lt; lia).
    change (tokenIs all (0 + 1) ")") with false. cbn [negb andb].
    rewrite (parseExpression_atom _ all (0 + 1) (S next) "quote") by done.
    change (numericText "quote") with false. cbv iota.
    (* the expression *)
    rewrite parseItems_eq, Hlen.
    pose proof (parseExpression_shift (S (S (S (length tokens)))) ["("; "quote"]
                  (tokens ++ [")"]) 0 (S next)) as Hshift.
    cbn [length Nat.add] in Hshift. cbn [Nat.add].
    fold all in Hshift.
    rewrite (parseExpression_Return_more_fuel _ (S (S (S (length tokens)))) _ _ _ _ _
               (parseExpression_extend _ _ [")"] _ _ _ _ Hone)) in Hshift by lia.
    assert (Hadv : advances tokens 0
                     (parseExpression (S (length tokens)) tokens 0 (S next)))
      by (apply parseExpression_advances; lia).
    rewrite Hone in Hadv. simpl in Hadv.
    assert (Hfirst : tokenIs all 2 ")" = false).
    { destruct (tokenIs all 2 ")") eqn:Hc; [|done].
      exfalso. apply tokenIs_Some in Hc.
      subst all. change 2 with (length ["("; "quote"] + 0) in Hc.
      rewrite lookup_shift, lookup_app_l in Hc by lia.
      assert (Hstray : parseExpression (S (length tokens)) tokens 0 (S next)
                       = Throw (Error "Unexpected closing parenthesis") (S next)).
      { rewrite parseExpression_eq, !(tokenIs_false _ _ _ _ Hc). done. }
      congruence. }
    replace (2 <? length tokens + 3) with true
      by (symmetry; apply Nat.ltb_lt; lia).
    rewrite Hfirst. cbn [negb andb].
    rewrite Hshift. cbn [shiftIndex app].
    (* the closing parenthesis *)
    rewrite parseItems_eq, Hlen.
    assert (Hlast : tokenIs all (2 + length tokens) ")" = true).
    { subst all. change 2 with (length ["("; "quote"]).
      rewrite tokenIs_shift.
      unfold tokenIs. rewrite lookup_app_r by lia.
      by rewrite Nat.sub_diag. }
    rewrite Hlast, andb_false_r.
    replace (length tokens + 3 <=? 2 + length tokens) with false
      by (symmetry; apply Nat.leb_gt; lia).
    destruct (length tokens + 3) as [|fuel] eqn:Hfuel; [lia|].
    rewrite parseAll_eq, Hlen.
    by replace (2 + length tokens + 1 <? S fuel) with false
      by (symmetry; apply Nat.ltb_ge; lia).
Qed.

Lemma quote_abbreviates_witness :
  parse ("'" +:+ "(a b)") 0
  = Return [LArray 1 [LString "quote"; LArray 0 [LString "a"; LString "b"]]] 2.
Proof.
  apply (proj1 quote_abbreviates "(a b)" 0). vm_compute. reflexivity.
Defined.

(** *** what the parser makes *)

Lemma parseItems_parserValue parseOne fuel tokens items i next its j next' :
  (forall k n e k' n', parseOne k n = Return (e, k') n' -> parserValue e = true) ->
  forallb parserValue items = true ->
  parseItems parseOne fuel tokens items i next = Return (its, j) next' ->
  forallb parserValue its = true.
Proof.
  intros Hone. revert items i next.
  induction fuel as [|fuel IH]; intros items i next Hitems; [done|].
  rewrite parseItems_eq.
  destruct ((i <? length tokens) && negb (tokenIs tokens i ")")).
  - destruct (parseOne i next) as [[expr k] n'| | |] eqn:Hstep; try done.
    apply IH. rewrite forallb_app, Hitems. simpl.
    by rewrite (Hone _ _ _ _ _ Hstep).
  - destruct (length tokens <=? i); [done|]. by intros [= <- _ _].
Qed.

Lemma parseExpression_parserValue fuel tokens index next e j next' :
  Forall (fun t => isDelimiter t || atomText t = true) tokens ->
  parseExpression fuel tokens index next = Return (e, j) next' ->
  parserValue e = true.
Proof.
  intros Htokens. revert index next e j next'.
  induction fuel as [|fuel IH]; intros index next e j next'; [done|].
  rewrite parseExpression_eq.
  destruct (tokenIs tokens index "(") eqn:Hopen.
  { destruct (parseItems _ fuel tokens [] (index + 1) (S next))
      as [[its k] n'| | |] eqn:Hitems; try done.
    intros [= <- _ _]. simpl.
    eapply parseItems_parserValue; [exact IH| |exact Hitems]. done. }
  destruct (tokenIs tokens index ")") eqn:Hclose; [done|].
  destruct (tokenIs tokens index "'") eqn:Hquote.
  { destruct (parseExpression fuel tokens (index + 1) next)
      as [[expr k] n'| | |] eqn:Hrec; try done.
    intros [= <- _ _]. simpl. by rewrite (IH _ _ _ _ _ Hrec). }
  destruct (tokens !! index) as [token|] eqn:Htoken; [|done].
  rewrite !(tokenIs_false _ _ _ _ Htoken) in *.
  assert (Hatom : atomText token = true).
  { pose proof (proj1 (Forall_lookup _ _) Htokens _ _ Htoken) as Hshape.
    apply orb_true_iff in Hshape as [Hd|]; [|done].
    unfold isDelimiter in Hd. by rewrite Hopen, Hclose, Hquote in Hd. }
  destruct (negb (JS.isNaN (JS.stringToNumber token))) eqn:Hnumber.
  - by intros [= <- _ _].
  - intros [= <- _ _]. simpl. apply parser_symbol_is_symbolText; [done|].
    rewrite isNaN_stringToNumber in Hnumber.
    by destruct (numericText token).
Qed.

Lemma parseAll_parserValue fuel tokens result i next expressions next' :
  Forall (fun t => isDelimiter t || atomText t = true) tokens ->
  forallb parserValue result = true ->
  parseAll fuel tokens result i next = Return expressions next' ->
  forallb parserValue expressions = true.
Proof.
  intros Htokens. revert result i next.
  induction fuel as [|fuel IH]; intros result i next Hresult; [done|].
  rewrite parseAll_eq. destruct (i <? length tokens).
  - destruct (parseExpression _ tokens i next) as [[expr j] n'| | |] eqn:Hstep;
      try done.
    apply IH. rewrite forallb_app, Hresult. simpl.
    by rewrite (parseExpression_parserValue _ _ _ _ _ _ _ Htokens Hstep).
  - by intros [= <- _].
Qed.

(** X9. Whatever [parse] returns is made of numbers other than [NaN], of
    symbols in lower case that [Number] does not read as a number, and of
    lists of these: no boolean, no [null], no [undefined], so that [t] and
    [nil] are read as symbols. *)
Theorem parse_gives_parser_values code next expressions next' :
  parse code next = Return expressions next' ->
  forallb parserValue expressions = true.
Proof.
  unfold parse. intros Hparse.
  apply (parseAll_parserValue (S (length (tokenize code))) (tokenize code)
           [] 0 next expressions next');
    [|done|exact Hparse].
  rewrite tokenize_scanTokens. by apply scanTokens_shape.
Qed.

Lemma parse_gives_parser_values_witness :
  forallb parserValue [LArray 0 [LString "nil"; LNumber (JS.numberOfZ 1)]] = true.
Proof.
  apply (parse_gives_parser_values "(NIL 1)" 0 _ 1). vm_compute. reflexivity.
Defined.

(** ** The printer *)

Lemma numberEquals_eq x y :
  JS.numberEquals x y = true ->
  x = y \/ exists sx sy, x = S754_zero sx /\ y = S754_zero sy.
Proof.
  unfold JS.numberEquals, SFeqb, SFcompare. intros H.
  destruct x as [sx|sx| |sx mx ex], y as [sy|sy| |sy my ey].
  all: try discriminate H.
  all: try (destruct sx; discriminate H).
  all: try (destruct sy; discriminate H).
  - right. by exists sx, sy.
  - left. destruct sx, sy; (discriminate H || reflexivity).
  - left. destruct sx, sy; try discriminate H;
      destruct (Z.compare_spec ex ey) as [->| |]; try discriminate H;
      change (Pos.compare_cont Eq mx my) with (Pos.compare mx my) in H;
      destruct (Pos.compare_spec mx my) as [->| |]; try discriminate H;
      reflexivity.
Qed.

Lemma numberEquals_toString x y :
  JS.numberEquals x y = true -> JS.toString x = JS.toString y.
Proof.
  intros [->|(sx & sy & -> & ->)]%numberEquals_eq; reflexivity.
Qed.

Lemma stringify_items xs ys :
  Forall (fun x => forall y, structurallyEqual x y = true -> stringify x = stringify y) xs ->
  (fix pairwise (xs ys : list LispValue) {struct xs} : bool :=
     match xs, ys with
     | [], [] => true
     | x :: xs', y :: ys' => structurallyEqual x y && pairwise xs' ys'
     | _, _ => false
     end) xs ys = true ->
  List.map stringify xs = List.map stringify ys.
Proof.
  intros Hxs. revert ys. induction Hxs as [|x xs Hx _ IH]; intros [|y ys]; try done.
  intros [Hxy Hrest]%andb_true_iff. simpl. by rewrite (Hx y Hxy), (IH ys Hrest).
Qed.

Lemma stringify_same a b :
  structurallyEqual a b = true -> stringify a = stringify b.
Proof.
  revert b. induction a as [x|x|x| | |id xs IH] using LispValue_nested_ind;
    intros [y|y|y| | |id' ys]; try done; simpl.
  - apply numberEquals_toString.
  - by intros ->%String.eqb_eq.
  - by intros ->%Bool.eqb_prop.
  - intros Hitems. by rewrite (stringify_items xs ys IH Hitems).
Qed.

(** X10. Two values that are structurally equal print the same text: the
    text [stringify] gives does not depend on which array objects a list is
    made of, and the two zeros print alike. *)
Theorem stringify_structurallyEqual a b :
  structurallyEqual a b = true -> stringify a = stringify b.
Proof. intros Hequal. exact (stringify_same a b Hequal). Qed.

Lemma stringify_structurallyEqual_witness :
  stringify (LArray 1 [LNumber (JS.numberOfZ 0); LString "a"])
  = stringify (LArray 2 [LNumber (JS.neg (JS.numberOfZ 0)); LString "a"]).
Proof.
  apply stringify_structurallyEqual. vm_compute. reflexivity.
Defined.

(** ** What evaluation leaves as it is *)

Lemma extends_refl env st : extends env st st.
Proof. split; [done|]. split; [done|]. exists []. by rewrite app_nil_r. Qed.

Lemma extends_trans env st1 st2 st3 :
  extends env st1 st2 -> extends env st2 st3 -> extends env st1 st3.
Proof.
  intros (Hlen1 & Hkeep1 & lines1 & Hout1) (Hlen2 & Hkeep2 & lines2 & Hout2).
  split; [lia|]. split.
  - intros a Ha Henv. rewrite Hkeep2 by (done || lia). by apply Hkeep1.
  - exists (lines1 ++ lines2). by rewrite Hout2, Hout1, (assoc_L (++)).
Qed.

Lemma extends_weaken env st st' : extends None st st' -> extends env st st'.
Proof.
  intros (Hlen & Hkeep & Hout). split; [done|]. split; [|done].
  intros a Ha _. by apply Hkeep.
Qed.

Lemma keeps_bind {A B : Type} env st (m : outcome SimpleLisp A)
    (k : A -> SimpleLisp -> outcome SimpleLisp B) :
  keeps env st m ->
  (forall a st1, extends env st st1 -> keeps env st1 (k a st1)) ->
  keeps env st (bind m k).
Proof.
  intros Hm Hk. destruct m as [a st1|e st1| |]; simpl in *; try done.
  specialize (Hk a st1 Hm).
  destruct (k a st1) as [b st2|e st2| |]; simpl in *; try done;
    by apply (extends_trans _ _ st1).
Qed.

Lemma applyPrimitive_keeps p args st : keeps None st (applyPrimitive p args st).
Proof.
  assert (Hnew : forall items, keeps None st (newArray items st)).
  { intros items. simpl. split; [done|]. split; [done|].
    exists []. by rewrite app_nil_r. }
  assert (Hprint : forall line, extends None st (withOutput st (output st ++ [line]))).
  { intros line. split; [done|]. split; [done|]. by eexists. }
  unfold applyPrimitive.
  destruct p;
    repeat first
      [ apply extends_refl
      | apply Hnew
      | apply Hprint
      | match goal with
        | |- keeps _ _ (match ?x with _ => _ end) => destruct x
        end ].
Qed.

Section Frame.

Variable ev : LispValue -> nat -> SimpleLisp -> outcome SimpleLisp LispValue.
Hypothesis ev_keeps : forall expr env st, keeps (Some env) st (ev expr env st).

Lemma evaluateEach_keeps exprs env st :
  keeps (Some env) st (evaluateEach ev exprs env st).
Proof.
  revert st. induction exprs as [|expr rest IH]; intros st; simpl.
  - apply extends_refl.
  - apply keeps_bind; [apply ev_keeps|]. intros v st1 _.
    apply keeps_bind; [apply IH|]. intros vs st2 _. apply extends_refl.
Qed.

Lemma evaluateSequence_keeps forms env result st :
  keeps (Some env) st (evaluateSequence ev forms env result st).
Proof.
  revert result st. induction forms as [|form rest IH]; intros result st; simpl.
  - apply extends_refl.
  - apply keeps_bind; [apply ev_keeps|]. intros v st1 _. apply IH.
Qed.

Lemma callFunction_keeps fn args st : keeps None st (callFunction ev fn args st).
Proof.
  destruct fn as [p|params body env|]; simpl; [apply applyPrimitive_keeps| |done].
  destruct (heap st !! env) as [captured|]; [|done].
  assert (Hnew : forall e,
             extends None st (withHeap st (heap st ++ [e]))).
  { intros e. split; [simpl; rewrite length_app; lia|]. split.
    - intros a Ha _. simpl. by rewrite lookup_app_l.
    - exists []. by rewrite app_nil_r. }
  destruct params as [| | | | |pid names]; try apply Hnew.
  destruct (bindParameters names 0 args captured) as [bound|]; [|done].
  pose proof (evaluateSequence_keeps body (length (heap st)) LNull
                (withHeap st (heap st ++ [bound]))) as Hbody.
  destruct (evaluateSequence ev body (length (heap st)) LNull _)
    as [v st'|e st'| |]; simpl in *; try done.
  all: unfold extends in Hbody; simpl in Hbody;
    destruct Hbody as (Hlen & Hkeep & Hout);
    rewrite length_app in Hlen, Hkeep; simpl in Hlen, Hkeep;
    (split; [lia|]); (split; [|done]);
    intros a Ha _; rewrite Hkeep;
    [ by rewrite lookup_app_l
    | lia
    | intros [= Heq]; lia ].
Qed.

Lemma evaluateExpressionBody_keeps expr env st :
  keeps (Some env) st (evaluateExpressionBody ev expr env st).
Proof.
  destruct expr as [n|name|b| | |id [|first items]]; simpl;
    try apply extends_refl.
  - destruct (heap st !! env) as [e|]; [|done].
    destruct (getProperty e name) as [[[]|]|]; simpl; try done;
      apply extends_refl.
  - destruct (strictEquals first (LString "quote")); [apply extends_refl|].
    destruct (strictEquals first (LString "if")).
    { apply keeps_bind; [apply ev_keeps|]. intros v st1 _.
      destruct (truthy v); apply ev_keeps. }
    destruct (strictEquals first (LString "defun")).
    { destruct (heap st !! env) as [e|] eqn:He; [|done].
      destruct (setProperty e _ _) as [e'|]; [|done].
      unfold keeps, extends. simpl.
      split; [by rewrite length_insert|]. split.
      - intros a Ha Hne. apply list_lookup_insert_ne. congruence.
      - exists []. by rewrite app_nil_r. }
    apply keeps_bind.
    + destruct first as [n|name|b| | |id' its];
        try (apply keeps_bind; [apply ev_keeps|]; intros v st1 _;
             apply extends_refl).
      destruct (heap st !! env) as [e|]; [|done].
      destruct (getProperty e name); [apply extends_refl|done].
    + intros [v|f] st1 _; [apply extends_refl|].
      apply keeps_bind; [apply evaluateEach_keeps|]. intros args st2 _.
      pose proof (callFunction_keeps f args st2) as Hcall.
      destruct (callFunction ev f args st2); simpl in *; try done;
        by apply extends_weaken.
Qed.

End Frame.

Lemma evaluateExpression_keeps fuel expr env st :
  keeps (Some env) st (evaluateExpression fuel expr env st).
Proof.
  revert expr env st. induction fuel as [|fuel IH]; intros expr env st; [done|].
  simpl. by apply evaluateExpressionBody_keeps.
Qed.

(** X11. A call changes no environment object that exists: whatever a
    primitive or a function of [defun] does, what it returns or throws, the
    environments there were before the call are afterwards as they were, and
    the call's own environment comes after them. So the parameters of a call
    and a function that its body defines are bound in the call's environment
    alone, out of reach once the call is over. *)
Theorem call_keeps_environments fuel fn args st :
  match callFunction (evaluateExpression fuel) fn args st with
  | Return _ st' | Throw _ st' => exists created, heap st' = heap st ++ created
  | NotModelled | OutOfFuel => True
  end.
Proof.
  pose proof (callFunction_keeps (evaluateExpression fuel)
                (evaluateExpression_keeps fuel) fn args st) as Hcall.
  assert (Hprefix : forall st', extends None st st' ->
                                exists created, heap st' = heap st ++ created).
  { intros st' (Hlen & Hkeep & _). exists (drop (length (heap st)) (heap st')).
    rewrite <- (take_drop (length (heap st)) (heap st')) at 1. f_equal.
    apply list_eq. intros a.
    destruct (Nat.lt_ge_cases a (length (heap st))) as [Ha|Ha].
    - rewrite lookup_take_lt by done. by apply Hkeep.
    - rewrite lookup_take_ge by done. symmetry. by apply lookup_ge_None. }
  destruct (callFunction _ fn args st) as [v st'|e st'| |]; simpl in *;
    try done; by apply Hprefix.
Qed.

(** X12. Evaluating an expression in an environment changes no other
    environment object that exists, and never takes a line back from the
    output buffer: the lines there were are still its first lines
    afterwards. *)
Theorem evaluation_keeps_other_environments fuel expr env st :
  match evaluateExpression fuel expr env st with
  | Return _ st' | Throw _ st' =>
      (forall a, a < length (heap st) -> a <> env ->
                 heap st' !! a = heap st !! a) /\
      (exists lines, output st' = output st ++ lines)
  | NotModelled | OutOfFuel => True
  end.
Proof.
  pose proof (evaluateExpression_keeps fuel expr env st) as Hkeeps.
  destruct (evaluateExpression fuel expr env st) as [v st'|e st'| |];
    simpl in *; try done;
    destruct Hkeeps as (_ & Hkeep & Hout);
    (split; [|done]); intros a Ha Hne; apply Hkeep; congruence.
Qed.

(** ** Errors of the evaluator, and quote *)



(** X14. A name bound to a function cannot be used as a value: evaluating
    it as a variable throws [Cannot use function ... as value]. This holds
    for the primitives, for the functions of [defun], and for the name
    [constructor], which every environment object inherits from the host:
    where no binding hides it, [constructor] is a function and not an
    undefined symbol. *)
Theorem function_used_as_value fuel name env st (e : LispEnvironment) :
  heap st !! env = Some e ->
  name <> "__proto__" ->
  (exists f, e !! name = Some (Callable f)) \/
  (e !! name = None /\ name = "constructor") ->
  evaluateExpression (S fuel) (LString name) env st
  = Throw (Error ("Cannot use function " +:+ name +:+
                  " as value (missing parentheses?)")) st.
Proof.
  intros He Hproto Hname. rewrite evaluateExpression_symbol, He.
  unfold getProperty.
  replace (String.eqb name "__proto__") with false
    by (symmetry; by apply String.eqb_neq).
  destruct Hname as [[f ->]|[-> ->]]; done.
Qed.

Lemma function_used_as_value_witness :
  evaluateExpression 1 (LString "constructor") globalEnv
    {| heap := [ {[ "x" := Data LNull ]} ]; output := []; nextArray := 0 |}
  = Throw (Error "Cannot use function constructor as value (missing parentheses?)")
      {| heap := [ {[ "x" := Data LNull ]} ]; output := []; nextArray := 0 |}.
Proof.
  apply (function_used_as_value 0 "constructor" globalEnv
           {| heap := [ {[ "x" := Data LNull ]} ]; output := []; nextArray := 0 |}
           {[ "x" := Data LNull ]}); [reflexivity|discriminate|].
  right. split; reflexivity.
Defined.

(** X15. An [if] without an else branch whose condition is false to the
    host does not return [nil]: it evaluates the missing fourth element of
    the list, [undefined], and throws [Cannot evaluate: undefined]. *)
Theorem if_without_else fuel id c a env st v st1 :
  evaluateExpression (S fuel) c env st = Return v st1 ->
  truthy v = false ->
  evaluateExpression (S (S fuel)) (LArray id [LString "if"; c; a]) env st
  = Throw (Error "Cannot evaluate: undefined") st1.
Proof.
  intros Hc Hv. rewrite evaluateExpression_if.
  change (item [LString "if"; c; a] 1) with c. rewrite Hc. simpl bind.
  by rewrite Hv.
Qed.

Lemma if_without_else_witness :
  evaluateExpression 2
    (LArray 0 [LString "if"; LNull; LNumber (JS.numberOfZ 1)]) globalEnv newSimpleLisp
  = Throw (Error "Cannot evaluate: undefined") newSimpleLisp.
Proof.
  apply (if_without_else 0 0 LNull (LNumber (JS.numberOfZ 1)) globalEnv
           newSimpleLisp LNull newSimpleLisp); reflexivity.
Defined.

(** *** quote, from the text to the text *)



(** ** Primitives *)

Lemma plus_textual s0 args :
  exists s, fold_left plus args (LString s0) = LString s.
Proof.
  revert s0. induction args as [|x args IH]; intros s0; simpl.
  - by eexists.
  - apply IH.
Qed.

Lemma plus_numbers args n :
  existsb isTextual args = false ->
  fold_left plus args (LNumber n)
  = LNumber (fold_left JS.add (List.map toNumber args) n).
Proof.
  revert n. induction args as [|x args IH]; intros n; simpl; [done|].
  intros [Hx Hargs]%orb_false_iff. unfold plus at 2. simpl. rewrite Hx.
  by apply IH.
Qed.

(** X17. [+] never fails and changes nothing. When no argument is a symbol
    or a list, its result is the number got by adding the arguments, taken
    as numbers, to 0 from left to right; as soon as one argument is a symbol
    or a list, its result is a symbol: the text the host's [+] glues
    together. *)
Theorem plus_adds_or_concatenates args st :
  (existsb isTextual args = false ->
   applyPrimitive Plus args st
   = Return (LNumber (fold_left JS.add (List.map toNumber args) (JS.numberOfZ 0))) st) /\
  (existsb isTextual args = true ->
   exists s, applyPrimitive Plus args st = Return (LString s) st).
Proof.
  unfold applyPrimitive. split.
  - intros Hargs. by rewrite plus_numbers.
  - generalize (LNumber (JS.numberOfZ 0)).
    induction args as [|x args IH]; intros acc; simpl; [done|].
    destruct (isTextual x) eqn:Hx; simpl.
    + intros _. unfold plus at 2. rewrite Hx, orb_true_r.
      destruct (plus_textual (toText acc +:+ toText x) args) as [s ->].
      by eexists.
    + apply IH.
Qed.

Lemma plus_adds_or_concatenates_witness :
  exists s,
    applyPrimitive Plus [LNumber (JS.numberOfZ 1); LString "a"; LNumber (JS.numberOfZ 2)]
      newSimpleLisp
    = Return (LString s) newSimpleLisp.
Proof.
  apply (proj2 (plus_adds_or_concatenates
                  [LNumber (JS.numberOfZ 1); LString "a"; LNumber (JS.numberOfZ 2)]
                  newSimpleLisp)).
  reflexivity.
Defined.

(** X18. [cons], [car] and [cdr] together. [car] of what [cons] made is the
    first argument of [cons]. [cdr] of it is a new list: with the elements of
    the second argument when that is a list, and with the second argument as
    its one element when it is not, so that [(cons x nil)] is the list of two
    elements [(x NIL)]. *)
Theorem cons_car_cdr a b st :
  exists c st1 d st2,
    applyPrimitive Cons [a; b] st = Return c st1 /\
    applyPrimitive Car [c] st1 = Return a st1 /\
    applyPrimitive Cdr [c] st1 = Return d st2 /\
    d = LArray (nextArray st1) match b with
                               | LArray _ items => items
                               | _ => [b]
                               end /\
    heap st2 = heap st /\ output st2 = output st.
Proof.
  do 4 eexists. split; [reflexivity|]. split; [reflexivity|].
  split; [reflexivity|]. split; [|done]. simpl. by rewrite drop_0.
Qed.

Lemma spread_all args lists acc :
  Forall2 (fun arg items => spread arg = Some items) args lists ->
  appendAll acc args = Some (acc ++ concat lists).
Proof.
  intros Hargs. revert acc.
  induction Hargs as [|arg items args lists Harg _ IH]; intros acc; simpl.
  - by rewrite app_nil_r.
  - by rewrite Harg, IH, (assoc_L (++)).
Qed.

Lemma spread_none args acc :
  Exists (fun arg => spread arg = None) args -> appendAll acc args = None.
Proof.
  intros Hargs. revert acc.
  induction Hargs as [arg args Harg|arg args _ IH]; intros acc; simpl.
  - by rewrite Harg.
  - destruct (spread arg); [apply IH|done].
Qed.

(** X19. [append] puts the elements of its arguments one after the other
    in a new list, an argument that is a symbol giving its characters. An
    argument that is a number, a boolean, [nil] or [undefined] cannot be
    spread: [append] then throws the host's TypeError, so that
    [(append x nil)] is an error; the interpreter is left as it was. *)
Theorem append_spreads_its_arguments args st :
  (forall lists,
      Forall2 (fun arg items => spread arg = Some items) args lists ->
      applyPrimitive Append args st
      = Return (LArray (nextArray st) (concat lists))
          {| heap := heap st; output := output st; nextArray := S (nextArray st) |}) /\
  (Exists (fun arg => spread arg = None) args ->
   applyPrimitive Append args st = Throw TypeError st) /\
  (LNull ∈ args -> applyPrimitive Append args st = Throw TypeError st).
Proof.
  unfold applyPrimitive. split; [|split].
  - intros lists Hargs. by rewrite (spread_all args lists [] Hargs).
  - intros Hargs. by rewrite (spread_none args [] Hargs).
  - intros Hnil. rewrite (spread_none args []); [done|].
    apply Exists_exists. by exists LNull.
Qed.

Lemma append_spreads_its_arguments_witness :
  applyPrimitive Append [LArray 0 [LNumber (JS.numberOfZ 1)]; LNull] newSimpleLisp
  = Throw TypeError newSimpleLisp.
Proof.
  apply (proj2 (proj2 (append_spreads_its_arguments
                         [LArray 0 [LNumber (JS.numberOfZ 1)]; LNull] newSimpleLisp))).
  apply list_elem_of_further, list_elem_of_here.
Defined.

(** *** comparisons *)

Lemma SFcompare_antisym x y :
  SFcompare y x = option_map CompOpp (SFcompare x y).
Proof.
  unfold SFcompare.
  destruct x as [sx|sx| |sx mx ex], y as [sy|sy| |sy my ey]; simpl;
    try reflexivity;
    try (by destruct sx); try (by destruct sy); try (by destruct sx, sy).
  destruct sx, sy; simpl; try reflexivity;
    rewrite (Z.compare_antisym ex ey);
    destruct (Z.compare ex ey); simpl; try reflexivity;
    change (Pos.compare_cont Eq my mx) with (Pos.compare my mx);
    change (Pos.compare_cont Eq mx my) with (Pos.compare mx my);
    rewrite (Pos.compare_antisym mx my);
    by destruct (Pos.compare mx my).
Qed.

Lemma isNaN_SFcompare x y :
  JS.isNaN x || JS.isNaN y = true <-> SFcompare x y = None.
Proof.
  destruct x as [sx|sx| |sx mx ex], y as [sy|sy| |sy my ey]; simpl; split; done.
Qed.

(** X20. The four order primitives on two numbers agree with each other
    and with [=]: [>] is [<] with the arguments exchanged, [<=] holds exactly
    when [<] or [=] does, and [>=] exactly when [>] or [=] does. With [NaN]
    for an argument all of them give [NIL]. *)
Theorem order_primitives_agree x y st :
  applyPrimitive Greater [LNumber x; LNumber y] st
  = applyPrimitive Less [LNumber y; LNumber x] st /\
  applyPrimitive LessEqual [LNumber x; LNumber y] st
  = Return (LBoolean (JS.numberLess x y || JS.numberEquals x y)) st /\
  applyPrimitive GreaterEqual [LNumber x; LNumber y] st
  = Return (LBoolean (JS.numberLess y x || JS.numberEquals x y)) st /\
  (JS.isNaN x || JS.isNaN y = true ->
   applyPrimitive Less [LNumber x; LNumber y] st = Return (LBoolean false) st /\
   applyPrimitive LessEqual [LNumber x; LNumber y] st = Return (LBoolean false) st /\
   applyPrimitive Equal [LNumber x; LNumber y] st = Return (LBoolean false) st).
Proof.
  unfold applyPrimitive, lessThan, item. simpl.
  unfold JS.numberLess, JS.numberEquals, SFltb, SFeqb.
  rewrite (SFcompare_antisym x y).
  rewrite (orb_comm (JS.isNaN y)).
  destruct (JS.isNaN x || JS.isNaN y) eqn:Hnan.
  - apply isNaN_SFcompare in Hnan. rewrite Hnan. simpl.
    repeat split; reflexivity.
  - destruct (SFcompare x y) as [[]|] eqn:Hc; simpl.
    1-3: repeat split; try reflexivity; try discriminate.
    apply isNaN_SFcompare in Hc. congruence.
Qed.

Lemma order_primitives_agree_witness :
  applyPrimitive Less [LNumber JS.NaN; LNumber (JS.numberOfZ 1)] newSimpleLisp
  = Return (LBoolean false) newSimpleLisp /\
  applyPrimitive LessEqual [LNumber JS.NaN; LNumber (JS.numberOfZ 1)] newSimpleLisp
  = Return (LBoolean false) newSimpleLisp /\
  applyPrimitive Equal [LNumber JS.NaN; LNumber (JS.numberOfZ 1)] newSimpleLisp
  = Return (LBoolean false) newSimpleLisp.
Proof.
  apply (proj2 (proj2 (proj2 (order_primitives_agree JS.NaN (JS.numberOfZ 1)
                                 newSimpleLisp)))).
  reflexivity.
Defined.

(** X21. [not] and the pair [and], [or] do not take the same values for
    true. [and] and [or] take everything but [false] and [nil] for true;
    [not] takes for false, besides these two, the number zero, [NaN], the
    empty symbol and [undefined]. So [(not 0)] is [T] although [(and 0)] is
    [T] as well. *)
Theorem not_and_or_truth v st :
  applyPrimitive And [v] st = Return (LBoolean (lispTrue v)) st /\
  applyPrimitive Or [v] st = Return (LBoolean (lispTrue v)) st /\
  applyPrimitive Not [v] st
  = Return (LBoolean (negb (lispTrue v) || zeroLike v)) st.
Proof.
  unfold applyPrimitive. simpl. rewrite andb_true_r, orb_false_r.
  repeat split. do 2 f_equal.
  destruct v as [[| | |]|[|c s]|[]| | |id items]; reflexivity.
Qed.

(** ** Arguments beyond the parameters *)

Lemma item_app_l (args extra : list LispValue) i :
  i < length args -> item (args ++ extra) i = item args i.
Proof. intros Hi. unfold item. by rewrite lookup_app_l. Qed.

Lemma bindParameters_extra names i args extra (e : LispEnvironment) :
  i + length names <= length args ->
  bindParameters names i (args ++ extra) e = bindParameters names i args e.
Proof.
  revert i e. induction names as [|param names IH]; intros i e Hlen; [done|].
  simpl in *. rewrite item_app_l by lia.
  destruct (setProperty e (toText param) (Data (item args i))); [|done].
  apply IH. lia.
Qed.

(** X22. A function of [defun] called with more arguments than it has
    parameters ignores the arguments beyond them: the call does what the
    call with the first arguments alone does. *)
Theorem arguments_beyond_the_parameters fuel pid names body env args extra st :
  length names <= length args ->
  callFunction (evaluateExpression fuel) (Closure (LArray pid names) body env)
    (args ++ extra) st
  = callFunction (evaluateExpression fuel) (Closure (LArray pid names) body env)
      args st.
Proof.
  intros Hlen. unfold callFunction.
  destruct (heap st !! env) as [captured|]; [|done].
  by rewrite (bindParameters_extra names 0 args extra captured Hlen).
Qed.

Lemma arguments_beyond_the_parameters_witness :
  callFunction (evaluateExpression 1)
    (Closure (LArray 0 [LString "x"]) [LString "x"] globalEnv)
    ([LNull] ++ [LBoolean true]) newSimpleLisp
  = callFunction (evaluateExpression 1)
      (Closure (LArray 0 [LString "x"]) [LString "x"] globalEnv)
      [LNull] newSimpleLisp.
Proof.
  apply (arguments_beyond_the_parameters 1 0 [LString "x"] [LString "x"] globalEnv
           [LNull] [LBoolean true] newSimpleLisp).
  simpl. lia.
Defined.

(** ** How primitives fail *)

(** X23. What the primitives never do. The comparisons, the type
    predicates and [and], [or], [not] always return a boolean and leave the
    interpreter as it was, whatever the arguments are and however many there
    are. No primitive throws an error of the interpreter: the only failure
    is the host's TypeError, it comes from [-], [/], [car], [cdr] and
    [append] alone, and leaves the interpreter as it was. *)
Theorem primitives_fail_by_TypeError_only p args st :
  (isPredicate p = true ->
   exists b, applyPrimitive p args st = Return (LBoolean b) st) /\
  (forall e st',
      applyPrimitive p args st = Throw e st' ->
      e = TypeError /\ st' = st /\
      (p = Minus \/ p = Divide \/ p = Car \/ p = Cdr \/ p = Append)) /\
  applyPrimitive p args st <> NotModelled /\
  applyPrimitive p args st <> OutOfFuel.
Proof.
  unfold applyPrimitive, newArray.
  destruct p; simpl; (split; [first [done | intros _; by eexists]|]).
  all: repeat match goal with
         | |- context [match ?x with _ => _ end] => destruct x
         end.
  all: (split; [intros e' st'' Hthrow|split; discriminate]).
  all: try discriminate Hthrow.
  all: injection Hthrow as <- <-; repeat split; auto 6.
Qed.

Lemma primitives_fail_by_TypeError_only_witness :
  exists b, applyPrimitive Less [LString "a"] newSimpleLisp
            = Return (LBoolean b) newSimpleLisp.
Proof.
  apply (proj1 (primitives_fail_by_TypeError_only Less [LString "a"] newSimpleLisp)).
  reflexivity.
Defined.

(** ** Integers: their text, arithmetic and order *)

Module JSArithmetic.
Import JS JSIntegers.
Local Open Scope Z_scope.

(** The double of a positive integer below [2^53], in full. *)
Lemma binary_round_canonical p :
  Zpos p < 2 ^ 53 ->
  exists m e, (forall s, binary_round prec emax s p 0 = S754_finite s m e) /\
              Zpos (digits2_pos m) = 53 /\
              e = Zpos (digits2_pos p) - 53 /\ -52 <= e <= 0 /\
              Zpos m = Zpos p * 2 ^ (- e).
Proof.
  intros Hp. pose proof (digits2_pos_bound p 53 ltac:(lia) Hp) as Hd.
  unfold binary_round, shl_align.
  assert (Hf : fexp prec emax (Zpos (digits2_pos p) + 0) = Zpos (digits2_pos p) - 53).
  { unfold fexp, SpecFloat.emin, prec, emax. lia. }
  rewrite Hf, Z.sub_0_r.
  destruct (Zpos (digits2_pos p) - 53) as [|q|q] eqn:Hq; try lia.
  - exists p, 0. split; [|repeat split; simpl; lia].
    intros s. apply binary_round_aux_exact; lia.
  - exists (Pos.iter xO p q), (Zneg q).
    split; [|split; [|split; [done|split; [lia|]]]].
    + intros s. apply binary_round_aux_exact; [|lia]. rewrite iter_xO_digits. lia.
    + rewrite iter_xO_digits. lia.
    + rewrite iter_xO_value. reflexivity.
Qed.

Lemma iter_shr_1_exact n m :
  SpecFloat.iter_pos shr_1 n (Build_shr_record (Zpos (Pos.iter xO m n)) false false)
  = Build_shr_record (Zpos m) false false.
Proof.
  revert m. induction n as [n IH|n IH|]; intros m; simpl.
  - by rewrite !IH.
  - by rewrite !IH.
  - reflexivity.
Qed.

(** A mantissa that is a 53-bit mantissa [m] followed by zeros is rounded to
    [m]. *)
Lemma binary_round_aux_zeros s m n e :
  Zpos (digits2_pos m) = 53 -> -1074 <= e + Zpos n <= 971 ->
  binary_round_aux prec emax s (Zpos (Pos.iter xO m n)) e loc_Exact
  = S754_finite s m (e + Zpos n).
Proof.
  intros Hd He.
  rewrite <- (binary_round_aux_exact s m (e + Zpos n) Hd He).
  unfold binary_round_aux, shr_fexp. simpl Zdigits2.
  rewrite iter_xO_digits, Hd.
  assert (Hf : fexp prec emax (53 + Zpos n + e) - e = Zpos n).
  { unfold fexp, SpecFloat.emin, prec, emax. lia. }
  assert (Hf' : fexp prec emax (53 + (e + Zpos n)) - (e + Zpos n) = 0).
  { unfold fexp, SpecFloat.emin, prec, emax. lia. }
  rewrite Hf, Hf'.
  assert (Hshift : shr (shr_record_of_loc (Zpos (Pos.iter xO m n)) loc_Exact)
                     e (Zpos n)
                   = (Build_shr_record (Zpos m) false false, e + Zpos n)).
  { unfold shr. cbn [shr_record_of_loc]. by rewrite iter_shr_1_exact. }
  by rewrite Hshift.
Qed.

Lemma pos_of_Z (a b : positive) : Zpos a = Zpos b -> a = b.
Proof. by intros [= ->]. Qed.

(** The integer [P] below [2^53], given as [P * 2^k] with the exponent
    [-k], is rounded as [P] is. *)
Lemma binary_round_shifted s M P k :
  Zpos P < 2 ^ 53 -> 0 <= k <= 1000 -> Zpos M = Zpos P * 2 ^ k ->
  binary_round prec emax s M (- k) = binary_round prec emax s P 0.
Proof.
  intros HP Hk HM.
  destruct (binary_round_canonical P HP) as (m & e & Hround & Hd & He & Hrange & Hm).
  rewrite Hround.
  assert (HdM : Zpos (digits2_pos M) = Zpos (digits2_pos P) + k).
  { destruct k as [|k|k]; [|pose proof (iter_xO_digits P k) as Hi|lia].
    - rewrite Z.mul_1_r in HM. apply pos_of_Z in HM. subst M. lia.
    - rewrite <- iter_xO_value in HM. apply pos_of_Z in HM. by subst M. }
  unfold binary_round, shl_align.
  assert (Hf : fexp prec emax (Zpos (digits2_pos M) + - k) = e).
  { unfold fexp, SpecFloat.emin, prec, emax. lia. }
  rewrite Hf.
  destruct (e - - k) as [|n|n] eqn:Hn.
  - (* [M] has 53 bits *)
    assert (M = m) as ->.
    { apply pos_of_Z. rewrite HM, Hm. f_equal. f_equal. lia. }
    replace (- k) with e by lia. apply binary_round_aux_exact; [done|lia].
  - (* [M] has more: it ends with [n] zeros *)
    assert (M = Pos.iter xO m n) as ->.
    { apply pos_of_Z. rewrite iter_xO_value, HM, Hm, <- Z.mul_assoc.
      f_equal. rewrite <- Z.pow_add_r by lia. f_equal. lia. }
    rewrite binary_round_aux_zeros by (done || lia). f_equal. lia.
  - (* [M] has fewer: it is shifted *)
    assert (Pos.iter xO M n = m) as ->.
    { apply pos_of_Z. rewrite iter_xO_value, HM, Hm, <- Z.mul_assoc.
      f_equal. rewrite <- Z.pow_add_r by lia. f_equal. lia. }
    apply binary_round_aux_exact; [done|lia].
Qed.

(** Addition is exact on the integers below [2^53]. *)
Lemma shl_align_value m e e' :
  e' <= e -> Zpos (fst (shl_align m e e')) = Zpos m * 2 ^ (e - e').
Proof.
  intros He. unfold shl_align.
  destruct (e' - e) as [|n|n] eqn:Hn; simpl; try lia.
  - replace (e - e') with 0 by lia. lia.
  - rewrite iter_xO_value. f_equal. f_equal. lia.
Qed.

Lemma numberOfZ_shifted S k :
  Z.abs S < 2 ^ 53 -> 0 <= k <= 1000 ->
  binary_normalize prec emax (S * 2 ^ k) (- k) false = numberOfZ S.
Proof.
  intros HS Hk. unfold numberOfZ.
  assert (Hpow : 0 < 2 ^ k) by (apply Z.pow_pos_nonneg; lia).
  destruct S as [|P|P]; [done|..].
  - destruct (Zpos P * 2 ^ k) as [|M|M] eqn:HM; try lia.
    simpl. by apply binary_round_shifted.
  - destruct (Zneg P * 2 ^ k) as [|M|M] eqn:HM; try lia.
    simpl. apply binary_round_shifted; [done|done|]. lia.
Qed.

Lemma numberOfZ_finite z :
  z <> 0 -> Z.abs z < 2 ^ 53 ->
  exists m e, numberOfZ z = S754_finite (z <? 0) m e /\
              -52 <= e <= 0 /\ Zpos m = Z.abs z * 2 ^ (- e).
Proof.
  intros Hz Hbound. destruct z as [|p|p]; [done|..];
    destruct (binary_round_canonical p Hbound) as (m & e & Hround & _ & _ & He & Hm);
    exists m, e; (split; [apply Hround|done]).
Qed.

Lemma add_integers a b :
  Z.abs a < 2 ^ 53 -> Z.abs b < 2 ^ 53 -> Z.abs (a + b) < 2 ^ 53 ->
  add (numberOfZ a) (numberOfZ b) = numberOfZ (a + b).
Proof.
  intros Ha Hb Hab.
  destruct (Z.eq_dec a 0) as [->|Hane].
  { destruct b as [|p|p]; [done|..]; simpl;
      destruct (binary_round_canonical p Hb) as (m & e & Hround & _);
      unfold numberOfZ, binary_normalize; by rewrite Hround. }
  destruct (Z.eq_dec b 0) as [->|Hbne].
  { rewrite Z.add_0_r.
    destruct (numberOfZ_finite a Hane Ha) as (m & e & -> & _). done. }
  destruct (numberOfZ_finite a Hane Ha) as (ma & ea & -> & Hea & Hma).
  destruct (numberOfZ_finite b Hbne Hb) as (mb & eb & -> & Heb & Hmb).
  unfold add, SFadd. cbv zeta.
  rewrite !shl_align_value by lia.
  set (k := - Z.min ea eb).
  replace (Z.min ea eb) with (- k) by lia.
  rewrite <- (numberOfZ_shifted (a + b) k) by lia. f_equal.
  assert (Hta : cond_Zopp (a <? 0) (Zpos ma * 2 ^ (ea - - k)) = a * 2 ^ k).
  { rewrite Hma, <- Z.mul_assoc, <- Z.pow_add_r by lia.
    replace (- ea + (ea - - k)) with k by lia.
    unfold cond_Zopp. destruct (Z.ltb_spec a 0); lia. }
  assert (Htb : cond_Zopp (b <? 0) (Zpos mb * 2 ^ (eb - - k)) = b * 2 ^ k).
  { rewrite Hmb, <- Z.mul_assoc, <- Z.pow_add_r by lia.
    replace (- eb + (eb - - k)) with k by lia.
    unfold cond_Zopp. destruct (Z.ltb_spec b 0); lia. }
  rewrite Hta, Htb. lia.
Qed.


Lemma numberOfZ_opp z :
  Z.abs z < 2 ^ 53 -> numberOfZ (- z) = SFopp (numberOfZ z) \/ z = 0.
Proof.
  intros Hz. destruct z as [|p|p]; [by right|left..];
    destruct (binary_round_canonical p Hz) as (m & e & Hround & _);
    unfold numberOfZ, binary_normalize; simpl; by rewrite !Hround.
Qed.

Lemma sub_integers a b :
  Z.abs a < 2 ^ 53 -> Z.abs b < 2 ^ 53 -> Z.abs (a - b) < 2 ^ 53 ->
  sub (numberOfZ a) (numberOfZ b) = numberOfZ (a - b).
Proof.
  intros Ha Hb Hab.
  destruct (Z.eq_dec b 0) as [->|Hbne].
  { rewrite Z.sub_0_r. destruct (Z.eq_dec a 0) as [->|Hane]; [done|].
    destruct (numberOfZ_finite a Hane Ha) as (m & e & -> & _). done. }
  destruct (numberOfZ_finite b Hbne Hb) as (mb & eb & Hnb & Heb & Hmb).
  destruct (Z.eq_dec a 0) as [->|Hane].
  { destruct (numberOfZ_opp b Hb) as [Hopp|]; [|done].
    change (0 - b) with (- b). rewrite Hopp, Hnb. reflexivity. }
  destruct (numberOfZ_finite a Hane Ha) as (ma & ea & -> & Hea & Hma).
  rewrite Hnb. unfold sub, SFsub. cbv zeta.
  rewrite !shl_align_value by lia.
  set (k := - Z.min ea eb).
  replace (Z.min ea eb) with (- k) by lia.
  rewrite <- (numberOfZ_shifted (a - b) k) by lia. f_equal.
  assert (Hta : cond_Zopp (a <? 0) (Zpos ma * 2 ^ (ea - - k)) = a * 2 ^ k).
  { rewrite Hma, <- Z.mul_assoc, <- Z.pow_add_r by lia.
    replace (- ea + (ea - - k)) with k by lia.
    unfold cond_Zopp. destruct (Z.ltb_spec a 0); lia. }
  assert (Htb : cond_Zopp (b <? 0) (Zpos mb * 2 ^ (eb - - k)) = b * 2 ^ k).
  { rewrite Hmb, <- Z.mul_assoc, <- Z.pow_add_r by lia.
    replace (- eb + (eb - - k)) with k by lia.
    unfold cond_Zopp. destruct (Z.ltb_spec b 0); lia. }
  rewrite Hta, Htb. lia.
Qed.

(** Multiplication is exact on the integers below [2^53] that are not
    zero. *)
Lemma numberOfZ_canonical z :
  z <> 0 -> Z.abs z < 2 ^ 53 ->
  exists m e, numberOfZ z = S754_finite (z <? 0) m e /\
              Zpos (digits2_pos m) = 53 /\
              -52 <= e <= 0 /\ Zpos m = Z.abs z * 2 ^ (- e).
Proof.
  intros Hz Hbound. destruct z as [|p|p]; [done|..];
    destruct (binary_round_canonical p Hbound)
      as (m & e & Hround & Hd & _ & He & Hm);
    exists m, e; (split; [apply Hround|done]).
Qed.

Lemma mul_integers a b :
  a <> 0 -> b <> 0 -> Z.abs (a * b) < 2 ^ 53 ->
  mul (numberOfZ a) (numberOfZ b) = numberOfZ (a * b).
Proof.
  intros Hane Hbne Hab.
  assert (Ha : Z.abs a < 2 ^ 53) by nia.
  assert (Hb : Z.abs b < 2 ^ 53) by nia.
  destruct (numberOfZ_canonical a Hane Ha) as (ma & ea & -> & Hda & Hea & Hma).
  destruct (numberOfZ_canonical b Hbne Hb) as (mb & eb & -> & Hdb & Heb & Hmb).
  destruct (numberOfZ_canonical (a * b) ltac:(nia) Hab)
    as (m & e & -> & Hd & He & Hm).
  unfold mul, SFmul.
  replace (xorb (a <? 0) (b <? 0)) with (a * b <? 0)
    by (destruct (Z.ltb_spec a 0), (Z.ltb_spec b 0), (Z.ltb_spec (a * b) 0);
        try reflexivity; nia).
  (* the product of the mantissas is [m] followed by zeros *)
  assert (Hn : 0 < e - (ea + eb)).
  { assert (Hlow : forall p, Zpos (digits2_pos p) = 53 -> 2 ^ 52 <= Zpos p).
    { intros p Hp. rewrite digits2_pos_log2 in Hp.
      apply Z.log2_le_pow2; lia. }
    assert (Hup : forall p, Zpos (digits2_pos p) = 53 -> Zpos p < 2 ^ 53).
    { intros p Hp. rewrite digits2_pos_log2 in Hp.
      apply Z.log2_lt_pow2; lia. }
    pose proof (Hlow ma Hda). pose proof (Hlow mb Hdb). pose proof (Hup m Hd).
    destruct (Z.le_gt_cases (e - (ea + eb)) 0) as [Hle|]; [exfalso|done].
    assert (Hprod : Zpos m = Zpos ma * Zpos mb * 2 ^ (- (e - (ea + eb)))).
    { rewrite Hm, Hma, Hmb, Z.abs_mul.
      replace (- e) with (- ea + - eb + - (e - (ea + eb))) by lia.
      rewrite !Z.pow_add_r by lia. lia. }
    assert (0 < 2 ^ (- (e - (ea + eb)))) by (apply Z.pow_pos_nonneg; lia).
    change (2 ^ 52) with 4503599627370496 in *.
    change (2 ^ 53) with 9007199254740992 in *. nia. }
  destruct (e - (ea + eb)) as [|n|n] eqn:Hdiff; try lia.
  assert ((ma * mb)%positive = Pos.iter xO m n) as ->.
  { apply pos_of_Z. rewrite iter_xO_value, Pos2Z.inj_mul, Hm, Hma, Hmb, Z.abs_mul.
    assert (Hpow : 2 ^ (- ea) * 2 ^ (- eb) = 2 ^ (- e) * 2 ^ Zpos n).
    { rewrite <- !Z.pow_add_r by lia. f_equal. lia. }
    rewrite <- (Z.mul_assoc _ (2 ^ (- e))), <- Hpow. ring. }
  rewrite binary_round_aux_zeros by (done || lia). f_equal. lia.
Qed.


(** *** The text of an integer *)

Lemma binary_round_large s P s' m e :
  2 ^ 53 <= Zpos P ->
  binary_round prec emax s P 0 = S754_finite s' m e -> 1 <= e.
Proof.
  intros HP.
  assert (Hd : 54 <= Zpos (digits2_pos P)).
  { rewrite digits2_pos_log2. pose proof (Z.log2_le_pow2 (Zpos P) 53 ltac:(lia)).
    lia. }
  unfold binary_round, shl_align.
  assert (Hf : fexp prec emax (Zpos (digits2_pos P) + 0) = Zpos (digits2_pos P) - 53).
  { unfold fexp, SpecFloat.emin, prec, emax. lia. }
  rewrite Hf, Z.sub_0_r.
  destruct (Zpos (digits2_pos P) - 53) as [|n|n] eqn:Hn; try lia.
  unfold binary_round_aux.
  destruct (shr_fexp prec emax (Zpos P) 0 loc_Exact) as [mrs1 e1] eqn:H1.
  assert (He1 : 1 <= e1).
  { unfold shr_fexp in H1. simpl Zdigits2 in H1. rewrite Hf, Z.sub_0_r in H1.
    unfold shr in H1. injection H1 as _ <-. lia. }
  destruct (shr_fexp prec emax _ e1 loc_Exact) as [mrs2 e2] eqn:H2.
  assert (He2 : e1 <= e2).
  { unfold shr_fexp, shr in H2.
    destruct (fexp prec emax _ - e1); injection H2 as _ <-; lia. }
  destruct (shr_m mrs2); [done| |done].
  destruct (e2 <=? emax - prec); [|done]. intros [= _ _ <-]. lia.
Qed.

Lemma string_of_uint_revapp d d' :
  NilEmpty.string_of_uint (Decimal.revapp d d')
  = NilEmpty.string_of_uint (Decimal.rev d) +:+ NilEmpty.string_of_uint d'.
Proof.
  unfold Decimal.rev. revert d'.
  induction d as [|d IH|d IH|d IH|d IH|d IH|d IH|d IH|d IH|d IH|d IH];
    intros d'; simpl; [done|..];
    rewrite IH, (IH (_ Decimal.Nil)), append_assoc; reflexivity.
Qed.

Lemma decimalString_tenfold z :
  0 < z -> decimalString (z * 10) = decimalString z +:+ "0".
Proof.
  intros Hz. unfold decimalString.
  destruct z as [|p|p]; try lia.
  replace (Z.to_N (Zpos p * 10)) with (10 * N.pos p)%N by lia.
  change (Z.to_N (Zpos p)) with (N.pos p).
  change (N.to_uint (10 * N.pos p)) with (Decimal.rev (DecimalPos.Unsigned.to_lu (10 * N.pos p))).
  rewrite DecimalPos.Unsigned.to_ldec_tenfold.
  change (Decimal.rev (Decimal.D0 (DecimalPos.Unsigned.to_lu (N.pos p))))
    with (Decimal.revapp (DecimalPos.Unsigned.to_lu (N.pos p)) (Decimal.D0 Decimal.Nil)).
  by rewrite string_of_uint_revapp.
Qed.

Lemma decimalString_zeros s q :
  0 < s -> decimalString s +:+ zeros q = decimalString (s * 10 ^ Z.of_nat q).
Proof.
  intros Hs. induction q as [|q IH].
  - by rewrite append_empty_r, Z.mul_1_r.
  - rewrite Nat2Z.inj_succ, Z.pow_succ_r by lia.
    replace (s * (10 * 10 ^ Z.of_nat q)) with (s * 10 ^ Z.of_nat q * 10) by lia.
    assert (0 < 10 ^ Z.of_nat q) by (apply Z.pow_pos_nonneg; lia).
    rewrite decimalString_tenfold by nia. rewrite <- IH, append_assoc.
    f_equal. clear. induction q as [|q IH]; [done|].
    change (String "0" (zeros (S q)) = String "0" (zeros q +:+ "0")).
    by rewrite IH.
Qed.

Lemma toString_positive (negative : bool) p m e :
  Zpos p < 2 ^ 53 ->
  (forall s, binary_round prec emax s p 0 = S754_finite s m e) ->
  -52 <= e <= 0 -> Zpos m = Zpos p * 2 ^ (- e) ->
  toString (S754_finite negative m e)
  = (if negative then "-" else "") +:+ decimalString (Zpos p).
Proof.
  intros Hp Hround He Hm.
  destruct (toString_integer negative m e (Zpos p)) as (s & q & -> & Hs & Hback);
    [lia|done|done|apply Hround|].
  f_equal. rewrite decimalString_zeros by done. f_equal.
  assert (Hpos : 0 < s * 10 ^ Z.of_nat q).
  { assert (0 < 10 ^ Z.of_nat q) by (apply Z.pow_pos_nonneg; lia). nia. }
  destruct (s * 10 ^ Z.of_nat q) as [|M|M] eqn:HM; try lia.
  simpl Z.to_pos in Hback.
  destruct (Z.le_gt_cases (2 ^ 53) (Zpos M)) as [Hlarge|Hsmall].
  { pose proof (binary_round_large _ _ _ _ _ Hlarge Hback). lia. }
  destruct (binary_round_canonical M Hsmall) as (m' & e' & Hround' & _ & _ & _ & Hm').
  rewrite Hround' in Hback. injection Hback as -> ->.
  rewrite Hm in Hm'.
  assert (0 < 2 ^ (- e)) by (apply Z.pow_pos_nonneg; lia). nia.
Qed.

(** An integer below [2^53] is printed as its decimal text. *)
Lemma toString_integerText z :
  Z.abs z < 2 ^ 53 -> toString (numberOfZ z) = integerText z.
Proof.
  intros Hz. destruct z as [|p|p]; [done|..];
    destruct (binary_round_canonical p Hz) as (m & e & Hround & _ & _ & He & Hm);
    unfold numberOfZ, binary_normalize, integerText; rewrite Hround.
  - by rewrite (toString_positive false p m e).
  - by rewrite (toString_positive true p m e).
Qed.

(** The decimal text of an integer is read as the double of the integer. *)
Lemma stringToNumber_integerText z :
  stringToNumber (integerText z) = numberOfZ z.
Proof.
  destruct z as [|p|p]; [done|..].
  - transitivity (binary_round prec emax false (Z.to_pos (Zpos p * 10 ^ Z.of_nat 0)) 0).
    + rewrite <- (stringToNumber_integer false (Zpos p) 0) by lia.
      rewrite append_empty_r. reflexivity.
    + simpl. by rewrite Pos.mul_1_r.
  - transitivity (binary_round prec emax true (Z.to_pos (Zpos p * 10 ^ Z.of_nat 0)) 0).
    + rewrite <- (stringToNumber_integer true (Zpos p) 0) by lia.
      rewrite append_empty_r. reflexivity.
    + simpl. by rewrite Pos.mul_1_r.
Qed.

Lemma atomText_integerText z : atomText (integerText z) = true.
Proof.
  unfold integerText. apply atomText_intro.
  - apply append_not_empty_r, decimalString_not_empty.
  - rewrite plainText_append, plainText_decimalString. by destruct (z <? 0).
Qed.

End JSArithmetic.

(** *** Calls with integer arguments *)

Lemma numericText_integerText z : numericText (integerText z) = true.
Proof.
  pose proof (isNaN_stringToNumber (integerText z)) as H.
  rewrite JSArithmetic.stringToNumber_integerText, JSFacts.numberOfZ_not_nan in H.
  by destruct (numericText (integerText z)).
Qed.

Lemma atomValue_integerText z : atomValue (integerText z) = LNumber (JS.numberOfZ z).
Proof.
  unfold atomValue.
  by rewrite numericText_integerText, JSArithmetic.stringToNumber_integerText.
Qed.

Lemma atomValue_symbol name : symbolText name = true -> atomValue name = LString name.
Proof.
  unfold symbolText, atomValue.
  intros [[_ Hnan]%andb_true_iff Hlow%String.eqb_eq]%andb_true_iff.
  rewrite isNaN_stringToNumber in Hnan.
  destruct (numericText name); [done|]. by rewrite Hlow.
Qed.

Lemma tokenize_atoms parts :
  Forall (fun t => atomText t = true) parts ->
  tokenize (JS.join " " parts) = parts.
Proof.
  intros Hparts. rewrite tokenize_join.
  induction Hparts as [|t parts Ht _ IH]; [done|].
  cbn [List.map concat]. by rewrite IH, tokenize_atom.
Qed.

Lemma atomText_integerTexts zs :
  Forall (fun t => atomText t = true) (List.map integerText zs).
Proof.
  induction zs as [|z zs IH]; constructor; [|done].
  apply JSArithmetic.atomText_integerText.
Qed.

Lemma tokenize_callText name zs :
  atomText name = true ->
  tokenize (callText name zs) = "(" :: name :: List.map integerText zs ++ [")"].
Proof.
  intros Hname. unfold callText.
  change ("(" +:+ ?x) with (EmptyString +:+ String "(" x).
  rewrite (tokenize_at_delimiter EmptyString "(" _ eq_refl).
  change (tokenize EmptyString) with (@nil string). cbn [app]. f_equal.
  rewrite (tokenize_at_delimiter _ ")" EmptyString eq_refl).
  change (tokenize EmptyString) with (@nil string).
  rewrite tokenize_atoms; [done|].
  constructor; [done|]. apply atomText_integerTexts.
Qed.

(** The atoms up to a closing parenthesis are the items of the list. *)
Lemma parseItems_atoms atoms pre post items fuel f next :
  Forall (fun t => atomText t = true) atoms ->
  length atoms < fuel ->
  parseItems (parseExpression (S f) (pre ++ atoms ++ ")" :: post)) fuel
    (pre ++ atoms ++ ")" :: post) items (length pre) next
  = Return (items ++ List.map atomValue atoms, length pre + length atoms + 1) next.
Proof.
  intros Hatoms. revert pre items fuel.
  induction Hatoms as [|t atoms Ht _ IH]; intros pre items fuel Hfuel;
    (destruct fuel as [|fuel]; [simpl in Hfuel; lia|]); rewrite parseItems_eq.
  - assert (Htok : (pre ++ [] ++ ")" :: post) !! length pre = Some ")").
    { by rewrite lookup_app_r, Nat.sub_diag by lia. }
    unfold tokenIs. rewrite Htok. cbn [String.eqb Ascii.eqb Bool.eqb negb].
    rewrite andb_false_r.
    replace (length (pre ++ [] ++ ")" :: post) <=? length pre) with false
      by (symmetry; apply Nat.leb_gt; rewrite length_app; simpl; lia).
    rewrite app_nil_r. do 2 f_equal. simpl. lia.
  - assert (Htok : (pre ++ (t :: atoms) ++ ")" :: post) !! length pre = Some t).
    { by rewrite lookup_app_r, Nat.sub_diag by lia. }
    unfold tokenIs at 1. rewrite Htok, (atomText_not_close t Ht).
    replace (length pre <? length (pre ++ (t :: atoms) ++ ")" :: post)) with true
      by (symmetry; apply Nat.ltb_lt; rewrite length_app; simpl; lia).
    cbn [andb negb].
    rewrite (parseExpression_atom f _ (length pre) next t Htok
               (atomText_not_delimiter t Ht)).
    fold (atomValue t).
    replace (pre ++ (t :: atoms) ++ ")" :: post)
      with ((pre ++ [t]) ++ atoms ++ ")" :: post) by (by rewrite <- app_assoc).
    replace (length pre + 1) with (length (pre ++ [t]))
      by (rewrite length_app; simpl; lia).
    rewrite IH by (simpl in Hfuel; lia).
    rewrite <- app_assoc. do 2 f_equal. rewrite length_app. simpl. lia.
Qed.

(** The call is read as the list of the symbol and the numbers. *)
Lemma parse_callText name zs next :
  symbolText name = true ->
  parse (callText name zs) next
  = Return [LArray next (LString name :: integers zs)] (S next).
Proof.
  intros Hname.
  assert (Hatom : atomText name = true).
  { unfold symbolText in Hname.
    by apply andb_true_iff in Hname as [[H _]%andb_true_iff _]. }
  unfold parse. rewrite (tokenize_callText name zs Hatom).
  assert (Hatoms : Forall (fun t => atomText t = true)
                     (name :: List.map integerText zs)).
  { constructor; [done|]. apply atomText_integerTexts. }
  assert (Hvalues : List.map atomValue (name :: List.map integerText zs)
                    = LString name :: integers zs).
  { cbn [List.map]. rewrite (atomValue_symbol name Hname). f_equal.
    unfold integers. rewrite List.map_map. apply List.map_ext.
    intros z. apply atomValue_integerText. }
  change ("(" :: name :: List.map integerText zs ++ [")"])
    with ("(" :: (name :: List.map integerText zs) ++ [")"]).
  remember (name :: List.map integerText zs) as atoms eqn:Heq. clear Heq.
  pose proof (parseItems_atoms atoms ["("] [] [] (S (S (length atoms)))
                (S (length atoms)) (S next) Hatoms ltac:(lia)) as Hitems.
  cbn [app length Nat.add] in Hitems.
  assert (Hlen : length ("(" :: atoms ++ [")"]) = S (S (length atoms))).
  { cbn [length]. rewrite length_app. simpl. lia. }
  rewrite Hlen, parseAll_eq, Hlen. cbn [Nat.ltb Nat.leb].
  rewrite parseExpression_eq. unfold tokenIs at 1.
  cbn [lookup list_lookup String.eqb Ascii.eqb Bool.eqb Nat.add].
  rewrite Hitems, Hvalues, parseAll_eq, Hlen.
  replace (S (length atoms + 1) <? S (S (length atoms))) with false
    by (symmetry; apply Nat.ltb_ge; lia).
  reflexivity.
Qed.

Lemma evaluateEach_integers fuel zs env st :
  evaluateEach (evaluateExpression (S fuel)) (integers zs) env st
  = Return (integers zs) st.
Proof.
  induction zs as [|z zs IH]; [done|].
  change (integers (z :: zs)) with (LNumber (JS.numberOfZ z) :: integers zs).
  cbn [evaluateEach].
  change (evaluateExpression (S fuel) (LNumber (JS.numberOfZ z)) env st)
    with (Return (LNumber (JS.numberOfZ z)) st).
  cbn [bind]. by rewrite IH.
Qed.

(** A call of a primitive with integer arguments applies the primitive to
    the numbers and prints what it returns. *)
Lemma evaluate_builtin_call fuel name p zs st e :
  symbolText name = true ->
  String.eqb name "quote" = false -> String.eqb name "if" = false ->
  String.eqb name "defun" = false ->
  heap st !! globalEnv = Some e ->
  getProperty e name = Some (Callable (Builtin p)) ->
  evaluate (S (S fuel)) (callText name zs) st
  = bind (applyPrimitive p (integers zs)
            {| heap := heap st; output := []; nextArray := S (nextArray st) |})
      (fun v st2 =>
         Return (stringify v,
                 if 0 <? length (output st2)
                 then JS.join newline (output st2) +:+ newline +:+ stringify v
                 else stringify v) st2).
Proof.
  intros Hname Hquote Hif Hdefun Hheap Hfn. unfold evaluate.
  rewrite (parse_callText name zs _ Hname).
  cbn [withOutput heap output nextArray evaluateSequence].
  change (evaluateExpression (S (S fuel)) ?x ?env ?s)
    with (evaluateExpressionBody (evaluateExpression (S fuel)) x env s).
  cbn [evaluateExpressionBody strictEquals heap].
  rewrite Hquote, Hif, Hdefun, Hheap, Hfn.
  cbn [bind drop callFunction]. rewrite drop_0, evaluateEach_integers. cbn [bind].
  by destruct (applyPrimitive p (integers zs) _).
Qed.

Lemma sumOf_size zs : (Z.abs (sumOf zs) <= totalSize zs)%Z.
Proof. induction zs as [|z zs IH]; simpl; lia. Qed.

Lemma totalSize_nonneg zs : (0 <= totalSize zs)%Z.
Proof. induction zs as [|z zs IH]; simpl; lia. Qed.

Lemma fold_plus_integers zs acc :
  (Z.abs acc + totalSize zs < 2 ^ 53)%Z ->
  fold_left plus (integers zs) (LNumber (JS.numberOfZ acc))
  = LNumber (JS.numberOfZ (acc + sumOf zs)).
Proof.
  revert acc. induction zs as [|z zs IH]; intros acc Hsize.
  - simpl. by rewrite Z.add_0_r.
  - pose proof (totalSize_nonneg zs). simpl in Hsize.
    cbn [integers List.map fold_left]. fold (integers zs).
    change (plus (LNumber ?a) (LNumber ?b)) with (LNumber (JS.add a b)).
    rewrite JSArithmetic.add_integers by lia.
    rewrite IH by lia. simpl. do 2 f_equal. lia.
Qed.

Lemma fold_sub_integers zs acc :
  (Z.abs acc + totalSize zs < 2 ^ 53)%Z ->
  fold_left (numeric JS.sub) (integers zs) (LNumber (JS.numberOfZ acc))
  = LNumber (JS.numberOfZ (acc - sumOf zs)).
Proof.
  revert acc. induction zs as [|z zs IH]; intros acc Hsize.
  - simpl. by rewrite Z.sub_0_r.
  - pose proof (totalSize_nonneg zs). simpl in Hsize.
    cbn [integers List.map fold_left]. fold (integers zs).
    change (numeric JS.sub (LNumber ?a) (LNumber ?b)) with (LNumber (JS.sub a b)).
    rewrite JSArithmetic.sub_integers by lia.
    rewrite IH by lia. simpl. do 2 f_equal. lia.
Qed.

Lemma productOf_nonzero zs : Forall (fun z => z <> 0%Z) zs -> productOf zs <> 0%Z.
Proof. induction 1 as [|z zs Hz _ IH]; simpl; lia. Qed.

Lemma fold_mul_integers zs acc :
  acc <> 0%Z -> Forall (fun z => z <> 0%Z) zs ->
  (Z.abs (acc * productOf zs) < 2 ^ 53)%Z ->
  fold_left (numeric JS.mul) (integers zs) (LNumber (JS.numberOfZ acc))
  = LNumber (JS.numberOfZ (acc * productOf zs)).
Proof.
  intros Hacc Hzs. revert acc Hacc.
  induction Hzs as [|z zs Hz Hzs IH]; intros acc Hacc Hsize.
  - simpl. by rewrite Z.mul_1_r.
  - pose proof (productOf_nonzero zs Hzs) as Hp. simpl in Hsize.
    cbn [integers List.map fold_left]. fold (integers zs).
    change (numeric JS.mul (LNumber ?a) (LNumber ?b)) with (LNumber (JS.mul a b)).
    rewrite JSArithmetic.mul_integers by (done || nia).
    rewrite IH by (nia || (rewrite <- Z.mul_assoc; done)).
    simpl. do 2 f_equal. lia.
Qed.

Lemma stringify_integer z :
  (Z.abs z < 2 ^ 53)%Z -> stringify (LNumber (JS.numberOfZ z)) = integerText z.
Proof. apply JSArithmetic.toString_integerText. Qed.

Lemma stringify_negated z :
  (Z.abs z < 2 ^ 53)%Z ->
  stringify (LNumber (JS.neg (JS.numberOfZ z))) = integerText (- z).
Proof.
  intros Hz. destruct (JSArithmetic.numberOfZ_opp z Hz) as [Hopp| ->].
  - unfold JS.neg. rewrite <- Hopp. apply stringify_integer. lia.
  - reflexivity.
Qed.

(** X24. The integers below [2^53] are printed and read exactly: such a
    number is printed as the decimal text of the integer, with a minus sign
    before it when it is negative and with neither a fraction nor an
    exponent, and [parse] reads that text as the one expression that is
    this number. *)
Theorem integers_print_and_read z next :
  (Z.abs z < 2 ^ 53)%Z ->
  stringify (LNumber (JS.numberOfZ z)) = integerText z /\
  parse (integerText z) next = Return [LNumber (JS.numberOfZ z)] next.
Proof.
  intros Hz. split; [by apply stringify_integer|].
  unfold parse. rewrite (tokenize_atom _ (JSArithmetic.atomText_integerText z)).
  cbn [length]. rewrite parseAll_eq. cbn [length Nat.ltb Nat.leb].
  rewrite (parseExpression_atom 1 [integerText z] 0 next (integerText z) eq_refl
             (atomText_not_delimiter _ (JSArithmetic.atomText_integerText z))).
  fold (atomValue (integerText z)). rewrite atomValue_integerText.
  reflexivity.
Qed.

Lemma integers_print_and_read_witness :
  stringify (LNumber (JS.numberOfZ (-9007199254740991))) = integerText (-9007199254740991) /\
  parse (integerText (-9007199254740991)) 0
  = Return [LNumber (JS.numberOfZ (-9007199254740991))] 0.
Proof.
  apply (integers_print_and_read (-9007199254740991) 0).
  vm_compute. reflexivity.
Defined.

(** X25. [+] adds integers exactly, end to end: when the absolute values of
    the integers sum to less than [2^53] and [+] is still the primitive,
    [evaluate] on the call [(+ z1 ... zn)] returns the decimal text of the
    sum, as result and as output, and leaves the environments as they were.
    With no argument the sum is 0. *)
Theorem sum_of_integers fuel zs st e :
  heap st !! globalEnv = Some e ->
  e !! "+" = Some (Callable (Builtin Plus)) ->
  (totalSize zs < 2 ^ 53)%Z ->
  exists st',
    evaluate (S (S fuel)) (callText "+" zs) st
    = Return (integerText (sumOf zs), integerText (sumOf zs)) st' /\
    heap st' = heap st.
Proof.
  intros Hheap Hplus Hsize.
  rewrite (evaluate_builtin_call fuel "+" Plus zs st e eq_refl eq_refl eq_refl
             eq_refl Hheap).
  2:{ unfold getProperty. cbn [String.eqb Ascii.eqb Bool.eqb]. by rewrite Hplus. }
  cbn [applyPrimitive]. rewrite (fold_plus_integers zs 0) by (simpl; lia).
  cbn [bind output length Nat.ltb Nat.leb]. rewrite Z.add_0_l.
  pose proof (sumOf_size zs).
  rewrite stringify_integer by lia. by eexists.
Qed.

Lemma sum_of_integers_witness :
  exists st',
    evaluate 2 (callText "+" [40; -2; 4]%Z) newSimpleLisp
    = Return (integerText (sumOf [40; -2; 4]%Z), integerText (sumOf [40; -2; 4]%Z)) st' /\
    heap st' = heap newSimpleLisp.
Proof.
  apply (sum_of_integers 0 [40; -2; 4]%Z newSimpleLisp createGlobalEnvironment).
  - reflexivity.
  - vm_compute. reflexivity.
  - vm_compute. reflexivity.
Defined.

(** X26. [-] subtracts integers exactly, end to end: when the absolute
    values of the integers sum to less than [2^53] and [-] is still the
    primitive, [evaluate] on the call [(- x z1 ... zn)] returns the decimal
    text of [x] minus the sum of the others, and on [(- x)] that of the
    opposite of [x] (for 0 the text [0], without a sign). *)
Theorem difference_of_integers fuel x zs st e :
  heap st !! globalEnv = Some e ->
  e !! "-" = Some (Callable (Builtin Minus)) ->
  (Z.abs x + totalSize zs < 2 ^ 53)%Z ->
  let d := match zs with [] => (- x)%Z | _ => (x - sumOf zs)%Z end in
  exists st',
    evaluate (S (S fuel)) (callText "-" (x :: zs)) st
    = Return (integerText d, integerText d) st' /\
    heap st' = heap st.
Proof.
  intros Hheap Hminus Hsize d.
  rewrite (evaluate_builtin_call fuel "-" Minus (x :: zs) st e eq_refl eq_refl
             eq_refl eq_refl Hheap).
  2:{ unfold getProperty. cbn [String.eqb Ascii.eqb Bool.eqb]. by rewrite Hminus. }
  pose proof (totalSize_nonneg zs). pose proof (sumOf_size zs).
  destruct zs as [|z zs].
  - cbn [applyPrimitive integers List.map toNumber bind output length Nat.ltb Nat.leb].
    subst d. rewrite stringify_negated by lia. by eexists.
  - change (integers (x :: z :: zs))
      with (LNumber (JS.numberOfZ x) :: integers (z :: zs)).
    change (applyPrimitive Minus (LNumber (JS.numberOfZ x) :: integers (z :: zs)) ?s)
      with (Return (fold_left (numeric JS.sub) (integers (z :: zs))
                      (LNumber (JS.numberOfZ x))) s).
    rewrite fold_sub_integers by done.
    cbn [bind output length Nat.ltb Nat.leb]. subst d.
    rewrite stringify_integer by lia. by eexists.
Qed.

Lemma difference_of_integers_witness :
  exists st',
    evaluate 2 (callText "-" [10; 3; -4]%Z) newSimpleLisp
    = Return (integerText 11, integerText 11) st' /\
    heap st' = heap newSimpleLisp.
Proof.
  apply (difference_of_integers 0 10 [3; -4]%Z newSimpleLisp createGlobalEnvironment).
  - reflexivity.
  - vm_compute. reflexivity.
  - vm_compute. reflexivity.
Defined.

(** X27. [*] multiplies integers exactly, end to end: when none of the
    integers is 0, their product is below [2^53] in absolute value and [*]
    is still the primitive, [evaluate] on the call of [*] with these
    integers as arguments returns the decimal text of the product. With no
    argument the product is 1. *)
Theorem product_of_integers fuel zs st e :
  heap st !! globalEnv = Some e ->
  e !! "*" = Some (Callable (Builtin Times)) ->
  Forall (fun z => z <> 0%Z) zs ->
  (Z.abs (productOf zs) < 2 ^ 53)%Z ->
  exists st',
    evaluate (S (S fuel)) (callText "*" zs) st
    = Return (integerText (productOf zs), integerText (productOf zs)) st' /\
    heap st' = heap st.
Proof.
  intros Hheap Htimes Hzs Hsize.
  rewrite (evaluate_builtin_call fuel "*" Times zs st e eq_refl eq_refl eq_refl
             eq_refl Hheap).
  2:{ unfold getProperty. cbn [String.eqb Ascii.eqb Bool.eqb]. by rewrite Htimes. }
  cbn [applyPrimitive].
  rewrite (fold_mul_integers zs 1) by (done || by rewrite Z.mul_1_l).
  cbn [bind output length Nat.ltb Nat.leb]. rewrite Z.mul_1_l.
  rewrite stringify_integer by done. by eexists.
Qed.

Lemma product_of_integers_witness :
  exists st',
    evaluate 2 (callText "*" [6; -7; 1024]%Z) newSimpleLisp
    = Return (integerText (productOf [6; -7; 1024]%Z),
              integerText (productOf [6; -7; 1024]%Z)) st' /\
    heap st' = heap newSimpleLisp.
Proof.
  apply (product_of_integers 0 [6; -7; 1024]%Z newSimpleLisp createGlobalEnvironment).
  - reflexivity.
  - vm_compute. reflexivity.
  - repeat constructor; discriminate.
  - vm_compute. reflexivity.
Defined.

(** *** The order of integers *)

Module JSOrder.
Import JS JSIntegers JSArithmetic.
Local Open Scope Z_scope.

Lemma digits2_pos_bounds p :
  2 ^ (Zpos (digits2_pos p) - 1) <= Zpos p < 2 ^ Zpos (digits2_pos p).
Proof.
  rewrite digits2_pos_log2.
  pose proof (Z.log2_spec (Zpos p) ltac:(lia)) as H.
  replace (Z.log2 (Zpos p) + 1 - 1) with (Z.log2 (Zpos p)) by lia.
  replace (Z.log2 (Zpos p) + 1) with (Z.succ (Z.log2 (Zpos p))) by lia.
  exact H.
Qed.

Lemma fewer_digits p q :
  Zpos (digits2_pos p) < Zpos (digits2_pos q) -> Zpos p < Zpos q.
Proof.
  intros Hd. pose proof (digits2_pos_bounds p) as [_ Hp].
  pose proof (digits2_pos_bounds q) as [Hq _].
  pose proof (Z.pow_le_mono_r 2 (Zpos (digits2_pos p)) (Zpos (digits2_pos q) - 1)
                ltac:(lia) ltac:(lia)).
  lia.
Qed.

(** The order of two doubles of positive integers below [2^53] is that of
    the integers. *)
Lemma compare_positive p q m e m' e' :
  e = Zpos (digits2_pos p) - 53 -> e' = Zpos (digits2_pos q) - 53 ->
  -52 <= e <= 0 -> -52 <= e' <= 0 ->
  Zpos m = Zpos p * 2 ^ (- e) -> Zpos m' = Zpos q * 2 ^ (- e') ->
  match e ?= e' with
  | Eq => Pos.compare_cont Eq m m'
  | Lt => Lt
  | Gt => Gt
  end = (Zpos p ?= Zpos q).
Proof.
  intros He He' Hr Hr' Hm Hm'. symmetry.
  destruct (Z.compare_spec e e') as [Heq|Hlt|Hgt].
  - subst e'. change (Pos.compare_cont Eq m m') with (Zpos m ?= Zpos m').
    rewrite Hm, Hm', <- Heq.
    assert (HK : 0 < 2 ^ (- e)) by (apply Z.pow_pos_nonneg; lia).
    destruct (Z.compare_spec (Zpos p) (Zpos q)) as [H|H|H]; symmetry;
      [apply Z.compare_eq_iff|apply Z.compare_lt_iff|apply Z.compare_gt_iff]; nia.
  - apply Z.compare_lt_iff, fewer_digits. lia.
  - apply Z.compare_gt_iff, fewer_digits. lia.
Qed.

Lemma compare_integers a b :
  Z.abs a < 2 ^ 53 -> Z.abs b < 2 ^ 53 ->
  SFcompare (numberOfZ a) (numberOfZ b) = Some (a ?= b).
Proof.
  intros Ha Hb. unfold numberOfZ, binary_normalize.
  destruct a as [|p|p], b as [|q|q]; try reflexivity;
    try (destruct (binary_round_canonical p Ha) as (m & e & Hround & _ & He & Hr & Hm);
         rewrite Hround);
    try (destruct (binary_round_canonical q Hb) as (m' & e' & Hround' & _ & He' & Hr' & Hm');
         rewrite Hround');
    try reflexivity.
  - simpl SFcompare. f_equal. by apply compare_positive.
  - simpl SFcompare. f_equal.
    change (Zneg p ?= Zneg q) with (CompOpp (Zpos p ?= Zpos q)).
    rewrite <- (compare_positive p q m e m' e') by done.
    by destruct (e ?= e').
Qed.

End JSOrder.

(** The comparison primitives on two integers below [2^53]. *)
Lemma applyPrimitive_comparison p a b rest st :
  (exists name, In (name, p) comparisons) ->
  (Z.abs a < 2 ^ 53)%Z -> (Z.abs b < 2 ^ 53)%Z ->
  applyPrimitive p (integers (a :: b :: rest)) st
  = Return (LBoolean (comparison p a b)) st.
Proof.
  intros [name Hp] Ha Hb.
  pose proof (JSOrder.compare_integers a b Ha Hb) as Hab.
  pose proof (JSOrder.compare_integers b a Hb Ha) as Hba.
  assert (Hless : forall x y,
             SFcompare (JS.numberOfZ x) (JS.numberOfZ y) = Some (x ?= y)%Z ->
             lessThan (LNumber (JS.numberOfZ x)) (LNumber (JS.numberOfZ y))
             = Some (x <? y)%Z).
  { intros x y Hxy. unfold lessThan. cbn [isTextual andb toNumber].
    rewrite !JSFacts.numberOfZ_not_nan. cbn [orb].
    unfold JS.numberLess, SFltb, Z.ltb. rewrite Hxy.
    by destruct (x ?= y)%Z. }
  cbn [integers List.map]. unfold applyPrimitive, item.
  cbn [lookup list_lookup default].
  change (id (LNumber ?x)) with (LNumber x).
  simpl in Hp.
  destruct Hp as [Hp|[Hp|[Hp|[Hp|[Hp|[]]]]]]; injection Hp as _ <-;
    rewrite ?(Hless a b Hab), ?(Hless b a Hba); do 2 f_equal.
  - unfold strictEquals, JS.numberEquals, SFeqb, comparison.
    rewrite Hab.
    destruct (Z.compare_spec a b), (Z.eqb_spec a b); (reflexivity || lia).
  - cbn [comparison]. destruct (a <? b)%Z; done.
  - cbn [comparison]. destruct (b <? a)%Z; done.
  - cbn [comparison]. rewrite Z.leb_antisym. destruct (b <? a)%Z; done.
  - cbn [comparison]. rewrite Z.leb_antisym. destruct (a <? b)%Z; done.
Qed.

(** X28. The comparisons decide the order of integers, end to end: for two
    integers below [2^53] in absolute value and a comparison [=], [<], [>],
    [<=] or [>=] that is still the primitive, [evaluate] on the call with
    the two integers returns [T] when the relation holds between them and
    [NIL] when it does not, and leaves the environments as they were. *)
Theorem comparison_of_integers fuel name p a b st e :
  In (name, p) comparisons ->
  heap st !! globalEnv = Some e ->
  e !! name = Some (Callable (Builtin p)) ->
  (Z.abs a < 2 ^ 53)%Z -> (Z.abs b < 2 ^ 53)%Z ->
  let t := if comparison p a b then "T" else "NIL" in
  exists st',
    evaluate (S (S fuel)) (callText name [a; b]) st = Return (t, t) st' /\
    heap st' = heap st.
Proof.
  intros Hp Hheap Hfn Ha Hb t.
  assert (Hcall : evaluate (S (S fuel)) (callText name [a; b]) st
                  = bind (applyPrimitive p (integers [a; b])
                            {| heap := heap st; output := [];
                               nextArray := S (nextArray st) |})
                      (fun v st2 =>
                         Return (stringify v,
                                 if 0 <? length (output st2)
                                 then JS.join newline (output st2) +:+ newline
                                      +:+ stringify v
                                 else stringify v) st2)).
  { pose proof Hp as Hin. simpl in Hin.
    destruct Hin as [Hin|[Hin|[Hin|[Hin|[Hin|[]]]]]]; injection Hin as <- <-;
      match goal with
      | |- evaluate _ (callText ?n _) _ = bind (applyPrimitive ?q _ _) _ =>
          apply (evaluate_builtin_call fuel n q [a; b] st e eq_refl eq_refl
                   eq_refl eq_refl Hheap)
      end;
      unfold getProperty; cbn [String.eqb Ascii.eqb Bool.eqb]; by rewrite Hfn. }
  rewrite Hcall, (applyPrimitive_comparison p a b [] _ (ex_intro _ name Hp) Ha Hb).
  cbn [bind output length Nat.ltb Nat.leb]. subst t.
  destruct (comparison p a b); by eexists.
Qed.

Lemma comparison_of_integers_witness :
  exists st',
    evaluate 2 (callText "<=" [-3; 9007199254740991]%Z) newSimpleLisp
    = Return ("T", "T") st' /\
    heap st' = heap newSimpleLisp.
Proof.
  apply (comparison_of_integers 0 "<=" LessEqual (-3) 9007199254740991
           newSimpleLisp createGlobalEnvironment).
  - do 3 right. left. reflexivity.
  - reflexivity.
  - vm_compute. reflexivity.
  - vm_compute. reflexivity.
  - vm_compute. reflexivity.
Defined.

(** ** Division of integers *)

Module JSDivision.
Import JS JSIntegers JSArithmetic JSOrder.
Local Open Scope Z_scope.

Lemma mantissa_bounds m :
  Zpos (digits2_pos m) = 53 -> 2 ^ 52 <= Zpos m < 2 ^ 53.
Proof.
  intros Hd. pose proof (digits2_pos_bounds m) as H. rewrite Hd in H. exact H.
Qed.

(** The quotient of two 53-bit mantissas, as [SFdiv] computes it, when the
    division leaves no remainder. *)
Lemma SFdiv_core_exact ma ea mb eb K :
  Zpos (digits2_pos ma) = 53 -> Zpos (digits2_pos mb) = 53 ->
  -52 <= ea <= 0 -> -52 <= eb <= 0 ->
  Zpos ma * 2 ^ 53 = K * Zpos mb ->
  SFdiv_core_binary prec emax (Zpos ma) ea (Zpos mb) eb
  = (K, ea - eb - 53, loc_Exact).
Proof.
  intros Hda Hdb Hea Heb HK. unfold SFdiv_core_binary. simpl Zdigits2.
  rewrite Hda, Hdb.
  assert (He : Z.min (fexp prec emax (53 + ea - (53 + eb))) (ea - eb)
               = ea - eb - 53).
  { unfold fexp, SpecFloat.emin, prec, emax. lia. }
  rewrite He.
  replace (ea - eb - (ea - eb - 53)) with 53 by lia.
  rewrite Z.shiftl_mul_pow2 by lia. rewrite HK.
  pose proof (Z.div_mul K (Zpos mb) ltac:(lia)) as Hq.
  pose proof (Z.mod_mul K (Zpos mb) ltac:(lia)) as Hr.
  unfold Z.div, Z.modulo in Hq, Hr.
  destruct (Z.div_eucl (K * Zpos mb) (Zpos mb)) as [q r].
  subst q r. f_equal. unfold new_location.
  by destruct (Z.even (Zpos mb)).
Qed.

(** Division is exact on the integers below [2^53] when it leaves no
    remainder. *)
Lemma div_integers q b :
  q <> 0 -> b <> 0 -> Z.abs (q * b) < 2 ^ 53 ->
  div (numberOfZ (q * b)) (numberOfZ b) = numberOfZ q.
Proof.
  intros Hq Hb Hab.
  assert (Ha : q * b <> 0) by nia.
  assert (Hb' : Z.abs b < 2 ^ 53) by nia.
  assert (Hq' : Z.abs q < 2 ^ 53) by nia.
  destruct (numberOfZ_canonical (q * b) Ha Hab) as (ma & ea & -> & Hda & Hea & Hma).
  destruct (numberOfZ_canonical b Hb Hb') as (mb & eb & -> & Hdb & Heb & Hmb).
  destruct (numberOfZ_canonical q Hq Hq') as (mq & eq & -> & Hdq & Heq & Hmq).
  pose proof (mantissa_bounds ma Hda) as Hba.
  pose proof (mantissa_bounds mb Hdb) as Hbb.
  pose proof (mantissa_bounds mq Hdq) as Hbq.
  assert (Hsign : xorb (q * b <? 0) (b <? 0) = (q <? 0)).
  { destruct (Z.ltb_spec (q * b) 0), (Z.ltb_spec b 0), (Z.ltb_spec q 0);
      simpl; try reflexivity; nia. }
  assert (Hpa : 0 < 2 ^ (- ea)) by (apply Z.pow_pos_nonneg; lia).
  assert (Hpb : 0 < 2 ^ (- eb)) by (apply Z.pow_pos_nonneg; lia).
  assert (Hpq : 0 < 2 ^ (- eq)) by (apply Z.pow_pos_nonneg; lia).
  set (k := eb - ea + 53).
  assert (Hk : 1 <= k) by (unfold k; lia).
  assert (Hpk : 0 < 2 ^ k) by (apply Z.pow_pos_nonneg; lia).
  assert (HK : Zpos ma * 2 ^ 53 = Z.abs q * 2 ^ k * Zpos mb).
  { assert (Hpow : 2 ^ k * 2 ^ (- eb) = 2 ^ (- ea) * 2 ^ 53).
    { rewrite <- !Z.pow_add_r by lia. f_equal. unfold k. lia. }
    rewrite Hma, Hmb, Z.abs_mul.
    replace (Z.abs q * 2 ^ k * (Z.abs b * 2 ^ (- eb)))
      with (Z.abs q * Z.abs b * (2 ^ k * 2 ^ (- eb))) by ring.
    rewrite Hpow. ring. }
  unfold div, SFdiv.
  rewrite (SFdiv_core_exact ma ea mb eb (Z.abs q * 2 ^ k) Hda Hdb Hea Heb HK).
  rewrite Hsign.
  assert (Hlarge : 2 ^ 52 < Z.abs q * 2 ^ k) by nia.
  destruct (k + eq) as [|n|n] eqn:Hj.
  - assert (Z.abs q * 2 ^ k = Zpos mq) as ->.
    { rewrite Hmq. do 2 f_equal. lia. }
    rewrite binary_round_aux_exact by (done || lia). f_equal. lia.
  - assert (Z.abs q * 2 ^ k = Zpos (Pos.iter xO mq n)) as ->.
    { rewrite iter_xO_value, Hmq, <- Z.mul_assoc, <- Z.pow_add_r by lia.
      do 2 f_equal. lia. }
    rewrite binary_round_aux_zeros by (done || lia). f_equal. lia.
  - exfalso.
    assert (Hmq' : Zpos mq = Z.abs q * 2 ^ k * 2 ^ Zpos n).
    { rewrite Hmq, <- Z.mul_assoc, <- Z.pow_add_r by lia. do 2 f_equal. lia. }
    pose proof (Z.pow_le_mono_r 2 1 (Zpos n) ltac:(lia) ltac:(lia)) as Hn.
    change (2 ^ 1) with 2 in Hn. nia.
Qed.

(** A nonzero integer below [2^53] divided by zero. *)
Lemma div_by_zero a :
  Z.abs a < 2 ^ 53 ->
  toString (div (numberOfZ a) (numberOfZ 0)) = overZeroText a.
Proof.
  intros Ha. unfold overZeroText.
  destruct (Z.eqb_spec a 0) as [->|Hne]; [reflexivity|].
  destruct (numberOfZ_finite a Hne Ha) as (m & e & -> & _).
  change (numberOfZ 0) with (S754_zero false). unfold div. simpl SFdiv.
  rewrite xorb_false_r. reflexivity.
Qed.

End JSDivision.

Lemma fold_div_integers zs x :
  x <> 0%Z -> Forall (fun z => z <> 0%Z) zs ->
  (Z.abs (x * productOf zs) < 2 ^ 53)%Z ->
  fold_left (numeric JS.div) (integers zs)
    (LNumber (JS.numberOfZ (x * productOf zs)))
  = LNumber (JS.numberOfZ x).
Proof.
  intros Hx Hzs. induction Hzs as [|z zs Hz Hzs IH]; intros Hsize.
  - simpl. by rewrite Z.mul_1_r.
  - pose proof (productOf_nonzero zs Hzs) as Hp. simpl in Hsize.
    cbn [integers List.map fold_left]. fold (integers zs).
    change (numeric JS.div (LNumber ?a) (LNumber ?b)) with (LNumber (JS.div a b)).
    change (productOf (z :: zs)) with (z * productOf zs)%Z.
    replace (x * (z * productOf zs))%Z with (x * productOf zs * z)%Z by ring.
    rewrite JSDivision.div_integers; [apply IH|..]; nia.
Qed.

(** X29. [/] divides integers exactly when the divisions leave no
    remainder, end to end: for a nonzero integer [x] and nonzero integers
    [z1 ... zn] whose product with [x] is below [2^53] in absolute value,
    [evaluate] on the call of [/] with that product followed by
    [z1 ... zn] returns the decimal text of [x], when [/] is still the
    primitive; with no divisor the value is returned as it is. *)
Theorem quotient_of_integers fuel x zs st e :
  heap st !! globalEnv = Some e ->
  e !! "/" = Some (Callable (Builtin Divide)) ->
  x <> 0%Z -> Forall (fun z => z <> 0%Z) zs ->
  (Z.abs (x * productOf zs) < 2 ^ 53)%Z ->
  exists st',
    evaluate (S (S fuel)) (callText "/" ((x * productOf zs)%Z :: zs)) st
    = Return (integerText x, integerText x) st' /\
    heap st' = heap st.
Proof.
  intros Hheap Hdivide Hx Hzs Hsize.
  rewrite (evaluate_builtin_call fuel "/" Divide _ st e eq_refl eq_refl eq_refl
             eq_refl Hheap).
  2:{ unfold getProperty. cbn [String.eqb Ascii.eqb Bool.eqb]. by rewrite Hdivide. }
  change (integers ((x * productOf zs)%Z :: zs))
    with (LNumber (JS.numberOfZ (x * productOf zs)) :: integers zs).
  cbn [applyPrimitive]. rewrite (fold_div_integers zs x Hx Hzs Hsize).
  cbn [bind output length Nat.ltb Nat.leb].
  pose proof (productOf_nonzero zs Hzs).
  rewrite stringify_integer by nia. by eexists.
Qed.

Lemma quotient_of_integers_witness :
  exists st',
    evaluate 2 (callText "/" ((-7 * productOf [3; -4; 25])%Z :: [3; -4; 25]%Z))
      newSimpleLisp
    = Return (integerText (-7), integerText (-7)) st' /\
    heap st' = heap newSimpleLisp.
Proof.
  apply (quotient_of_integers 0 (-7) [3; -4; 25]%Z newSimpleLisp
           createGlobalEnvironment).
  - reflexivity.
  - vm_compute. reflexivity.
  - discriminate.
  - repeat constructor; discriminate.
  - vm_compute. reflexivity.
Defined.

(** X30. Division by zero is no error: for an integer [a] below [2^53] in
    absolute value, [evaluate] on the call [(/ a 0)] returns the text
    [Infinity] when [a] is positive, [-Infinity] when it is negative and
    [NaN] when it is 0, as result and as output, and leaves the
    environments as they were, when [/] is still the primitive. *)
Theorem division_by_zero fuel a st e :
  heap st !! globalEnv = Some e ->
  e !! "/" = Some (Callable (Builtin Divide)) ->
  (Z.abs a < 2 ^ 53)%Z ->
  exists st',
    evaluate (S (S fuel)) (callText "/" [a; 0%Z]) st
    = Return (overZeroText a, overZeroText a) st' /\
    heap st' = heap st.
Proof.
  intros Hheap Hdivide Ha.
  rewrite (evaluate_builtin_call fuel "/" Divide _ st e eq_refl eq_refl eq_refl
             eq_refl Hheap).
  2:{ unfold getProperty. cbn [String.eqb Ascii.eqb Bool.eqb]. by rewrite Hdivide. }
  cbn [applyPrimitive integers List.map fold_left].
  change (numeric JS.div (LNumber ?x) (LNumber ?y)) with (LNumber (JS.div x y)).
  cbn [bind output length Nat.ltb Nat.leb stringify].
  rewrite (JSDivision.div_by_zero a Ha). by eexists.
Qed.

Lemma division_by_zero_witness :
  exists st',
    evaluate 2 (callText "/" [-5; 0]%Z) newSimpleLisp
    = Return (overZeroText (-5), overZeroText (-5)) st' /\
    heap st' = heap newSimpleLisp.
Proof.
  apply (division_by_zero 0 (-5) newSimpleLisp createGlobalEnvironment).
  - reflexivity.
  - vm_compute. reflexivity.
  - vm_compute. reflexivity.
Defined.
